(** * gst-srt: session management over the SRT transport

    A shallow embedding of the connection helper ([gstsrt.c]), the client
    receiver ([gstsrtclientsrc.c]), the base source property setter
    ([gstsrtbasesrc.c]) and the server sink ([gstsrtserversink.c]), with the
    properties the design document states about them; and of the functions
    around them: the life cycle of the server sink, of the client receiver
    and of the client sink ([gstsrtclientsink.c]), [render] and the
    statistics of the base classes ([gstsrtbasesink.c]), and the property
    getters, with the properties the code itself shows.

    The SRT library and GLib are external: every call into them is answered
    by an explicit environment value, and every call the code makes is
    recorded in a chronological log, so that statements such as "the socket
    is closed exactly once" are statements about the log. *)

From Stdlib Require Import ZArith String List Lia.
From stdpp Require Import base option list gmap.

Local Open Scope Z_scope.

(** Constants of [srt.h]. *)
Definition SRT_INVALID_SOCK : Z := -1.
Definition SRT_ERROR : Z := -1.
Definition SRT_ETIMEOUT : Z := 6003.


(** * The embedding *)

(** ** The server sink: client registry, delivery cycle, accept thread *)
Module ServerSink.

(** [#define SRT_SEND_BUFFER_SIZE 1024 * 1024] and [#define MAX_SEND_FAILS 10]. *)
Definition SRT_SEND_BUFFER_SIZE : Z := 1024 * 1024.
Definition MAX_SEND_FAILS : Z := 10.

(** A [GSocketAddress *] is an opaque token; [None] is the NULL pointer. *)
Definition GSocketAddress := Z.

(** [typedef struct { int sock; GSocketAddress *sockaddr; int num_send_fails; } SRTClient]. *)
Record SRTClient := mkClient {
  sock : Z;
  sockaddr : option GSocketAddress;
  num_send_fails : Z
}.

(** An [SRTClient *].  The number names the allocation made by
    [srt_client_new]; numbers are handed out in sequence and never reused, so
    that a record keeps its identity in the log after it has been freed. *)
Definition client_ptr := nat.

(** What the element does that the outside can see: the two signals, the
    calls into the transport, the error message posted by the accept
    thread, and the release of the pending queue. *)
Inductive event :=
| client_added (c : client_ptr) (s : Z) (a : option GSocketAddress)
| client_removed (c : client_ptr) (s : Z) (a : option GSocketAddress)
| srt_close (s : Z)
| srt_sendmsg2 (s : Z) (ok : bool)
| send_headers (s : Z) (ok : bool)
| srt_accept (ret : Z)
| srt_epoll_remove_usock (eid s : Z)
| srt_epoll_release (eid : Z)
| element_error
| g_async_queue_unref.

(** [struct _GstSRTServerSinkPrivate], with the heap of client records the
    [GList] and the [GAsyncQueue] point into. *)
Record GstSRTServerSinkPrivate := mkPriv {
  cancelled : bool;
  priv_sock : Z;
  poll_id : Z;
  thread : bool;
  heap : gmap client_ptr SRTClient;
  next_client : client_ptr;
  clients : list client_ptr;
  pending_clients : list client_ptr;
  log : list event
}.

Definition set_cancelled (b : bool) (st : GstSRTServerSinkPrivate) :=
  mkPriv b (priv_sock st) (poll_id st) (thread st) (heap st) (next_client st)
         (clients st) (pending_clients st) (log st).
Definition set_thread (b : bool) (st : GstSRTServerSinkPrivate) :=
  mkPriv (cancelled st) (priv_sock st) (poll_id st) b (heap st) (next_client st)
         (clients st) (pending_clients st) (log st).
Definition set_heap (h : gmap client_ptr SRTClient) (st : GstSRTServerSinkPrivate) :=
  mkPriv (cancelled st) (priv_sock st) (poll_id st) (thread st) h (next_client st)
         (clients st) (pending_clients st) (log st).
Definition set_next_client (n : client_ptr) (st : GstSRTServerSinkPrivate) :=
  mkPriv (cancelled st) (priv_sock st) (poll_id st) (thread st) (heap st) n
         (clients st) (pending_clients st) (log st).
Definition set_clients (l : list client_ptr) (st : GstSRTServerSinkPrivate) :=
  mkPriv (cancelled st) (priv_sock st) (poll_id st) (thread st) (heap st) (next_client st)
         l (pending_clients st) (log st).
Definition set_pending_clients (l : list client_ptr) (st : GstSRTServerSinkPrivate) :=
  mkPriv (cancelled st) (priv_sock st) (poll_id st) (thread st) (heap st) (next_client st)
         (clients st) l (log st).
Definition emit (e : event) (st : GstSRTServerSinkPrivate) :=
  mkPriv (cancelled st) (priv_sock st) (poll_id st) (thread st) (heap st) (next_client st)
         (clients st) (pending_clients st) (log st ++ [e]).

(** The transport's answers during one delivery cycle, per socket:
    the [SRTO_SNDDATA] value, whether [srt_sendmsg2] succeeds, and whether
    sending the stream headers succeeds. *)
Record transport := mkTransport {
  snddata : Z → Z;
  sendmsg_ok : Z → bool;
  headers_ok : Z → bool
}.

(** [srt_client_new]: a zeroed record with an invalid socket. *)
Definition srt_client_new (st : GstSRTServerSinkPrivate)
  : client_ptr * GstSRTServerSinkPrivate :=
  let p := next_client st in
  (p, set_next_client (S p)
        (set_heap (<[p := mkClient SRT_INVALID_SOCK None 0]> (heap st)) st)).

(** [srt_client_free]: closes the socket unless it is invalid, releases the
    record.  [None] when the pointer is dangling. *)
Definition srt_client_free (p : client_ptr) (st : GstSRTServerSinkPrivate)
  : option GstSRTServerSinkPrivate :=
  c ← heap st !! p;
  let st1 := if bool_decide (sock c ≠ SRT_INVALID_SOCK)
             then emit (srt_close (sock c)) st else st in
  Some (set_heap (delete p (heap st1)) st1).

(** [srt_emit_client_removed] and the inlined [g_signal_emit] of
    [SIG_CLIENT_REMOVED]. *)
Definition srt_emit_client_removed (p : client_ptr) (st : GstSRTServerSinkPrivate)
  : option GstSRTServerSinkPrivate :=
  c ← heap st !! p;
  Some (emit (client_removed p (sock c) (sockaddr c)) st).

(** [g_list_remove]: drops the first node holding the pointer. *)
Fixpoint g_list_remove (l : list client_ptr) (p : client_ptr) : list client_ptr :=
  match l with
  | [] => []
  | x :: t => if decide (x = p) then t else x :: g_list_remove t p
  end.

(** [send_buffer_internal]: one [srt_sendmsg2] on the client's socket. *)
Definition send_buffer_internal (w : transport) (p : client_ptr)
    (st : GstSRTServerSinkPrivate) : option (bool * GstSRTServerSinkPrivate) :=
  c ← heap st !! p;
  let ok := sendmsg_ok w (sock c) in
  Some (ok, emit (srt_sendmsg2 (sock c) ok) st).

(** [can_client_recv]: unacknowledged bytes plus one 1316-byte message must
    stay below the send buffer size. *)
Definition can_client_recv (w : transport) (socket : Z) : bool :=
  let send_buffer_size := SRT_SEND_BUFFER_SIZE in
  let default_msg_size := 1316 in
  let num_bytes_unacknowledged := snddata w socket in
  bool_decide (num_bytes_unacknowledged + default_msg_size < send_buffer_size).

(** Modelled from the spec: [gst_srt_base_sink_send_headers] is declared in
    the base sink of the server version, which is not among the sources; the
    design document says it sends "the bootstrap header payload" to the
    client through the given callback and reports success or failure.  It is
    one transport exchange whose outcome the environment decides. *)
Definition gst_srt_base_sink_send_headers (w : transport) (p : client_ptr)
    (st : GstSRTServerSinkPrivate) : option (bool * GstSRTServerSinkPrivate) :=
  c ← heap st !! p;
  let ok := headers_ok w (sock c) in
  Some (ok, emit (send_headers (sock c) ok) st).

(** The three statements repeated at both eviction sites of the loop over
    the live list: unlink, signal, free. *)
Definition remove_live_client (p : client_ptr) (st : GstSRTServerSinkPrivate)
  : option GstSRTServerSinkPrivate :=
  let st1 := set_clients (g_list_remove (clients st) p) st in
  st2 ← srt_emit_client_removed p st1;
  srt_client_free p st2.

(** The tail of the loop body: send, evict on failure. *)
Definition send_or_remove (w : transport) (p : client_ptr)
    (st : GstSRTServerSinkPrivate) : option GstSRTServerSinkPrivate :=
  match send_buffer_internal w p st with
  | Some (true, st1) => Some st1
  | Some (false, st1) => remove_live_client p st1
  | None => None
  end.

(** One turn of [while (clients != NULL)]. *)
Definition live_client_step (w : transport) (p : client_ptr)
    (st : GstSRTServerSinkPrivate) : option GstSRTServerSinkPrivate :=
  c ← heap st !! p;
  if negb (can_client_recv w (sock c)) then
    let c' := mkClient (sock c) (sockaddr c) (num_send_fails c + 1) in
    let st1 := set_heap (<[p := c']> (heap st)) st in
    if bool_decide (num_send_fails c' >= MAX_SEND_FAILS)
    then remove_live_client p st1
    else send_or_remove w p st1
  else send_or_remove w p st.

(** The loop over the live list.  The cursor is advanced before the body
    runs, so unlinking the current node does not disturb it. *)
Fixpoint live_loop (w : transport) (cursor : list client_ptr)
    (st : GstSRTServerSinkPrivate) : option GstSRTServerSinkPrivate :=
  match cursor with
  | [] => Some st
  | p :: rest => st1 ← live_client_step w p st; live_loop w rest st1
  end.

(** The [err:] label of the loop over new clients: signal and free, the
    record was never linked. *)
Definition discard_pending_client (p : client_ptr) (st : GstSRTServerSinkPrivate)
  : option GstSRTServerSinkPrivate :=
  st1 ← srt_emit_client_removed p st;
  srt_client_free p st1.

(** One turn of [while (client != NULL)] over the popped client. *)
Definition pending_client_step (w : transport) (p : client_ptr)
    (st : GstSRTServerSinkPrivate) : option GstSRTServerSinkPrivate :=
  match gst_srt_base_sink_send_headers w p st with
  | Some (true, st1) =>
      match send_buffer_internal w p st1 with
      | Some (true, st2) => Some (set_clients (p :: clients st2) st2)
      | Some (false, st2) => discard_pending_client p st2
      | None => None
      end
  | Some (false, st1) => discard_pending_client p st1
  | None => None
  end.

(** [g_async_queue_try_pop] until the queue is empty. *)
Fixpoint pending_loop (w : transport) (queue : list client_ptr)
    (st : GstSRTServerSinkPrivate) : option GstSRTServerSinkPrivate :=
  match queue with
  | [] => Some st
  | p :: rest =>
      st1 ← pending_client_step w p (set_pending_clients rest st);
      pending_loop w rest st1
  end.

(** [gst_srt_server_sink_send_buffer]. *)
Definition gst_srt_server_sink_send_buffer (w : transport)
    (st : GstSRTServerSinkPrivate) : option (bool * GstSRTServerSinkPrivate) :=
  st1 ← live_loop w (clients st) st;
  st2 ← pending_loop w (pending_clients st1) st1;
  Some (true, st2).

(** [g_list_foreach (priv->clients, srt_emit_client_removed, self)]. *)
Fixpoint emit_removed_all (l : list client_ptr) (st : GstSRTServerSinkPrivate)
  : option GstSRTServerSinkPrivate :=
  match l with
  | [] => Some st
  | p :: rest => st1 ← srt_emit_client_removed p st; emit_removed_all rest st1
  end.

(** [g_list_free_full (priv->clients, srt_client_free)]. *)
Fixpoint free_all (l : list client_ptr) (st : GstSRTServerSinkPrivate)
  : option GstSRTServerSinkPrivate :=
  match l with
  | [] => Some st
  | p :: rest => st1 ← srt_client_free p st; free_all rest st1
  end.

(** The drain of the pending queue in [stop]. *)
Fixpoint stop_pending_loop (queue : list client_ptr) (st : GstSRTServerSinkPrivate)
  : option GstSRTServerSinkPrivate :=
  match queue with
  | [] => Some st
  | p :: rest =>
      st1 ← discard_pending_client p (set_pending_clients rest st);
      stop_pending_loop rest st1
  end.

(** [gst_srt_server_sink_stop].  The thread is joined before the registry is
    emptied.  [g_list_free_full] frees the nodes and the records of the live
    list, but [priv->clients] is not assigned: the field keeps the pointers,
    to records the heap no longer has.  The pending queue is drained and then
    released; [pending_clients] is what it held at that moment. *)
Definition gst_srt_server_sink_stop (st : GstSRTServerSinkPrivate)
  : option GstSRTServerSinkPrivate :=
  let st1 := set_cancelled true st in
  let st2 := emit (srt_close (priv_sock st1))
               (emit (srt_epoll_release (poll_id st1))
                  (emit (srt_epoll_remove_usock (poll_id st1) (priv_sock st1)) st1)) in
  let st3 := set_thread false st2 in
  st4 ← emit_removed_all (clients st3) st3;
  st5 ← free_all (clients st4) st4;
  st6 ← stop_pending_loop (pending_clients st5) st5;
  Some (emit g_async_queue_unref st6).

(** What [srt_epoll_wait] and [srt_accept] answer in one turn of the accept
    thread. [wait_errno = None] when the wait did not return -1. *)
Record accept_env := mkAcceptEnv {
  wait_errno : option Z;
  accept_ret : Z;
  accept_sa : GSocketAddress
}.

Inductive loop_ctl := LoopExit | LoopContinue.

(** From [client = srt_client_new ()] to the end of the loop body. *)
Definition accept_client (e : accept_env) (st : GstSRTServerSinkPrivate)
  : option GstSRTServerSinkPrivate :=
  let '(p, st1) := srt_client_new st in
  let st2 := emit (srt_accept (accept_ret e))
               (set_heap (<[p := mkClient (accept_ret e) None 0]> (heap st1)) st1) in
  if bool_decide (accept_ret e = SRT_INVALID_SOCK) then
    srt_client_free p st2
  else
    let c := mkClient (accept_ret e) (Some (accept_sa e)) 0 in
    let st3 := set_heap (<[p := c]> (heap st2)) st2 in
    let st4 := emit (client_added p (sock c) (sockaddr c)) st3 in
    Some (set_pending_clients (pending_clients st4 ++ [p]) st4).

(** One turn of [while (!priv->cancelled)] in [thread_func].  The flag is
    written by other threads, so the two reads of it are inputs: [flag_head]
    is the read in the loop condition, [flag_timeout] the read after a
    timeout. *)
Definition thread_iter (flag_head flag_timeout : bool) (e : accept_env)
    (st : GstSRTServerSinkPrivate) : option (loop_ctl * GstSRTServerSinkPrivate) :=
  if flag_head then Some (LoopExit, st)
  else
    match wait_errno e with
    | Some srt_errno =>
        if bool_decide (srt_errno ≠ SRT_ETIMEOUT) then
          Some (LoopContinue, emit element_error st)
        else if bool_decide (srt_errno = SRT_ETIMEOUT) && flag_timeout then
          Some (LoopContinue, st)
        else st1 ← accept_client e st; Some (LoopContinue, st1)
    | None => st1 ← accept_client e st; Some (LoopContinue, st1)
    end.

(** [thread_func] over the turns the environment offers; the boolean tells
    whether the function has returned. *)
Fixpoint thread_func (turns : list (bool * bool * accept_env))
    (st : GstSRTServerSinkPrivate) : option (bool * GstSRTServerSinkPrivate) :=
  match turns with
  | [] => Some (false, st)
  | (fh, ft, e) :: rest =>
      match thread_iter fh ft e st with
      | Some (LoopExit, st1) => Some (true, st1)
      | Some (LoopContinue, st1) => thread_func rest st1
      | None => None
      end
  end.

(** The element after [gst_srt_server_sink_init] and a successful [start]. *)
Definition started (lsock eid : Z) : GstSRTServerSinkPrivate :=
  mkPriv false lsock eid true ∅ 0%nat [] [] [].

(** *** A delivery cycle, client by client

    What one turn of either loop does to a client whose record is [c]. *)

Definition bump (c : SRTClient) : SRTClient :=
  mkClient (sock c) (sockaddr c) (num_send_fails c + 1).

Definition close_events (c : SRTClient) : list event :=
  if bool_decide (sock c ≠ SRT_INVALID_SOCK) then [srt_close (sock c)] else [].

Definition removal_events (p : client_ptr) (c : SRTClient) : list event :=
  client_removed p (sock c) (sockaddr c) :: close_events c.

Inductive verdict := Keep | EvictBackpressure | EvictSendFailure.

Definition live_record (w : transport) (c : SRTClient) : SRTClient :=
  if can_client_recv w (sock c) then c else bump c.

(** The backpressure check fails and brings the counter to the threshold. *)
Definition backpressure_evicts (w : transport) (c : SRTClient) : bool :=
  negb (can_client_recv w (sock c))
  && bool_decide (num_send_fails (bump c) >= MAX_SEND_FAILS).

Definition live_verdict (w : transport) (c : SRTClient) : verdict :=
  if backpressure_evicts w c then EvictBackpressure
  else if sendmsg_ok w (sock c) then Keep else EvictSendFailure.

Definition live_events (w : transport) (p : client_ptr) (c : SRTClient) : list event :=
  match live_verdict w c with
  | Keep => [srt_sendmsg2 (sock c) true]
  | EvictBackpressure => removal_events p (live_record w c)
  | EvictSendFailure => srt_sendmsg2 (sock c) false :: removal_events p (live_record w c)
  end.

Definition after_live (w : transport) (p : client_ptr) (c : SRTClient)
    (st : GstSRTServerSinkPrivate) : GstSRTServerSinkPrivate :=
  match live_verdict w c with
  | Keep =>
      mkPriv (cancelled st) (priv_sock st) (poll_id st) (thread st)
             (<[p := live_record w c]> (heap st)) (next_client st)
             (clients st) (pending_clients st) (log st ++ live_events w p c)
  | _ =>
      mkPriv (cancelled st) (priv_sock st) (poll_id st) (thread st)
             (delete p (heap st)) (next_client st)
             (g_list_remove (clients st) p) (pending_clients st)
             (log st ++ live_events w p c)
  end.

Definition pending_promoted (w : transport) (c : SRTClient) : bool :=
  headers_ok w (sock c) && sendmsg_ok w (sock c).

Definition pending_events (w : transport) (p : client_ptr) (c : SRTClient) : list event :=
  send_headers (sock c) (headers_ok w (sock c)) ::
  (if headers_ok w (sock c) then
     srt_sendmsg2 (sock c) (sendmsg_ok w (sock c)) ::
     (if sendmsg_ok w (sock c) then [] else removal_events p c)
   else removal_events p c).

Definition after_pending (w : transport) (p : client_ptr) (c : SRTClient)
    (st : GstSRTServerSinkPrivate) : GstSRTServerSinkPrivate :=
  if pending_promoted w c then
    mkPriv (cancelled st) (priv_sock st) (poll_id st) (thread st)
           (heap st) (next_client st)
           (p :: clients st) (pending_clients st) (log st ++ pending_events w p c)
  else
    mkPriv (cancelled st) (priv_sock st) (poll_id st) (thread st)
           (delete p (heap st)) (next_client st)
           (clients st) (pending_clients st) (log st ++ pending_events w p c).

(** *** Counting signals per client record *)

Definition is_added (p : client_ptr) (e : event) : bool :=
  match e with client_added c _ _ => bool_decide (c = p) | _ => false end.

Definition is_removed (p : client_ptr) (e : event) : bool :=
  match e with client_removed c _ _ => bool_decide (c = p) | _ => false end.

Definition is_signal (e : event) : bool :=
  match e with client_added _ _ _ | client_removed _ _ _ => true | _ => false end.

Fixpoint count_ev (f : event → bool) (l : list event) : nat :=
  match l with
  | [] => 0
  | e :: t => ((if f e then 1 else 0) + count_ev f t)%nat
  end.

Definition added (p : client_ptr) (l : list event) : nat := count_ev (is_added p) l.
Definition removed (p : client_ptr) (l : list event) : nat := count_ev (is_removed p) l.

(** In every prefix of the log a record has been removed no more often than
    it has been added: a removal is always preceded by its addition. *)
Definition removals_follow_additions (l : list event) : Prop :=
  ∀ l1 l2 p, l = l1 ++ l2 → (removed p l1 ≤ added p l1)%nat.

(** The registry invariant, over the heap [h], the allocation counter [n],
    the registry contents [reg] (live list and pending queue together) and
    the log [lg]. *)
Record registry_inv (h : gmap client_ptr SRTClient) (n : client_ptr)
    (reg : list client_ptr) (lg : list event) : Prop := mkInv {
  inv_nodup : NoDup reg;
  inv_dom : ∀ p, p ∈ reg ↔ is_Some (h !! p);
  inv_sock : ∀ p c, h !! p = Some c → sock c ≠ SRT_INVALID_SOCK;
  inv_fresh : ∀ p, is_Some (h !! p) → (p < n)%nat;
  inv_unborn : ∀ p, (n ≤ p)%nat → added p lg = 0%nat;
  inv_live : ∀ p, is_Some (h !! p) → added p lg = 1%nat ∧ removed p lg = 0%nat;
  inv_gone : ∀ p, h !! p = None → removed p lg = added p lg ∧ (added p lg ≤ 1)%nat;
  inv_order : removals_follow_additions lg
}.

Definition sink_inv (st : GstSRTServerSinkPrivate) : Prop :=
  registry_inv (heap st) (next_client st) (clients st ++ pending_clients st) (log st).

(** Events other than the two signals. *)
Definition quiet (l : list event) : Prop := Forall (λ e, is_signal e = false) l.

(** *** The two loops of a delivery cycle *)

Definition live_keep (w : transport) (c : SRTClient) : option SRTClient :=
  match live_verdict w c with Keep => Some (live_record w c) | _ => None end.

Definition pending_keep (w : transport) (c : SRTClient) : option SRTClient :=
  if pending_promoted w c then Some c else None.

Definition events_of (f : client_ptr → SRTClient → list event)
    (h : gmap client_ptr SRTClient) (q : client_ptr) : list event :=
  match h !! q with Some c => f q c | None => [] end.

(** *** Shutdown *)

Definition removed_event (p : client_ptr) (c : SRTClient) : list event :=
  [client_removed p (sock c) (sockaddr c)].

Definition closed_event (p : client_ptr) (c : SRTClient) : list event :=
  close_events c.

Definition delete_all (l : list client_ptr) (h : gmap client_ptr SRTClient)
  : gmap client_ptr SRTClient :=
  foldl (λ h p, delete p h) h l.

(** *** A session: what can happen between [start] and [stop] *)

Inductive action :=
| accept_turn (flag_head flag_timeout : bool) (e : accept_env)
| deliver (w : transport)
| unlock
| unlock_stop.

(** One entry point, or one turn of the accept thread, run to completion. *)
Definition step (a : action) (st : GstSRTServerSinkPrivate)
  : option GstSRTServerSinkPrivate :=
  match a with
  | accept_turn fh ft e => snd <$> thread_iter fh ft e st
  | deliver w => snd <$> gst_srt_server_sink_send_buffer w st
  | unlock => Some (set_cancelled true st)
  | unlock_stop => Some (set_cancelled false st)
  end.

Fixpoint run (acts : list action) (st : GstSRTServerSinkPrivate)
  : option GstSRTServerSinkPrivate :=
  match acts with
  | [] => Some st
  | a :: rest => st1 ← step a st; run rest st1
  end.

(** *** Concrete sessions *)

(** The send buffer is full ([SRTO_SNDDATA] is one mebibyte), sends succeed. *)
Definition blocked : transport :=
  mkTransport (λ _, SRT_SEND_BUFFER_SIZE) (λ _, true) (λ _, true).

(** Nothing is unacknowledged, sends succeed. *)
Definition clear : transport :=
  mkTransport (λ _, 0) (λ _, true) (λ _, true).

(** Nothing is unacknowledged, every send on socket [s] fails. *)
Definition failing_on (s : Z) : transport :=
  mkTransport (λ _, 0) (λ x, bool_decide (x ≠ s)) (λ x, bool_decide (x ≠ s)).

(** The accept thread finds a client on socket [s]. *)
Definition accepts (s : Z) : action :=
  accept_turn false false (mkAcceptEnv None s 42).

(** One client on socket 5 waits in the pending queue. *)
Definition st_pending5 : GstSRTServerSinkPrivate :=
  mkPriv false 3 1 true (<[0%nat := mkClient 5 (Some 42) 0]> ∅) 1%nat [] [0%nat]
         [srt_accept 5; client_added 0%nat 5 (Some 42)].

(** Two clients, on sockets 5 and 6, are live. *)
Definition st_live56 : GstSRTServerSinkPrivate :=
  mkPriv false 3 1 true
         (<[0%nat := mkClient 5 (Some 42) 0]> (<[1%nat := mkClient 6 (Some 42) 0]> ∅))
         2%nat [1%nat; 0%nat] []
         [srt_accept 5; client_added 0%nat 5 (Some 42);
          srt_accept 6; client_added 1%nat 6 (Some 42);
          send_headers 5 true; srt_sendmsg2 5 true;
          send_headers 6 true; srt_sendmsg2 6 true].

(** One client is promoted, fails the backpressure check in nine delivery
    cycles and passes it in the tenth. *)
Definition nine_failures_then_success : list action :=
  [accepts 5; deliver clear] ++ replicate 9 (deliver blocked) ++ [deliver clear].

End ServerSink.

(** ** The connect helper of the client roles ([gstsrt.c]) *)
Module Connect.

Local Open Scope string_scope.
Local Open Scope list_scope.

(** The socket options the elements assign. *)
Inductive SRT_SOCKOPT :=
| SRTO_SNDSYN | SRTO_TSBPDMODE | SRTO_LINGER | SRTO_SENDER
| SRTO_PEERLATENCY | SRTO_RCVLATENCY | SRTO_RENDEZVOUS
| SRTO_PASSPHRASE | SRTO_PBKEYLEN.

(** An option value is an [int] or a character string. *)
Inductive optval := OptInt (v : Z) | OptStr (s : string).

Inductive SRT_SOCKSTATUS :=
| SRTS_INIT | SRTS_OPENED | SRTS_LISTENING | SRTS_CONNECTING | SRTS_CONNECTED
| SRTS_BROKEN | SRTS_CLOSING | SRTS_CLOSED | SRTS_NONEXIST.

(** [SRT_EPOLL_IN], [SRT_EPOLL_OUT], [SRT_EPOLL_ERR]. *)
Definition SRT_EPOLL_IN : Z := 1.
Definition SRT_EPOLL_OUT : Z := 4.
Definition SRT_EPOLL_ERR : Z := 8.

(** A [GSocketAddress]: family, host text, port. *)
Record GSocketAddress := mkAddr { sa_family : Z; sa_host : string; sa_port : Z }.

(** The calls the helper makes, with what they returned, and the error
    messages it posts. *)
Inductive call :=
| srt_epoll_create (ret : Z)
| srt_socket (family : Z) (ret : Z)
| srt_setsockopt (s : Z) (o : SRT_SOCKOPT) (v : optval)
| srt_bind (s : Z) (a : GSocketAddress) (ret : Z)
| srt_connect (s : Z) (a : GSocketAddress) (ret : Z)
| srt_getsockstate (s : Z) (ret : SRT_SOCKSTATUS)
| srt_epoll_add_usock (eid s events : Z)
| srt_epoll_release (eid : Z)
| srt_close (s : Z)
| element_error (msg : string).

(** What GLib and the transport answer during one call of the helper. *)
Record world := mkWorld {
  g_inet_socket_address_new_from_string : string → Z → option GSocketAddress;
  g_socket_address_to_native : GSocketAddress → bool;
  epoll_create_ret : Z;
  socket_ret : Z;
  bind_ret : Z;
  connect_ret : Z;
  sockstate : SRT_SOCKSTATUS;
  epoll_add_usock_ret : Z
}.

(** The parameters of [gst_srt_client_connect_full]; a [NULL] string is
    [None]. *)
Record args := mkArgs {
  is_sender : bool;
  host : option string;
  port : Z;
  rendezvous : bool;
  bind_address : option string;
  bind_port : Z;
  latency : Z;
  passphrase : option string;
  key_length : Z
}.

(** The local [sock], the two out-parameters, and the log of calls. *)
Record frame := mkFrame {
  sock : Z;
  poll_id : Z;
  socket_address : option GSocketAddress;
  calls : list call
}.

(** A computation over the frame that either yields a value or jumps to
    the [failed:] label. *)
Definition M (A : Type) : Type := frame → option A * frame.

Definition ret {A} (x : A) : M A := λ fr, (Some x, fr).

Definition bind {A B} (m : M A) (k : A → M B) : M B :=
  λ fr, match m fr with
        | (Some x, fr1) => k x fr1
        | (None, fr1) => (None, fr1)
        end.

Definition goto_failed {A} : M A := λ fr, (None, fr).

Definition do_call (c : call) : M unit :=
  λ fr, (Some tt, mkFrame (sock fr) (poll_id fr) (socket_address fr) (calls fr ++ [c])).

Definition set_sock (s : Z) : M unit :=
  λ fr, (Some tt, mkFrame s (poll_id fr) (socket_address fr) (calls fr)).

Definition set_poll_id (p : Z) : M unit :=
  λ fr, (Some tt, mkFrame (sock fr) p (socket_address fr) (calls fr)).

Definition set_socket_address (a : option GSocketAddress) : M unit :=
  λ fr, (Some tt, mkFrame (sock fr) (poll_id fr) a (calls fr)).

Definition get_frame : M frame := λ fr, (Some fr, fr).

Definition when (b : bool) (m : M unit) : M unit := if b then m else ret tt.

Notation "'let*' x ':=' m 'in' k" := (bind m (λ x, k))
  (at level 10, x name, m at level 100, k at level 200, only parsing).
Notation "m ';;' k" := (bind m (λ _, k))
  (at level 100, k at level 200, right associativity, only parsing).

Definition b2z (b : bool) : Z := if b then 1 else 0.

(** [passphrase != NULL && passphrase[0] != '\0']. *)
Definition passphrase_given (a : args) : option string :=
  match passphrase a with
  | Some (String c rest) => Some (String c rest)
  | _ => None
  end.

(** The option assignments between [srt_socket] and the bind block. *)
Definition apply_socket_options (a : args) (s : Z) : M unit :=
  do_call (srt_setsockopt s SRTO_TSBPDMODE (OptInt 1)) ;;
  do_call (srt_setsockopt s SRTO_LINGER (OptInt 0)) ;;
  do_call (srt_setsockopt s SRTO_SENDER (OptInt (b2z (is_sender a)))) ;;
  (if is_sender a
   then do_call (srt_setsockopt s SRTO_PEERLATENCY (OptInt (latency a)))
   else do_call (srt_setsockopt s SRTO_RCVLATENCY (OptInt (latency a)))) ;;
  do_call (srt_setsockopt s SRTO_RENDEZVOUS (OptInt (b2z (rendezvous a)))) ;;
  match passphrase_given a with
  | Some pw =>
      do_call (srt_setsockopt s SRTO_PASSPHRASE (OptStr pw)) ;;
      do_call (srt_setsockopt s SRTO_PBKEYLEN (OptInt (key_length a)))
  | None => ret tt
  end.

(** [if (bind_address || bind_port || rendezvous) { ... }]. *)
Definition bind_socket (w : world) (a : args) (s : Z) : M unit :=
  if bool_decide (is_Some (bind_address a)) || bool_decide (bind_port a ≠ 0)
     || rendezvous a
  then
    let bind_address := default "0.0.0.0" (bind_address a) in
    let bind_port := if rendezvous a then port a else bind_port a in
    match g_inet_socket_address_new_from_string w bind_address bind_port with
    | None => do_call (element_error "Invalid bind address") ;; goto_failed
    | Some bsa =>
        if negb (g_socket_address_to_native w bsa) then
          do_call (element_error "Invalid bind address") ;; goto_failed
        else
          do_call (srt_bind s bsa (bind_ret w)) ;;
          if bool_decide (bind_ret w = SRT_ERROR) then
            do_call (element_error "Can't bind to address") ;; goto_failed
          else ret tt
    end
  else ret tt.

(** From [srt_connect] to [return sock]. *)
Definition connect_socket (w : world) (a : args) (s : Z) (sa : GSocketAddress) : M Z :=
  do_call (srt_connect s sa (connect_ret w)) ;;
  if bool_decide (connect_ret w = SRT_ERROR) then
    do_call (element_error "Connection error") ;; goto_failed
  else
    do_call (srt_getsockstate s (sockstate w)) ;;
    match sockstate w with
    | SRTS_CONNECTED =>
        let events :=
          if is_sender a
          then Z.lor (Z.lor SRT_EPOLL_IN SRT_EPOLL_OUT) SRT_EPOLL_ERR
          else Z.lor SRT_EPOLL_IN SRT_EPOLL_ERR in
        let* fr := get_frame in
        do_call (srt_epoll_add_usock (poll_id fr) s events) ;;
        ret s
    | _ => goto_failed
    end.

(** The body of [gst_srt_client_connect_full] down to [return sock]. *)
Definition connect_body (w : world) (a : args) : M Z :=
  match host a with
  | None => do_call (element_error "Invalid host") ;; goto_failed
  | Some h =>
    set_socket_address (g_inet_socket_address_new_from_string w h (port a)) ;;
    match g_inet_socket_address_new_from_string w h (port a) with
    | None => do_call (element_error "Invalid host") ;; goto_failed
    | Some sa =>
      set_poll_id (epoll_create_ret w) ;;
      do_call (srt_epoll_create (epoll_create_ret w)) ;;
      if bool_decide (epoll_create_ret w = -1) then
        do_call (element_error "failed to create poll id for SRT socket") ;; goto_failed
      else if negb (g_socket_address_to_native w sa) then
        do_call (element_error "Invalid address") ;; goto_failed
      else
        let s := socket_ret w in
        set_sock s ;;
        do_call (srt_socket (sa_family sa) s) ;;
        if bool_decide (s = SRT_ERROR) then
          do_call (element_error "failed to create SRT socket") ;; goto_failed
        else
          apply_socket_options a s ;;
          bind_socket w a s ;;
          connect_socket w a s sa
    end
  end.

(** The [failed:] label. *)
Definition failed : M Z :=
  let* fr := get_frame in
  when (bool_decide (poll_id fr ≠ SRT_ERROR))
       (do_call (srt_epoll_release (poll_id fr)) ;; set_poll_id SRT_ERROR) ;;
  when (bool_decide (sock fr ≠ SRT_INVALID_SOCK))
       (do_call (srt_close (sock fr)) ;; set_sock SRT_INVALID_SOCK) ;;
  set_socket_address None ;;
  ret SRT_INVALID_SOCK.

(** [gst_srt_client_connect_full]: the returned socket and the frame on
    return.  [poll_id_in] and [socket_address_in] are what the two
    out-parameters hold on entry. *)
Definition gst_srt_client_connect_full (w : world) (a : args)
    (poll_id_in : Z) (socket_address_in : option GSocketAddress) : Z * frame :=
  let fr0 := mkFrame SRT_INVALID_SOCK poll_id_in socket_address_in [] in
  match connect_body w a fr0 with
  | (Some s, fr) => (s, fr)
  | (None, fr) =>
      match failed fr with
      | (Some s, fr1) => (s, fr1)
      | (None, fr1) => (SRT_INVALID_SOCK, fr1)
      end
  end.

(** [gst_srt_client_connect]: no passphrase. *)
Definition gst_srt_client_connect (w : world) (a : args)
    (poll_id_in : Z) (socket_address_in : option GSocketAddress) : Z * frame :=
  gst_srt_client_connect_full w
    (mkArgs (is_sender a) (host a) (port a) (rendezvous a) (bind_address a)
            (bind_port a) (latency a) None 0)
    poll_id_in socket_address_in.

(** *** Handles in the log *)

Definition created_pollers (l : list call) : list Z :=
  flat_map (λ c, match c with
                 | srt_epoll_create r => if bool_decide (r = -1) then [] else [r]
                 | _ => []
                 end) l.

Definition created_sockets (l : list call) : list Z :=
  flat_map (λ c, match c with
                 | srt_socket _ r => if bool_decide (r = SRT_ERROR) then [] else [r]
                 | _ => []
                 end) l.

Definition released (l : list call) : list Z :=
  flat_map (λ c, match c with srt_epoll_release e => [e] | _ => [] end) l.

Definition closed (l : list call) : list Z :=
  flat_map (λ c, match c with srt_close s => [s] | _ => [] end) l.

Definition registered (l : list call) : list (Z * Z * Z) :=
  flat_map (λ c, match c with srt_epoll_add_usock e s ev => [(e, s, ev)] | _ => [] end) l.

(** The option assignments made on socket [s], in order. *)
Definition sockopts_of (s : Z) (l : list call) : list (SRT_SOCKOPT * optval) :=
  flat_map (λ c, match c with
                 | srt_setsockopt s' o v => if bool_decide (s' = s) then [(o, v)] else []
                 | _ => []
                 end) l.

(** *** The failure points, as the design document lists them *)

Inductive failure_point :=
| NullHost | HostParse | MultiplexerInit | AddressResolution | SocketCreate
| BindParse | BindResolution | BindFailure | ConnectFailure | NotConnected.

Definition wants_bind (a : args) : bool :=
  bool_decide (is_Some (bind_address a)) || bool_decide (bind_port a ≠ 0) || rendezvous a.

Definition bind_failure (w : world) (a : args) : option failure_point :=
  if wants_bind a then
    match g_inet_socket_address_new_from_string w
            (default "0.0.0.0" (bind_address a))
            (if rendezvous a then port a else bind_port a) with
    | None => Some BindParse
    | Some bsa =>
        if negb (g_socket_address_to_native w bsa) then Some BindResolution
        else if bool_decide (bind_ret w = SRT_ERROR) then Some BindFailure
        else None
    end
  else None.

Definition connect_failure (w : world) : option failure_point :=
  if bool_decide (connect_ret w = SRT_ERROR) then Some ConnectFailure
  else match sockstate w with
       | SRTS_CONNECTED => None
       | _ => Some NotConnected
       end.

(** The first check that fails, in the order the helper makes them. *)
Definition first_failure (w : world) (a : args) : option failure_point :=
  match host a with
  | None => Some NullHost
  | Some h =>
    match g_inet_socket_address_new_from_string w h (port a) with
    | None => Some HostParse
    | Some sa =>
      if bool_decide (epoll_create_ret w = -1) then Some MultiplexerInit
      else if negb (g_socket_address_to_native w sa) then Some AddressResolution
      else if bool_decide (socket_ret w = SRT_ERROR) then Some SocketCreate
      else match bind_failure w a with
           | Some fp => Some fp
           | None => connect_failure w
           end
    end
  end.

(** The multiplexers and sockets the helper has created when it reaches a
    failure point. *)
Definition created_before (w : world) (fp : failure_point) : list Z * list Z :=
  match fp with
  | NullHost | HostParse | MultiplexerInit => ([], [])
  | AddressResolution | SocketCreate => ([epoll_create_ret w], [])
  | _ => ([epoll_create_ret w], [socket_ret w])
  end.

(** The option profile as the design document words it, without the
    non-blocking send mode: TSBPD on, linger off, the sender flag, the
    latency on the peer-latency option for a sender and on the
    receive-latency option for a receiver, the rendezvous flag, and the
    passphrase with the key length when a passphrase is given. *)
Definition socket_option_profile (a : args) : list (SRT_SOCKOPT * optval) :=
  [(SRTO_TSBPDMODE, OptInt 1);
   (SRTO_LINGER, OptInt 0);
   (SRTO_SENDER, OptInt (if is_sender a then 1 else 0));
   (if is_sender a then SRTO_PEERLATENCY else SRTO_RCVLATENCY, OptInt (latency a));
   (SRTO_RENDEZVOUS, OptInt (if rendezvous a then 1 else 0))]
  ++ match passphrase a with
     | None | Some EmptyString => []
     | Some pw => [(SRTO_PASSPHRASE, OptStr pw); (SRTO_PBKEYLEN, OptInt (key_length a))]
     end.

Arguments socket_option_profile : simpl never.

(** The frame with more calls logged. *)
Definition log_to (fr : frame) (l : list call) : frame :=
  mkFrame (sock fr) (poll_id fr) (socket_address fr) (calls fr ++ l).

(** Calls that create, release or close nothing. *)
Definition neutral (l : list call) : Prop :=
  created_pollers l = [] ∧ created_sockets l = [] ∧ released l = [] ∧ closed l = [].

(** The value of [*poll_id] when a failure point is reached; [pin] is the
    value on entry. *)
Definition poll_id_at (w : world) (pin : Z) (fp : failure_point) : Z :=
  match fp with
  | NullHost | HostParse => pin
  | _ => epoll_create_ret w
  end.

End Connect.

(** ** The client receiver ([gstsrtclientsrc.c]) *)
Module ClientSrc.

Local Open Scope string_scope.
Local Open Scope list_scope.

(** [int] arithmetic: the result of an operation, brought back into the
    32-bit two's complement range. *)
Definition wrap32 (x : Z) : Z := (x + 2 ^ 31) mod 2 ^ 32 - 2 ^ 31.

(** The fields of [SRT_MSGCTRL] the element reads. *)
Record SRT_MSGCTRL := mkCtrl { msgno : Z; srctime : Z }.

Inductive GstFlowReturn := GST_FLOW_OK | GST_FLOW_EOS | GST_FLOW_ERROR.

(** A [GstBuffer]: its bytes, its presentation time stamp, and the source
    time of the attached [GstSrtMeta], if any. *)
Record GstBuffer := mkBuffer {
  data : list Z;
  pts : option Z;
  src_time : option Z
}.

(** [struct _GstSRTClientSrcPrivate]. *)
Record GstSRTClientSrcPrivate := mkPriv {
  sock : Z;
  poll_id : Z;
  poll_timeout : Z;
  last_msg_num : Z;
  rendezvous : bool;
  bind_address : option string;
  bind_port : Z
}.

(** What [fill] reports besides its return value. *)
Inductive diagnostic :=
| element_error (msg : string)
| weird_size (len : Z)
| dropped (count from to : Z).

(** What the framework and the transport answer during one [fill]:
    whether the buffer can be mapped, the value [srt_recvmsg2] returns, the
    bytes it stored at the start of the buffer, the control block it filled,
    and the clock. *)
Record fill_env := mkFillEnv {
  map_ok : bool;
  recv_len : Z;
  recv_bytes : list Z;
  ctrl : SRT_MSGCTRL;
  clock_time : Z;
  base_time : Z
}.

Definition set_last_msg_num (n : Z) (st : GstSRTClientSrcPrivate) :=
  mkPriv (sock st) (poll_id st) (poll_timeout st) n (rendezvous st)
         (bind_address st) (bind_port st).

(** The mapped memory after the transport has stored [bytes] at its start;
    the size of the buffer does not change. *)
Definition store (old bytes : list Z) : list Z :=
  take (length old) (bytes ++ drop (length bytes) old).

(** What one [fill] leaves behind: the return value, the element, the
    buffer, and the diagnostics in the order they were issued. *)
Record filled := mkFilled {
  flow : GstFlowReturn;
  state : GstSRTClientSrcPrivate;
  buffer : GstBuffer;
  diagnostics : list diagnostic
}.

(** [gst_srt_client_src_fill]. *)
Definition gst_srt_client_src_fill (e : fill_env) (st : GstSRTClientSrcPrivate)
    (outbuf : GstBuffer) : filled :=
  if negb (map_ok e) then
    mkFilled GST_FLOW_ERROR st outbuf [element_error "Could not map the output stream"]
  else
    let outbuf1 := mkBuffer (store (data outbuf) (recv_bytes e)) (pts outbuf)
                            (src_time outbuf) in
    if bool_decide (recv_len e = SRT_ERROR) then
      mkFilled GST_FLOW_ERROR st outbuf1 [element_error "srt_recvmsg error"]
    else if bool_decide (recv_len e = 0) then
      mkFilled GST_FLOW_EOS st outbuf1 []
    else
      let d1 := if bool_decide (recv_len e ≠ 1316) then [weird_size (recv_len e)] else [] in
      let d2 :=
        if bool_decide (last_msg_num st ≠ 0)
           && bool_decide (wrap32 (msgno (ctrl e) - last_msg_num st) > 1)
        then [dropped (wrap32 (wrap32 (msgno (ctrl e) - last_msg_num st) - 1))
                      (last_msg_num st) (msgno (ctrl e))]
        else [] in
      let st1 := set_last_msg_num (msgno (ctrl e)) st in
      let outbuf2 :=
        mkBuffer (take (Z.to_nat (recv_len e)) (data outbuf1))
                 (Some ((clock_time e - base_time e) mod 2 ^ 64))
                 (Some (srctime (ctrl e))) in
      mkFilled GST_FLOW_OK st1 outbuf2 (d1 ++ d2).

(** [gst_srt_client_src_start] leaves the sequence tracking at zero; the
    sockets come from the connect helper. *)
Definition started (s eid : Z) (st : GstSRTClientSrcPrivate) : GstSRTClientSrcPrivate :=
  mkPriv s eid (poll_timeout st) 0 (rendezvous st) (bind_address st) (bind_port st).

(** The counts reported by the gap diagnostics among [ds]. *)
Definition dropped_counts (ds : list diagnostic) : list Z :=
  flat_map (λ d, match d with dropped n _ _ => [n] | _ => [] end) ds.

(** Successive fills, each with its own environment, into fresh buffers of
    the same shape; for each fill, its return value and the counts its gap
    diagnostics report. *)
Fixpoint fills (es : list fill_env) (st : GstSRTClientSrcPrivate) (outbuf : GstBuffer)
  : GstSRTClientSrcPrivate * list (GstFlowReturn * list Z) :=
  match es with
  | [] => (st, [])
  | e :: rest =>
      let r := gst_srt_client_src_fill e st outbuf in
      let '(st2, out) := fills rest (state r) outbuf in
      (st2, (flow r, dropped_counts (diagnostics r)) :: out)
  end.

(** A [fill] in which [srt_recvmsg2] delivers a message numbered [m]. *)
Definition receives (e : fill_env) (m : Z) : Prop :=
  map_ok e = true ∧ recv_len e ≠ SRT_ERROR ∧ recv_len e ≠ 0 ∧ msgno (ctrl e) = m.

End ClientSrc.

(** ** The base source: property setter ([gstsrtbasesrc.c]) *)
Module BaseSrc.

Local Open Scope string_scope.
Local Open Scope list_scope.

(** [#define SRT_URI_SCHEME "srt"]. *)
Definition SRT_URI_SCHEME : string := "srt".

(** The property ids of the [enum]. *)
Definition PROP_URI : Z := 1.
Definition PROP_CAPS : Z := 2.
Definition PROP_LATENCY : Z := 3.
Definition PROP_PASSPHRASE : Z := 4.
Definition PROP_KEY_LENGTH : Z := 5.

(** A [GValue] of the types the properties have. *)
Inductive GValue (GstCaps : Type) :=
| VString (s : option string)
| VInt (n : Z)
| VCaps (c : option GstCaps).
Arguments VString {GstCaps} s.
Arguments VInt {GstCaps} n.
Arguments VCaps {GstCaps} c.

(** What the setter reports: a failed [g_return_if_fail], or
    [G_OBJECT_WARN_INVALID_PROPERTY_ID]. *)
Inductive report :=
| g_critical (assertion : string)
| warn_invalid_property_id (prop_id : Z).

Section Setter.

(** URIs and capabilities belong to the framework. *)
Variables GstUri GstCaps : Type.
Variable gst_uri_from_string : option string → option GstUri.
Variable gst_uri_get_scheme : option GstUri → option string.

(** The fields of [GstSRTBaseSrc] the setter writes. *)
Record GstSRTBaseSrc := mkBaseSrc {
  uri : option GstUri;
  caps : option GstCaps;
  latency : Z;
  passphrase : option string;
  key_length : Z
}.

Definition g_value_get_string (v : GValue GstCaps) : option string :=
  match v with VString s => s | _ => None end.

Definition g_value_get_int (v : GValue GstCaps) : Z :=
  match v with VInt n => n | _ => 0 end.

Definition gst_value_get_caps (v : GValue GstCaps) : option GstCaps :=
  match v with VCaps c => c | _ => None end.

(** [gst_srt_base_src_uri_set_uri]: the URI is replaced only when its
    scheme is "srt". *)
Definition gst_srt_base_src_uri_set_uri (self : GstSRTBaseSrc) (s : option string)
  : bool * GstSRTBaseSrc :=
  let parsed_uri := gst_uri_from_string s in
  if bool_decide (gst_uri_get_scheme parsed_uri = Some SRT_URI_SCHEME) then
    (true, mkBaseSrc parsed_uri (caps self) (latency self) (passphrase self)
                     (key_length self))
  else (false, self).

(** [gst_srt_base_src_set_property]. *)
Definition gst_srt_base_src_set_property (self : GstSRTBaseSrc) (prop_id : Z)
    (value : GValue GstCaps) : GstSRTBaseSrc * list report :=
  if bool_decide (prop_id = PROP_URI) then
    ((gst_srt_base_src_uri_set_uri self (g_value_get_string value)).2, [])
  else if bool_decide (prop_id = PROP_CAPS) then
    (mkBaseSrc (uri self) (gst_value_get_caps value) (latency self) (passphrase self)
               (key_length self), [])
  else if bool_decide (prop_id = PROP_PASSPHRASE) then
    (mkBaseSrc (uri self) (caps self) (latency self) (g_value_get_string value)
               (key_length self), [])
  else if bool_decide (prop_id = PROP_KEY_LENGTH) then
    let key_length := g_value_get_int value in
    if bool_decide (key_length = 16) || bool_decide (key_length = 24)
       || bool_decide (key_length = 32)
    then (mkBaseSrc (uri self) (caps self) (latency self) (passphrase self) key_length, [])
    else (self, [g_critical "key_length == 16 || key_length == 24 || key_length == 32"])
  else (self, [warn_invalid_property_id prop_id]).

(** Setting [key-length] to [n]. *)
Definition set_key_length (self : GstSRTBaseSrc) (n : Z) : GstSRTBaseSrc * list report :=
  gst_srt_base_src_set_property self PROP_KEY_LENGTH (VInt n).

End Setter.

Arguments mkBaseSrc {GstUri GstCaps} uri caps latency passphrase key_length.
Arguments uri {GstUri GstCaps} _.
Arguments caps {GstUri GstCaps} _.
Arguments latency {GstUri GstCaps} _.
Arguments passphrase {GstUri GstCaps} _.
Arguments key_length {GstUri GstCaps} _.
Arguments gst_srt_base_src_uri_set_uri {GstUri GstCaps} _ _ self s.
Arguments gst_srt_base_src_set_property {GstUri GstCaps} _ _ self prop_id value.
Arguments set_key_length {GstUri GstCaps} _ _ self n.

(** The key lengths the transport accepts. *)
Definition valid_key_length (n : Z) : Prop := n = 16 ∨ n = 24 ∨ n = 32.

End BaseSrc.

(** ** Control flow with a [failed:] label *)
Module Goto.

(** A computation over a state [S] that yields a value or jumps to the
    [failed:] label of its function. *)
Definition M (S A : Type) : Type := S → option A * S.

Definition ret {S A} (x : A) : M S A := λ s, (Some x, s).

Definition bind {S A B} (m : M S A) (k : A → M S B) : M S B :=
  λ s, match m s with
       | (Some x, s1) => k x s1
       | (None, s1) => (None, s1)
       end.

Definition goto_failed {S A} : M S A := λ s, (None, s).

Definition get {S} : M S S := λ s, (Some s, s).

Definition modify {S} (f : S → S) : M S unit := λ s, (Some tt, f s).

Definition when {S} (b : bool) (m : M S unit) : M S unit := if b then m else ret tt.

(** The function body, continued at the label when it jumps there. *)
Definition with_failed {S A} (body failed : M S A) : M S A :=
  λ s, match body s with
       | (Some x, s1) => (Some x, s1)
       | (None, s1) => failed s1
       end.

Module Notations.
Notation "'let*' x ':=' m 'in' k" := (bind m (λ x, k))
  (at level 10, x name, m at level 100, k at level 200, only parsing).
Notation "m ';;' k" := (bind m (λ _, k))
  (at level 100, k at level 200, right associativity, only parsing).
End Notations.

End Goto.

(** ** The server sink: [start] *)
Module ServerSinkStart.
Import Goto Goto.Notations.

Local Open Scope string_scope.
Local Open Scope list_scope.

(** The socket options [start] assigns. *)
Inductive SRT_SOCKOPT :=
| SRTO_SNDSYN | SRTO_UDP_SNDBUF | SRTO_TSBPDMODE | SRTO_LINGER | SRTO_MAXBW
| SRTO_SENDER | SRTO_PEERLATENCY.

(** The calls [start] makes, with what they returned. *)
Inductive call :=
| element_error (msg : string)
| srt_socket (family ret : Z)
| srt_setsockopt (s : Z) (o : SRT_SOCKOPT) (v : Z)
| srt_setsockflag (s : Z) (o : SRT_SOCKOPT) (v : Z)
| srt_epoll_create (ret : Z)
| srt_epoll_add_usock (eid s events : Z)
| srt_bind (s : Z) (a : Connect.GSocketAddress) (ret : Z)
| srt_listen (s backlog ret : Z)
| g_thread_try_new (created : bool)
| srt_epoll_release (eid : Z)
| srt_close (s : Z)
| g_thread_join.

(** What [gst_uri_get_host] and [gst_uri_get_port] read from the URI. *)
Record GstUri := mkUri { uri_host : option string; uri_port : Z }.

Definition GST_URI_NO_PORT : Z := 0.

(** What GLib and the transport answer during one [start]. *)
Record world := mkWorld {
  g_inet_socket_address_new_any : Z → Connect.GSocketAddress;
  g_inet_socket_address_new_from_string : string → Z → option Connect.GSocketAddress;
  g_socket_address_to_native : Connect.GSocketAddress → bool;
  socket_ret : Z;
  epoll_create_ret : Z;
  bind_ret : Z;
  listen_ret : Z;
  thread_created : bool
}.

(** The element's private data and the calls made so far. *)
Record frame := mkFrame {
  priv : ServerSink.GstSRTServerSinkPrivate;
  calls : list call
}.

Definition set_sock (s : Z) (st : ServerSink.GstSRTServerSinkPrivate) :=
  ServerSink.mkPriv (ServerSink.cancelled st) s (ServerSink.poll_id st)
    (ServerSink.thread st) (ServerSink.heap st) (ServerSink.next_client st)
    (ServerSink.clients st) (ServerSink.pending_clients st) (ServerSink.log st).

Definition set_poll_id (p : Z) (st : ServerSink.GstSRTServerSinkPrivate) :=
  ServerSink.mkPriv (ServerSink.cancelled st) (ServerSink.priv_sock st) p
    (ServerSink.thread st) (ServerSink.heap st) (ServerSink.next_client st)
    (ServerSink.clients st) (ServerSink.pending_clients st) (ServerSink.log st).

Definition do_call (c : call) : M frame unit :=
  modify (λ fr, mkFrame (priv fr) (calls fr ++ [c])).

Definition update (f : ServerSink.GstSRTServerSinkPrivate → ServerSink.GstSRTServerSinkPrivate)
  : M frame unit :=
  modify (λ fr, mkFrame (f (priv fr)) (calls fr)).

(** The address [start] listens on: any IPv4 address when the URI has no
    host, the parsed host otherwise.  The port of
    [g_inet_socket_address_new] is a [guint16]. *)
Definition listen_address (w : world) (uri : GstUri) : option Connect.GSocketAddress :=
  match uri_host uri with
  | None => Some (g_inet_socket_address_new_any w (uri_port uri mod 2 ^ 16))
  | Some host => g_inet_socket_address_new_from_string w host (uri_port uri)
  end.

(** From the address computation to [return ret]. *)
Definition start_body (w : world) (uri : GstUri) (lat : Z) : M frame bool :=
  match listen_address w uri with
  | None => goto_failed
  | Some sa =>
    if negb (g_socket_address_to_native w sa) then goto_failed
    else
      let s := socket_ret w in
      do_call (srt_socket (Connect.sa_family sa) s) ;;
      update (set_sock s) ;;
      if bool_decide (s = SRT_INVALID_SOCK) then goto_failed
      else
        do_call (srt_setsockopt s SRTO_SNDSYN 0) ;;
        do_call (srt_setsockopt s SRTO_UDP_SNDBUF ServerSink.SRT_SEND_BUFFER_SIZE) ;;
        do_call (srt_setsockopt s SRTO_TSBPDMODE 1) ;;
        do_call (srt_setsockopt s SRTO_LINGER 0) ;;
        do_call (srt_setsockflag s SRTO_MAXBW 0) ;;
        do_call (srt_setsockopt s SRTO_SENDER 1) ;;
        do_call (srt_setsockopt s SRTO_PEERLATENCY lat) ;;
        let e := epoll_create_ret w in
        do_call (srt_epoll_create e) ;;
        update (set_poll_id e) ;;
        if bool_decide (e = -1) then goto_failed
        else
          let events := Z.lor (Z.lor Connect.SRT_EPOLL_IN Connect.SRT_EPOLL_OUT)
                              Connect.SRT_EPOLL_ERR in
          do_call (srt_epoll_add_usock e s events) ;;
          do_call (srt_bind s sa (bind_ret w)) ;;
          if bool_decide (bind_ret w = SRT_ERROR) then goto_failed
          else
            do_call (srt_listen s 5 (listen_ret w)) ;;
            if bool_decide (listen_ret w = SRT_ERROR) then goto_failed
            else
              do_call (g_thread_try_new (thread_created w)) ;;
              update (ServerSink.set_thread (thread_created w)) ;;
              if negb (thread_created w) then goto_failed
              else ret true
  end.

(** The [failed:] label. *)
Definition failed : M frame bool :=
  update (ServerSink.set_cancelled true) ;;
  let* fr := get in
  when (bool_decide (ServerSink.poll_id (priv fr) ≠ SRT_ERROR))
       (do_call (srt_epoll_release (ServerSink.poll_id (priv fr))) ;;
        update (set_poll_id SRT_ERROR)) ;;
  when (bool_decide (ServerSink.priv_sock (priv fr) ≠ SRT_INVALID_SOCK))
       (do_call (srt_close (ServerSink.priv_sock (priv fr))) ;;
        update (set_sock SRT_INVALID_SOCK)) ;;
  when (ServerSink.thread (priv fr))
       (do_call g_thread_join ;; update (ServerSink.set_thread false)) ;;
  ret false.

(** [gst_srt_server_sink_start]: the return value, the element and the
    calls made.  [lat] is [base->latency]. *)
Definition gst_srt_server_sink_start (w : world) (uri : GstUri) (lat : Z)
    (st : ServerSink.GstSRTServerSinkPrivate)
  : bool * ServerSink.GstSRTServerSinkPrivate * list call :=
  if bool_decide (uri_port uri = GST_URI_NO_PORT) then
    (false, st, [element_error "Invalid port"])
  else
    match with_failed (start_body w uri lat) failed (mkFrame st []) with
    | (Some ret, fr) => (ret, priv fr, calls fr)
    | (None, fr) => (false, priv fr, calls fr)
    end.

(** *** Reading the calls *)

Definition created_pollers (l : list call) : list Z :=
  flat_map (λ c, match c with
                 | srt_epoll_create r => if bool_decide (r = -1) then [] else [r]
                 | _ => []
                 end) l.

Definition created_sockets (l : list call) : list Z :=
  flat_map (λ c, match c with
                 | srt_socket _ r => if bool_decide (r = SRT_INVALID_SOCK) then [] else [r]
                 | _ => []
                 end) l.

Definition released (l : list call) : list Z :=
  flat_map (λ c, match c with srt_epoll_release e => [e] | _ => [] end) l.

Definition closed (l : list call) : list Z :=
  flat_map (λ c, match c with srt_close s => [s] | _ => [] end) l.

Definition errors (l : list call) : list string :=
  flat_map (λ c, match c with element_error m => [m] | _ => [] end) l.

Definition joins (l : list call) : nat :=
  length (flat_map (λ c, match c with g_thread_join => [c] | _ => [] end) l).

(** The checks of [start], in the order it makes them. *)
Inductive failure_point :=
| InvalidPort | NoAddress | AddressResolution | SocketCreate | MultiplexerInit
| BindFailure | ListenFailure | ThreadCreate.

Definition first_failure (w : world) (uri : GstUri) : option failure_point :=
  if bool_decide (uri_port uri = GST_URI_NO_PORT) then Some InvalidPort
  else match listen_address w uri with
       | None => Some NoAddress
       | Some sa =>
         if negb (g_socket_address_to_native w sa) then Some AddressResolution
         else if bool_decide (socket_ret w = SRT_INVALID_SOCK) then Some SocketCreate
         else if bool_decide (epoll_create_ret w = -1) then Some MultiplexerInit
         else if bool_decide (bind_ret w = SRT_ERROR) then Some BindFailure
         else if bool_decide (listen_ret w = SRT_ERROR) then Some ListenFailure
         else if negb (thread_created w) then Some ThreadCreate
         else None
       end.

(** What [priv->poll_id] and [priv->sock] hold when [start] reaches a
    failure point: the values on entry until [start] has assigned them. *)
Definition poll_id_at (w : world) (st : ServerSink.GstSRTServerSinkPrivate)
    (fp : failure_point) : Z :=
  match fp with
  | InvalidPort | NoAddress | AddressResolution | SocketCreate => ServerSink.poll_id st
  | _ => epoll_create_ret w
  end.

Definition sock_at (w : world) (st : ServerSink.GstSRTServerSinkPrivate)
    (fp : failure_point) : Z :=
  match fp with
  | InvalidPort | NoAddress | AddressResolution => ServerSink.priv_sock st
  | _ => socket_ret w
  end.

Definition thread_at (st : ServerSink.GstSRTServerSinkPrivate) (fp : failure_point) : bool :=
  match fp with
  | ThreadCreate => false
  | _ => ServerSink.thread st
  end.

(** The multiplexers and sockets [start] has created when it reaches a
    failure point. *)
Definition created_before (w : world) (fp : failure_point) : list Z * list Z :=
  match fp with
  | InvalidPort | NoAddress | AddressResolution | SocketCreate => ([], [])
  | MultiplexerInit => ([], [socket_ret w])
  | _ => ([epoll_create_ret w], [socket_ret w])
  end.

(** The element after a [start] that went through the [failed:] label. *)
Definition rolled_back (st : ServerSink.GstSRTServerSinkPrivate) :=
  ServerSink.mkPriv true SRT_INVALID_SOCK SRT_ERROR false
    (ServerSink.heap st) (ServerSink.next_client st) (ServerSink.clients st)
    (ServerSink.pending_clients st) (ServerSink.log st).

(** The calls of a [start] that succeeds. *)
Definition success_calls (w : world) (sa : Connect.GSocketAddress) (lat : Z) : list call :=
  let s := socket_ret w in
  let e := epoll_create_ret w in
  [srt_socket (Connect.sa_family sa) s;
   srt_setsockopt s SRTO_SNDSYN 0;
   srt_setsockopt s SRTO_UDP_SNDBUF ServerSink.SRT_SEND_BUFFER_SIZE;
   srt_setsockopt s SRTO_TSBPDMODE 1;
   srt_setsockopt s SRTO_LINGER 0;
   srt_setsockflag s SRTO_MAXBW 0;
   srt_setsockopt s SRTO_SENDER 1;
   srt_setsockopt s SRTO_PEERLATENCY lat;
   srt_epoll_create e;
   srt_epoll_add_usock e s
     (Z.lor (Z.lor Connect.SRT_EPOLL_IN Connect.SRT_EPOLL_OUT) Connect.SRT_EPOLL_ERR);
   srt_bind s sa (bind_ret w);
   srt_listen s 5 (listen_ret w);
   g_thread_try_new true].

(** A listener that accepts every address and a transport that answers
    every call with success: socket 3, multiplexer 1. *)
Definition obliging : world :=
  mkWorld (λ p, Connect.mkAddr 2 "0.0.0.0" p) (λ h p, Some (Connect.mkAddr 2 h p))
          (λ _, true) 3 1 0 0 true.

(** The same, with a host name that does not parse. *)
Definition unparsable : world :=
  mkWorld (λ p, Connect.mkAddr 2 "0.0.0.0" p) (λ h p, None) (λ _, true) 3 1 0 0 true.

(** The element as the instance initialiser leaves it, with zeroed handle
    fields. *)
Definition zeroed : ServerSink.GstSRTServerSinkPrivate :=
  ServerSink.mkPriv false 0 0 false ∅ 0%nat [] [] [].

End ServerSinkStart.

(** ** The server sink: over a session *)
Module ServerSinkSession.
Import ServerSink.

(** A live client is kept by a delivery cycle: the backpressure threshold
    does not evict it and its send succeeds. *)
Definition stays_live (w : transport) (st : GstSRTServerSinkPrivate) (q : client_ptr) : bool :=
  match heap st !! q with
  | Some c => negb (backpressure_evicts w c) && sendmsg_ok w (sock c)
  | None => false
  end.

(** A pending client is promoted by a delivery cycle: its header send and
    its send of the buffer both succeed. *)
Definition becomes_live (w : transport) (st : GstSRTServerSinkPrivate) (q : client_ptr) : bool :=
  match heap st !! q with
  | Some c => headers_ok w (sock c) && sendmsg_ok w (sock c)
  | None => false
  end.

(** In how many of the delivery cycles [ws] the backpressure check fails on
    socket [s]. *)
Definition failed_checks (ws : list transport) (s : Z) : Z :=
  Z.of_nat (length (filter (λ w, can_client_recv w s = false) ws)).

(** A turn of the accept thread that gets as far as [srt_accept]. *)
Definition reaches_accept (flag_head flag_timeout : bool) (e : accept_env) : bool :=
  negb flag_head &&
  match wait_errno e with
  | None => true
  | Some srt_errno => bool_decide (srt_errno = SRT_ETIMEOUT) && negb flag_timeout
  end.

(** The sockets the accept thread queues over the turns it is offered:
    those of the turns that reach [srt_accept] and get a valid socket, up to
    the turn that leaves the loop. *)
Fixpoint accepted (turns : list (bool * bool * accept_env)) : list Z :=
  match turns with
  | [] => []
  | (flag_head, flag_timeout, e) :: rest =>
      if flag_head then []
      else (if reaches_accept flag_head flag_timeout e
               && bool_decide (accept_ret e ≠ SRT_INVALID_SOCK)
            then [accept_ret e] else [])
           ++ accepted rest
  end.

(** Two clients, on sockets 5 and 6, wait in the pending queue. *)
Definition st_pending56 : GstSRTServerSinkPrivate :=
  mkPriv false 3 1 true
         (<[0%nat := mkClient 5 (Some 42) 0]> (<[1%nat := mkClient 6 (Some 42) 0]> ∅))
         2%nat [] [0%nat; 1%nat]
         [srt_accept 5; client_added 0%nat 5 (Some 42);
          srt_accept 6; client_added 1%nat 6 (Some 42)].

End ServerSinkSession.

(** ** The connect helper: call traces *)
Module ConnectTrace.
Import Connect.

Local Open Scope string_scope.
Local Open Scope list_scope.

(** The element errors among the calls. *)
Definition errors (l : list call) : list string :=
  flat_map (λ c, match c with element_error m => [m] | _ => [] end) l.

(** The address the bind block binds to: the bind address, or any address
    when none is given, with the remote port in rendezvous mode and the bind
    port otherwise. *)
Definition bind_target (w : world) (a : args) : option GSocketAddress :=
  g_inet_socket_address_new_from_string w
    (default "0.0.0.0" (bind_address a))
    (if rendezvous a then port a else bind_port a).

(** The calls of a connection that succeeds, for the remote address [sa]. *)
Definition success_calls (w : world) (a : args) (sa : GSocketAddress) : list call :=
  [srt_epoll_create (epoll_create_ret w); srt_socket (sa_family sa) (socket_ret w)]
  ++ map (λ ov, srt_setsockopt (socket_ret w) ov.1 ov.2) (socket_option_profile a)
  ++ (if wants_bind a then
        match bind_target w a with
        | Some bsa => [srt_bind (socket_ret w) bsa (bind_ret w)]
        | None => []
        end
      else [])
  ++ [srt_connect (socket_ret w) sa (connect_ret w);
      srt_getsockstate (socket_ret w) SRTS_CONNECTED;
      srt_epoll_add_usock (epoll_create_ret w) (socket_ret w)
        (if is_sender a
         then Z.lor (Z.lor SRT_EPOLL_IN SRT_EPOLL_OUT) SRT_EPOLL_ERR
         else Z.lor SRT_EPOLL_IN SRT_EPOLL_ERR)].

(** The element error posted at each failure point, as the helper records
    it: by its text, or by the head of its debug string where the text is
    [NULL]. *)
Definition error_message (fp : failure_point) : list string :=
  match fp with
  | NullHost | HostParse => ["Invalid host"]
  | MultiplexerInit => ["failed to create poll id for SRT socket"]
  | AddressResolution => ["Invalid address"]
  | SocketCreate => ["failed to create SRT socket"]
  | BindParse | BindResolution => ["Invalid bind address"]
  | BindFailure => ["Can't bind to address"]
  | ConnectFailure => ["Connection error"]
  | NotConnected => []
  end.

(** The arguments with the passphrase and the key length replaced. *)
Definition with_passphrase (a : args) (pw : option string) (kl : Z) : args :=
  mkArgs (is_sender a) (host a) (port a) (rendezvous a) (bind_address a)
         (bind_port a) (latency a) pw kl.

(** A rendezvous peer: every call succeeds, socket 7, multiplexer 1. *)
Definition peer_world : world :=
  mkWorld (λ h p, Some (mkAddr 2 h p)) (λ _, true) 1 7 0 0 SRTS_CONNECTED 0.

End ConnectTrace.

(** ** Statistics structures of the base classes *)
Module Stats.

Local Open Scope string_scope.
Local Open Scope list_scope.

Section WithDouble.

(** The type of a C [double]; the elements only pass such values on. *)
Context {gdouble : Type}.

(** The fields of [SRT_TRACEBSTATS] that concern the elements. *)
Record SRT_TRACEBSTATS := mkStats {
  pktSent : Z;
  pktRecv : Z;
  pktSndLoss : Z;
  pktRcvLoss : Z;
  pktRetrans : Z;
  pktRecvACK : Z;
  pktRecvNAK : Z;
  usSndDuration : Z;
  pktSndDrop : Z;
  pktRcvDrop : Z;
  byteSent : Z;
  byteRecv : Z;
  byteRetrans : Z;
  byteSndDrop : Z;
  byteRcvLoss : Z;
  mbpsSendRate : gdouble;
  mbpsRecvRate : gdouble;
  mbpsBandwidth : gdouble;
  msRTT : gdouble
}.

(** A field value with its [GType]. *)
Inductive GValue :=
| G_TYPE_INT (v : Z)
| G_TYPE_INT64 (v : Z)
| G_TYPE_UINT64 (v : Z)
| G_TYPE_DOUBLE (v : gdouble)
| G_TYPE_SOCKET_ADDRESS (a : ServerSink.GSocketAddress)
| G_TYPE_STRING (s : string).

(** A [GstStructure]: its name and its fields in order. *)
Record GstStructure := mkStructure {
  structure_name : string;
  fields : list (string * GValue)
}.

(** Setting a field replaces the value of a field of that name where it
    stands, and appends the field otherwise. *)
Fixpoint gst_structure_set_field (fs : list (string * GValue)) (k : string) (v : GValue)
  : list (string * GValue) :=
  match fs with
  | [] => [(k, v)]
  | (k', v') :: rest =>
      if bool_decide (k' = k) then (k, v) :: rest
      else (k', v') :: gst_structure_set_field rest k v
  end.

Definition gst_structure_new_empty (n : string) : GstStructure := mkStructure n [].

(** [gst_structure_set] and [gst_structure_new] with their (name, type,
    value) triples, and [gst_structure_take_value]. *)
Definition gst_structure_set (s : GstStructure) (kvs : list (string * GValue))
  : GstStructure :=
  mkStructure (structure_name s)
    (foldl (λ fs kv, gst_structure_set_field fs kv.1 kv.2) (fields s) kvs).

Definition gst_structure_new (n : string) (kvs : list (string * GValue)) : GstStructure :=
  gst_structure_set (gst_structure_new_empty n) kvs.

Definition gst_structure_take_value (s : GstStructure) (k : string) (v : GValue)
  : GstStructure :=
  gst_structure_set s [(k, v)].

(** The value of the first field of a name. *)
Definition gst_structure_get (s : GstStructure) (k : string) : option GValue :=
  (λ r, r.2.2) <$> list_find (λ kv, kv.1 = k) (fields s).

(** What [srt_bstats] answers for a socket: the statistics, or [None] when
    it returns a negative value. *)
Context (srt_bstats : Z → option SRT_TRACEBSTATS).

(** [gst_srt_base_src_get_stats]. *)
Definition gst_srt_base_src_get_stats (sock : Z) : GstStructure :=
  let s := gst_structure_new_empty "application/x-srt-statistics" in
  if bool_decide (sock = SRT_INVALID_SOCK) then s
  else
    match srt_bstats sock with
    | Some stats =>
        gst_structure_set s
          [("packets-recv", G_TYPE_INT64 (pktRecv stats));
           ("packets-recv-lost", G_TYPE_INT (pktRcvLoss stats));
           ("packets-retransmitted", G_TYPE_INT (pktRetrans stats));
           ("packet-ack-received", G_TYPE_INT (pktRecvACK stats));
           ("packet-nack-received", G_TYPE_INT (pktRecvNAK stats));
           ("bytes-received", G_TYPE_UINT64 (byteRecv stats));
           ("bytes-retransmitted", G_TYPE_UINT64 (byteRetrans stats));
           ("bytes-recv-dropped", G_TYPE_UINT64 (byteRcvLoss stats));
           ("packets-recv-dropped", G_TYPE_INT (pktRcvDrop stats));
           ("recv-rate-mbps", G_TYPE_DOUBLE (mbpsRecvRate stats));
           ("bandwidth-mbps", G_TYPE_DOUBLE (mbpsBandwidth stats));
           ("rtt-ms", G_TYPE_DOUBLE (msRTT stats))]
    | None => s
    end.

(** What [g_socket_connectable_to_string] prints for an address. *)
Context (g_socket_connectable_to_string : ServerSink.GSocketAddress → string).

(** [gst_srt_base_sink_get_stats].  A [gint64] passed where a [guint64] is
    read is taken modulo 2^64. *)
Definition gst_srt_base_sink_get_stats (sockaddr : option ServerSink.GSocketAddress)
    (sock : Z) : GstStructure :=
  match sockaddr with
  | Some a =>
      if bool_decide (sock = SRT_INVALID_SOCK) then
        gst_structure_new_empty "application/x-srt-statistics"
      else
        let s := gst_structure_new "application/x-srt-statistics"
                   [("sockaddr", G_TYPE_SOCKET_ADDRESS a)] in
        let s1 :=
          match srt_bstats sock with
          | Some stats =>
              gst_structure_set s
                [("packets-sent", G_TYPE_INT64 (pktSent stats));
                 ("packets-sent-lost", G_TYPE_INT (pktSndLoss stats));
                 ("packets-retransmitted", G_TYPE_INT (pktRetrans stats));
                 ("packet-ack-received", G_TYPE_INT (pktRecvACK stats));
                 ("packet-nack-received", G_TYPE_INT (pktRecvNAK stats));
                 ("send-duration-us", G_TYPE_INT64 (usSndDuration stats));
                 ("bytes-sent", G_TYPE_UINT64 (byteSent stats));
                 ("bytes-retransmitted", G_TYPE_UINT64 (byteRetrans stats));
                 ("bytes-sent-dropped", G_TYPE_UINT64 (byteSndDrop stats));
                 ("packets-sent-dropped", G_TYPE_INT (pktSndDrop stats));
                 ("send-rate-mbps", G_TYPE_DOUBLE (msRTT stats));
                 ("bandwidth-mbps", G_TYPE_DOUBLE (mbpsBandwidth stats));
                 ("send-duration-us", G_TYPE_UINT64 (usSndDuration stats mod 2 ^ 64));
                 ("rtt-ms", G_TYPE_DOUBLE (msRTT stats))]
          | None => s
          end in
        gst_structure_take_value s1 "sockaddr-str"
          (G_TYPE_STRING (g_socket_connectable_to_string a))
  | None => gst_structure_new_empty "application/x-srt-statistics"
  end.

End WithDouble.

Arguments SRT_TRACEBSTATS : clear implicits.
Arguments GValue : clear implicits.
Arguments GstStructure : clear implicits.

End Stats.

(** ** The client receiver: life cycle and properties *)
Module ClientSrcLifecycle.
Import ClientSrc.

Local Open Scope string_scope.
Local Open Scope list_scope.

(** [#define SRT_DEFAULT_POLL_TIMEOUT - 1]. *)
Definition SRT_DEFAULT_POLL_TIMEOUT : Z := -1.

(** The calls the element makes over its life: calls of the kinds the
    connect helper makes, by the helper itself or by [unlock] and
    [finalize], and the removal of a socket from a multiplexer. *)
Inductive call :=
| srt_call (c : Connect.call)
| srt_epoll_remove_usock (eid s : Z).

Definition set_handles (s eid : Z) (st : GstSRTClientSrcPrivate) :=
  mkPriv s eid (poll_timeout st) (last_msg_num st) (rendezvous st)
         (bind_address st) (bind_port st).

(** [gst_srt_client_src_init], applied to the instance memory. *)
Definition gst_srt_client_src_init (raw : GstSRTClientSrcPrivate) : GstSRTClientSrcPrivate :=
  mkPriv SRT_INVALID_SOCK SRT_ERROR SRT_DEFAULT_POLL_TIMEOUT (last_msg_num raw)
         false None 0.

(** [gst_uri_get_host] and [gst_uri_get_port] of the base class's URI; a
    [NULL] URI has no host and no port. *)
Definition gst_uri_get_host (uri : option ServerSinkStart.GstUri) : option string :=
  uri ≫= ServerSinkStart.uri_host.

Definition gst_uri_get_port (uri : option ServerSinkStart.GstUri) : Z :=
  from_option ServerSinkStart.uri_port ServerSinkStart.GST_URI_NO_PORT uri.

(** The arguments [start] passes to the connect helper; the port parameter
    is a [guint16]. *)
Definition connect_args {GstCaps} (base : BaseSrc.GstSRTBaseSrc ServerSinkStart.GstUri GstCaps)
    (st : GstSRTClientSrcPrivate) : Connect.args :=
  Connect.mkArgs false
    (gst_uri_get_host (BaseSrc.uri base))
    (gst_uri_get_port (BaseSrc.uri base) mod 2 ^ 16)
    (rendezvous st) (bind_address st) (bind_port st)
    (BaseSrc.latency base) (BaseSrc.passphrase base) (BaseSrc.key_length base).

(** [gst_srt_client_src_start]. *)
Definition gst_srt_client_src_start {GstCaps} (w : Connect.world)
    (base : BaseSrc.GstSRTBaseSrc ServerSinkStart.GstUri GstCaps)
    (st : GstSRTClientSrcPrivate) : bool * GstSRTClientSrcPrivate * list call :=
  let r := Connect.gst_srt_client_connect_full w (connect_args base st) (poll_id st) None in
  let st1 := mkPriv r.1 (Connect.poll_id r.2) (poll_timeout st) 0 (rendezvous st)
                    (bind_address st) (bind_port st) in
  (bool_decide (sock st1 ≠ SRT_INVALID_SOCK), st1, srt_call <$> Connect.calls r.2).

(** [gst_srt_client_src_stop]: the connection is closed in [unlock]. *)
Definition gst_srt_client_src_stop (st : GstSRTClientSrcPrivate)
  : bool * GstSRTClientSrcPrivate * list call :=
  (true, st, []).

(** [gst_srt_client_src_unlock]. *)
Definition gst_srt_client_src_unlock (st : GstSRTClientSrcPrivate)
  : bool * GstSRTClientSrcPrivate * list call :=
  let l1 :=
    if bool_decide (poll_id st ≠ SRT_ERROR) then
      (if bool_decide (sock st ≠ SRT_INVALID_SOCK)
       then [srt_epoll_remove_usock (poll_id st) (sock st)] else [])
      ++ [srt_call (Connect.srt_epoll_release (poll_id st))]
    else [] in
  let l2 := if bool_decide (sock st ≠ SRT_INVALID_SOCK)
            then [srt_call (Connect.srt_close (sock st))] else [] in
  (true, set_handles SRT_INVALID_SOCK SRT_ERROR st, l1 ++ l2).

(** [gst_srt_client_src_finalize]. *)
Definition gst_srt_client_src_finalize (st : GstSRTClientSrcPrivate)
  : GstSRTClientSrcPrivate * list call :=
  let l1 := if bool_decide (poll_id st ≠ SRT_ERROR)
            then [srt_call (Connect.srt_epoll_release (poll_id st))] else [] in
  let l2 := if bool_decide (sock st ≠ SRT_INVALID_SOCK)
            then [srt_call (Connect.srt_close (sock st))] else [] in
  (set_handles SRT_INVALID_SOCK SRT_ERROR st, l1 ++ l2).

(** *** Reading the calls *)

Definition srt_calls (l : list call) : list Connect.call :=
  flat_map (λ c, match c with srt_call c' => [c'] | _ => [] end) l.

Definition created_pollers (l : list call) : list Z := Connect.created_pollers (srt_calls l).
Definition created_sockets (l : list call) : list Z := Connect.created_sockets (srt_calls l).
Definition released (l : list call) : list Z := Connect.released (srt_calls l).
Definition closed (l : list call) : list Z := Connect.closed (srt_calls l).

(** The (multiplexer, socket) pairs registered, and those taken out again. *)
Definition registered (l : list call) : list (Z * Z) :=
  (Connect.registered (srt_calls l)).*1.

Definition unregistered (l : list call) : list (Z * Z) :=
  flat_map (λ c, match c with srt_epoll_remove_usock e s => [(e, s)] | _ => [] end) l.

(** Rounds of [start] followed by [unlock], one for each answer of the
    environment: the element on return and all the calls made. *)
Fixpoint rounds {GstCaps} (ws : list Connect.world)
    (base : BaseSrc.GstSRTBaseSrc ServerSinkStart.GstUri GstCaps)
    (st : GstSRTClientSrcPrivate) : GstSRTClientSrcPrivate * list call :=
  match ws with
  | [] => (st, [])
  | w :: rest =>
      let '(_, st1, l1) := gst_srt_client_src_start w base st in
      let '(_, st2, l2) := gst_srt_client_src_unlock st1 in
      let '(st3, l3) := rounds rest base st2 in
      (st3, l1 ++ l2 ++ l3)
  end.

(** *** Properties *)

Definition PROP_POLL_TIMEOUT : Z := 1.
Definition PROP_BIND_ADDRESS : Z := 2.
Definition PROP_BIND_PORT : Z := 3.
Definition PROP_RENDEZ_VOUS : Z := 4.
Definition PROP_STATS : Z := 5.

Section Properties.

Context {gdouble : Type}.

(** A [GValue] of the types the properties have. *)
Inductive GValue :=
| VInt (n : Z)
| VString (s : option string)
| VBoolean (b : bool)
| VBoxed (s : Stats.GstStructure gdouble).

Definition g_value_get_int (v : GValue) : Z := match v with VInt n => n | _ => 0 end.
Definition g_value_dup_string (v : GValue) : option string :=
  match v with VString s => s | _ => None end.
Definition g_value_get_boolean (v : GValue) : bool :=
  match v with VBoolean b => b | _ => false end.

(** [G_OBJECT_WARN_INVALID_PROPERTY_ID]. *)
Inductive report := warn_invalid_property_id (prop_id : Z).

(** [gst_srt_client_src_set_property]; [bind_port] is a [guint16]. *)
Definition gst_srt_client_src_set_property (st : GstSRTClientSrcPrivate) (prop_id : Z)
    (value : GValue) : GstSRTClientSrcPrivate * list report :=
  if bool_decide (prop_id = PROP_POLL_TIMEOUT) then
    (mkPriv (sock st) (poll_id st) (g_value_get_int value) (last_msg_num st)
            (rendezvous st) (bind_address st) (bind_port st), [])
  else if bool_decide (prop_id = PROP_BIND_ADDRESS) then
    (mkPriv (sock st) (poll_id st) (poll_timeout st) (last_msg_num st)
            (rendezvous st) (g_value_dup_string value) (bind_port st), [])
  else if bool_decide (prop_id = PROP_BIND_PORT) then
    (mkPriv (sock st) (poll_id st) (poll_timeout st) (last_msg_num st)
            (rendezvous st) (bind_address st) (g_value_get_int value mod 2 ^ 16), [])
  else if bool_decide (prop_id = PROP_RENDEZ_VOUS) then
    (mkPriv (sock st) (poll_id st) (poll_timeout st) (last_msg_num st)
            (g_value_get_boolean value) (bind_address st) (bind_port st), [])
  else (st, [warn_invalid_property_id prop_id]).

(** The minor version of GStreamer the element is built for, and what
    [srt_bstats] answers. *)
Context (GST_VERSION_MINOR : Z) (srt_bstats : Z → option (Stats.SRT_TRACEBSTATS gdouble)).

(** [gst_srt_client_src_get_property]: the value stored, if any.
    [g_value_set_boolean] stores whether its argument is not zero. *)
Definition gst_srt_client_src_get_property (st : GstSRTClientSrcPrivate) (prop_id : Z)
  : option GValue * list report :=
  if bool_decide (prop_id = PROP_POLL_TIMEOUT) then
    (Some (VInt (poll_timeout st)), [])
  else if bool_decide (prop_id = PROP_BIND_PORT) then
    (Some (VInt (if rendezvous st then 1 else 0)), [])
  else if bool_decide (prop_id = PROP_BIND_ADDRESS) then
    (Some (VString (bind_address st)), [])
  else if bool_decide (prop_id = PROP_RENDEZ_VOUS) then
    (Some (VBoolean (bool_decide (bind_port st ≠ 0))), [])
  else if bool_decide (GST_VERSION_MINOR >= 14) && bool_decide (prop_id = PROP_STATS) then
    (Some (VBoxed (Stats.gst_srt_base_src_get_stats srt_bstats (sock st))), [])
  else (None, [warn_invalid_property_id prop_id]).

End Properties.

Arguments GValue : clear implicits.

(** *** Streams of messages *)

(** The numbers [ms] increase strictly from [m]. *)
Fixpoint increasing (m : Z) (ms : list Z) : Prop :=
  match ms with
  | [] => True
  | x :: rest => m < x ∧ increasing x rest
  end.

(** The sum of the counts the gap diagnostics of successive fills report. *)
Definition total_dropped (out : list (GstFlowReturn * list Z)) : Z :=
  foldr Z.add 0 (concat out.*2).

(** A [fill] that receives two bytes of message [m]. *)
Definition message (m : Z) : fill_env :=
  mkFillEnv true 2 [71; 64] (mkCtrl m 0) 10 4.

(** A receiver configuration and environments for concrete rounds. *)
Definition base_7001 : BaseSrc.GstSRTBaseSrc ServerSinkStart.GstUri unit :=
  BaseSrc.mkBaseSrc (Some (ServerSinkStart.mkUri (Some "10.0.0.1") 7001)) None 125 None 16.

Definition refusing : Connect.world :=
  Connect.mkWorld (λ h p, Some (Connect.mkAddr 2 h p)) (λ _, true) 2 8 0 (-1)
                  Connect.SRTS_CONNECTED 0.

Definition zeroed : GstSRTClientSrcPrivate := mkPriv 0 0 0 0 false None 0.

End ClientSrcLifecycle.

(** ** The client sink ([gstsrtclientsink.c]) *)
Module ClientSink.
Import Goto Goto.Notations.

Local Open Scope string_scope.
Local Open Scope list_scope.

(** [struct _GstSRTClientSinkPrivate]. *)
Record GstSRTClientSinkPrivate := mkPriv {
  sock : Z;
  poll_id : Z;
  poll_timeout : Z
}.

(** The calls the element makes, with what they returned.  An element error
    is recorded by the format string of its text. *)
Inductive call :=
| element_error (msg : string)
| srt_socket (family ret : Z)
| srt_setsockopt (s : Z) (o : Connect.SRT_SOCKOPT) (v : Z)
| srt_epoll_create (ret : Z)
| srt_epoll_add_usock (eid s events : Z)
| srt_connect (s : Z) (a : Connect.GSocketAddress) (ret : Z)
| srt_sendmsg2 (s ret : Z)
| srt_epoll_remove_usock (eid s : Z)
| srt_epoll_release (eid : Z)
| srt_close (s : Z).

(** What GLib and the transport answer during one [start]. *)
Record world := mkWorld {
  g_inet_socket_address_new_from_string : option string → Z → option Connect.GSocketAddress;
  g_socket_address_to_native : Connect.GSocketAddress → bool;
  socket_ret : Z;
  epoll_create_ret : Z;
  connect_ret : Z
}.

(** The element's private data and the calls made so far. *)
Record frame := mkFrame {
  priv : GstSRTClientSinkPrivate;
  calls : list call
}.

Definition set_sock (s : Z) (st : GstSRTClientSinkPrivate) :=
  mkPriv s (poll_id st) (poll_timeout st).

Definition set_poll_id (p : Z) (st : GstSRTClientSinkPrivate) :=
  mkPriv (sock st) p (poll_timeout st).

Definition do_call (c : call) : M frame unit :=
  modify (λ fr, mkFrame (priv fr) (calls fr ++ [c])).

Definition update (f : GstSRTClientSinkPrivate → GstSRTClientSinkPrivate) : M frame unit :=
  modify (λ fr, mkFrame (f (priv fr)) (calls fr)).

(** [gst_srt_client_sink_init], applied to the instance memory. *)
Definition gst_srt_client_sink_init (raw : GstSRTClientSinkPrivate) :=
  mkPriv (sock raw) (poll_id raw) (-1).

(** The body of [gst_srt_client_sink_start] down to [return TRUE]. *)
Definition start_body (w : world) (uri : option ServerSinkStart.GstUri) : M frame bool :=
  match g_inet_socket_address_new_from_string w
          (ClientSrcLifecycle.gst_uri_get_host uri)
          (ClientSrcLifecycle.gst_uri_get_port uri) with
  | None =>
      do_call (element_error "failed to extract host or port from the given URI") ;;
      goto_failed
  | Some sa =>
    if negb (g_socket_address_to_native w sa) then
      do_call (element_error "cannot resolve address (reason: %s)") ;; goto_failed
    else
      let s := socket_ret w in
      do_call (srt_socket (Connect.sa_family sa) s) ;;
      update (set_sock s) ;;
      if bool_decide (s = SRT_INVALID_SOCK) then
        do_call (element_error "failed to create SRT socket (reason: %s)") ;; goto_failed
      else
        do_call (srt_setsockopt s Connect.SRTO_SNDSYN 0) ;;
        let e := epoll_create_ret w in
        do_call (srt_epoll_create e) ;;
        update (set_poll_id e) ;;
        if bool_decide (e = -1) then
          do_call (element_error "failed to create poll id for SRT socket (reason: %s)") ;;
          goto_failed
        else
          do_call (srt_epoll_add_usock e s Connect.SRT_EPOLL_OUT) ;;
          do_call (srt_connect s sa (connect_ret w)) ;;
          if bool_decide (connect_ret w = SRT_ERROR) then
            do_call (element_error "failed to connect to host (reason: %s)") ;; goto_failed
          else ret true
  end.

(** The [failed:] label. *)
Definition failed : M frame bool :=
  let* fr := get in
  when (bool_decide (poll_id (priv fr) ≠ SRT_ERROR))
       (do_call (srt_epoll_release (poll_id (priv fr))) ;; update (set_poll_id SRT_ERROR)) ;;
  when (bool_decide (sock (priv fr) ≠ SRT_INVALID_SOCK))
       (do_call (srt_close (sock (priv fr))) ;; update (set_sock SRT_INVALID_SOCK)) ;;
  ret false.

Definition result (r : option bool * frame) : bool * GstSRTClientSinkPrivate * list call :=
  (default false r.1, priv r.2, calls r.2).

(** [gst_srt_client_sink_start]. *)
Definition gst_srt_client_sink_start (w : world) (uri : option ServerSinkStart.GstUri)
    (st : GstSRTClientSinkPrivate) : bool * GstSRTClientSinkPrivate * list call :=
  result (with_failed (start_body w uri) failed (mkFrame st [])).

(** [gst_srt_client_sink_stop]. *)
Definition gst_srt_client_sink_stop (st : GstSRTClientSinkPrivate)
  : bool * GstSRTClientSinkPrivate * list call :=
  result
    ((let* fr := get in
      when (bool_decide (poll_id (priv fr) ≠ SRT_ERROR))
           (do_call (srt_epoll_remove_usock (poll_id (priv fr)) (sock (priv fr))) ;;
            do_call (srt_epoll_release (poll_id (priv fr))) ;;
            update (set_poll_id SRT_ERROR)) ;;
      when (bool_decide (sock (priv fr) ≠ SRT_INVALID_SOCK))
           (do_call (srt_close (sock (priv fr))) ;; update (set_sock SRT_INVALID_SOCK)) ;;
      ret true) (mkFrame st [])).

(** What the transport answers to one [srt_sendmsg2]. *)
Record send_env := mkSendEnv { sendmsg2_ret : Z; srt_getlasterror_str : string }.

(** [gst_srt_client_sink_send_buffer]. *)
Definition gst_srt_client_sink_send_buffer (e : send_env) (st : GstSRTClientSinkPrivate)
  : bool * GstSRTClientSinkPrivate * list call :=
  result
    ((do_call (srt_sendmsg2 (sock st) (sendmsg2_ret e)) ;;
      if bool_decide (sendmsg2_ret e = SRT_ERROR) then
        do_call (element_error (srt_getlasterror_str e)) ;; ret false
      else ret true) (mkFrame st [])).

(** *** Reading the calls *)

Definition created_pollers (l : list call) : list Z :=
  flat_map (λ c, match c with
                 | srt_epoll_create r => if bool_decide (r = -1) then [] else [r]
                 | _ => []
                 end) l.

Definition created_sockets (l : list call) : list Z :=
  flat_map (λ c, match c with
                 | srt_socket _ r => if bool_decide (r = SRT_INVALID_SOCK) then [] else [r]
                 | _ => []
                 end) l.

Definition released (l : list call) : list Z :=
  flat_map (λ c, match c with srt_epoll_release e => [e] | _ => [] end) l.

Definition closed (l : list call) : list Z :=
  flat_map (λ c, match c with srt_close s => [s] | _ => [] end) l.

Definition errors (l : list call) : list string :=
  flat_map (λ c, match c with element_error m => [m] | _ => [] end) l.

(** The checks of [start], in the order it makes them. *)
Inductive failure_point :=
| NoAddress | AddressResolution | SocketCreate | MultiplexerInit | ConnectFailure.

Definition first_failure (w : world) (uri : option ServerSinkStart.GstUri)
  : option failure_point :=
  match g_inet_socket_address_new_from_string w
          (ClientSrcLifecycle.gst_uri_get_host uri)
          (ClientSrcLifecycle.gst_uri_get_port uri) with
  | None => Some NoAddress
  | Some sa =>
    if negb (g_socket_address_to_native w sa) then Some AddressResolution
    else if bool_decide (socket_ret w = SRT_INVALID_SOCK) then Some SocketCreate
    else if bool_decide (epoll_create_ret w = -1) then Some MultiplexerInit
    else if bool_decide (connect_ret w = SRT_ERROR) then Some ConnectFailure
    else None
  end.

(** What [priv->poll_id] and [priv->sock] hold when [start] reaches a
    failure point: the values on entry until [start] has assigned them. *)
Definition poll_id_at (w : world) (st : GstSRTClientSinkPrivate) (fp : failure_point) : Z :=
  match fp with
  | NoAddress | AddressResolution | SocketCreate => poll_id st
  | _ => epoll_create_ret w
  end.

Definition sock_at (w : world) (st : GstSRTClientSinkPrivate) (fp : failure_point) : Z :=
  match fp with
  | NoAddress | AddressResolution => sock st
  | _ => socket_ret w
  end.

(** The multiplexers and sockets [start] has created when it reaches a
    failure point. *)
Definition created_before (w : world) (fp : failure_point) : list Z * list Z :=
  match fp with
  | NoAddress | AddressResolution | SocketCreate => ([], [])
  | MultiplexerInit => ([], [socket_ret w])
  | ConnectFailure => ([epoll_create_ret w], [socket_ret w])
  end.

(** The calls of a [start] that succeeds, for the remote address [sa]. *)
Definition success_calls (w : world) (sa : Connect.GSocketAddress) : list call :=
  let s := socket_ret w in
  let e := epoll_create_ret w in
  [srt_socket (Connect.sa_family sa) s;
   srt_setsockopt s Connect.SRTO_SNDSYN 0;
   srt_epoll_create e;
   srt_epoll_add_usock e s Connect.SRT_EPOLL_OUT;
   srt_connect s sa (connect_ret w)].

(** Rounds of [start] followed by [stop]. *)
Fixpoint rounds (ws : list world) (uri : option ServerSinkStart.GstUri)
    (st : GstSRTClientSinkPrivate) : GstSRTClientSinkPrivate * list call :=
  match ws with
  | [] => (st, [])
  | w :: rest =>
      let '(_, st1, l1) := gst_srt_client_sink_start w uri st in
      let '(_, st2, l2) := gst_srt_client_sink_stop st1 in
      let '(st3, l3) := rounds rest uri st2 in
      (st3, l1 ++ l2 ++ l3)
  end.

(** Environments for concrete rounds. *)
Definition uri_7001 : option ServerSinkStart.GstUri :=
  Some (ServerSinkStart.mkUri (Some "10.0.0.1") 7001).

Definition reachable_peer : world :=
  mkWorld (λ h p, (λ h', Connect.mkAddr 2 h' p) <$> h) (λ _, true) 7 1 0.

Definition unreachable_peer : world :=
  mkWorld (λ h p, (λ h', Connect.mkAddr 2 h' p) <$> h) (λ _, true) 8 2 (-1).

Definition no_address : world :=
  mkWorld (λ h p, None) (λ _, true) 7 1 0.

End ClientSink.

(** ** The base sink: [render] ([gstsrtbasesink.c]) *)
Module BaseSink.

Local Open Scope string_scope.
Local Open Scope list_scope.

(** [GstSRTBaseSinkClass]: the subclass sends a buffer.  [S] is the state of
    the element, [E] what the transport answers during the call. *)
Class GstSRTBaseSinkClass (S E : Type) := {
  send_buffer : E → S → option (bool * S)
}.

(** What [render] does besides calling the subclass. *)
Inductive render_call :=
| gst_buffer_map (ok : bool)
| gst_buffer_unmap
| element_error (msg : string).

(** [gst_srt_base_sink_render]. *)
Definition gst_srt_base_sink_render {S E} `{GstSRTBaseSinkClass S E}
    (map_ok : bool) (e : E) (self : S)
  : option (ClientSrc.GstFlowReturn * S * list render_call) :=
  if negb map_ok then
    Some (ClientSrc.GST_FLOW_ERROR, self,
          [gst_buffer_map false; element_error "Could not map the input stream"])
  else
    match send_buffer e self with
    | Some (ok, self1) =>
        Some (if ok then ClientSrc.GST_FLOW_OK else ClientSrc.GST_FLOW_ERROR, self1,
              [gst_buffer_map true; gst_buffer_unmap])
    | None => None
    end.

(** [gstsrtbasesink_class->send_buffer] of the server sink. *)
#[export] Instance server_sink_class
  : GstSRTBaseSinkClass ServerSink.GstSRTServerSinkPrivate ServerSink.transport :=
  {| send_buffer := ServerSink.gst_srt_server_sink_send_buffer |}.

(** [gstsrtbasesink_class->send_buffer] of the client sink; the state
    carries the calls made so far. *)
#[export] Instance client_sink_class
  : GstSRTBaseSinkClass (ClientSink.GstSRTClientSinkPrivate * list ClientSink.call)
                        ClientSink.send_env :=
  {| send_buffer e self :=
       let r := ClientSink.gst_srt_client_sink_send_buffer e self.1 in
       Some (r.1.1, (r.1.2, self.2 ++ r.2)) |}.

Definition render_errors (l : list render_call) : list string :=
  flat_map (λ c, match c with element_error m => [m] | _ => [] end) l.

(** The sends among the calls of the client sink: socket and return value. *)
Definition sends (l : list ClientSink.call) : list (Z * Z) :=
  flat_map (λ c, match c with ClientSink.srt_sendmsg2 s r => [(s, r)] | _ => [] end) l.

End BaseSink.

(** ** The base source: reading properties *)
Module BaseSrcProps.
Import BaseSrc.

Local Open Scope string_scope.
Local Open Scope list_scope.

Section Getter.

Context {GstUri GstCaps : Type}.
Context (gst_uri_from_string : option string → option GstUri).
Context (gst_uri_get_scheme : option GstUri → option string).
Context (gst_uri_to_string : option GstUri → option string).

(** [gst_srt_base_src_uri_get_uri]. *)
Definition gst_srt_base_src_uri_get_uri (self : GstSRTBaseSrc GstUri GstCaps)
  : option string :=
  gst_uri_to_string (uri self).

(** [gst_srt_base_src_get_property]: the value stored, if any. *)
Definition gst_srt_base_src_get_property (self : GstSRTBaseSrc GstUri GstCaps)
    (prop_id : Z) : option (GValue GstCaps) * list report :=
  if bool_decide (prop_id = PROP_URI) then
    (match uri self with
     | Some _ => Some (VString (gst_srt_base_src_uri_get_uri self))
     | None => None
     end, [])
  else if bool_decide (prop_id = PROP_CAPS) then (Some (VCaps (caps self)), [])
  else if bool_decide (prop_id = PROP_LATENCY) then (Some (VInt (latency self)), [])
  else if bool_decide (prop_id = PROP_PASSPHRASE) then
    (Some (VString (passphrase self)), [])
  else if bool_decide (prop_id = PROP_KEY_LENGTH) then (Some (VInt (key_length self)), [])
  else (None, [warn_invalid_property_id prop_id]).

(** Successive property writes. *)
Definition set_properties (self : GstSRTBaseSrc GstUri GstCaps)
    (writes : list (Z * GValue GstCaps)) : GstSRTBaseSrc GstUri GstCaps :=
  foldl (λ s w, (gst_srt_base_src_set_property gst_uri_from_string gst_uri_get_scheme
                   s w.1 w.2).1) self writes.

End Getter.

(** A framework in which a URI is its text, with the scheme "srt" when the
    text starts with "srt:". *)
Definition parse_text (s : option string) : option string := s.

Definition scheme_of_text (u : option string) : option string :=
  match u with
  | Some t => if String.prefix "srt:" t then Some "srt" else Some "other"
  | None => None
  end.

End BaseSrcProps.


(** * Properties *)

(** ** The server sink *)
Module ServerSinkProofs.
Import ServerSink.

Ltac unfold_setters :=
  unfold set_cancelled, set_thread, set_heap, set_next_client, set_clients,
    set_pending_clients, emit in *; simpl in *.

Ltac setters :=
  cbv beta iota delta
    [set_cancelled set_thread set_heap set_next_client set_clients
     set_pending_clients emit cancelled priv_sock poll_id thread heap
     next_client clients pending_clients log].

Lemma remove_live_client_eq p c st :
  heap st !! p = Some c →
  remove_live_client p st =
    Some (mkPriv (cancelled st) (priv_sock st) (poll_id st) (thread st)
            (delete p (heap st)) (next_client st)
            (g_list_remove (clients st) p) (pending_clients st)
            (log st ++ removal_events p c)).
Proof.
  intros H. unfold remove_live_client, srt_emit_client_removed, srt_client_free,
    removal_events, close_events.
  unfold_setters. rewrite H. simpl. rewrite H. simpl.
  destruct (bool_decide (sock c ≠ SRT_INVALID_SOCK)); simpl;
    rewrite <- ?app_assoc; reflexivity.
Qed.

Lemma discard_pending_client_eq p c st :
  heap st !! p = Some c →
  discard_pending_client p st =
    Some (mkPriv (cancelled st) (priv_sock st) (poll_id st) (thread st)
            (delete p (heap st)) (next_client st)
            (clients st) (pending_clients st)
            (log st ++ removal_events p c)).
Proof.
  intros H. unfold discard_pending_client, srt_emit_client_removed, srt_client_free,
    removal_events, close_events.
  unfold_setters. rewrite H. simpl. rewrite H. simpl.
  destruct (bool_decide (sock c ≠ SRT_INVALID_SOCK)); simpl;
    rewrite <- ?app_assoc; reflexivity.
Qed.

Lemma live_client_step_eq w p c st :
  heap st !! p = Some c →
  live_client_step w p st = Some (after_live w p c st).
Proof.
  intros H. unfold live_client_step, after_live, live_events, live_verdict,
    backpressure_evicts, live_record.
  rewrite H. simpl.
  destruct (can_client_recv w (sock c)) eqn:Hrecv; simpl.
  - unfold send_or_remove, send_buffer_internal. rewrite H. simpl.
    destruct (sendmsg_ok w (sock c)) eqn:Hs.
    + unfold_setters. rewrite (insert_id _ _ _ H). destruct st; reflexivity.
    + erewrite remove_live_client_eq by (unfold_setters; exact H).
      unfold_setters. rewrite <- app_assoc. reflexivity.
  - destruct (bool_decide (num_send_fails c + 1 >= MAX_SEND_FAILS)) eqn:Hmax; simpl.
    + erewrite remove_live_client_eq
        by (unfold_setters; apply lookup_insert_eq).
      unfold_setters. rewrite delete_insert_eq. reflexivity.
    + unfold send_or_remove, send_buffer_internal. unfold_setters.
      rewrite lookup_insert_eq. simpl.
      destruct (sendmsg_ok w (sock c)) eqn:Hs.
      * reflexivity.
      * erewrite remove_live_client_eq
          by (unfold_setters; apply lookup_insert_eq).
        unfold_setters. rewrite delete_insert_eq, <- app_assoc. reflexivity.
Qed.

Lemma pending_client_step_eq w p c st :
  heap st !! p = Some c →
  pending_client_step w p st = Some (after_pending w p c st).
Proof.
  intros H. unfold pending_client_step, after_pending, pending_events, pending_promoted,
    gst_srt_base_sink_send_headers, send_buffer_internal.
  rewrite H. simpl.
  destruct (headers_ok w (sock c)) eqn:Hh; simpl.
  - unfold_setters. rewrite H. simpl.
    destruct (sendmsg_ok w (sock c)) eqn:Hs; simpl.
    + unfold_setters. rewrite <- app_assoc. reflexivity.
    + erewrite discard_pending_client_eq by (unfold_setters; exact H).
      unfold_setters. rewrite <- !app_assoc. reflexivity.
  - erewrite discard_pending_client_eq by (unfold_setters; exact H).
    unfold_setters. rewrite <- !app_assoc. reflexivity.
Qed.

Lemma count_ev_app f l1 l2 : count_ev f (l1 ++ l2) = (count_ev f l1 + count_ev f l2)%nat.
Proof. induction l1 as [|e l1 IH]; simpl; [reflexivity | rewrite IH; lia]. Qed.

Lemma count_ev_none f l : (∀ e, e ∈ l → f e = false) → count_ev f l = 0%nat.
Proof.
  induction l as [|e l IH]; intros H; simpl; [reflexivity|].
  rewrite (H e) by constructor. rewrite IH; [reflexivity|].
  intros e' He'. apply H. by constructor.
Qed.

Lemma added_quiet p l : quiet l → added p l = 0%nat.
Proof.
  intros H. apply count_ev_none. intros e He.
  pose proof (proj1 (Forall_forall _ _) H e He) as Hs.
  destruct e; simpl in *; congruence.
Qed.

Lemma removed_quiet p l : quiet l → removed p l = 0%nat.
Proof.
  intros H. apply count_ev_none. intros e He.
  pose proof (proj1 (Forall_forall _ _) H e He) as Hs.
  destruct e; simpl in *; congruence.
Qed.

Lemma added_app p l1 l2 : added p (l1 ++ l2) = (added p l1 + added p l2)%nat.
Proof. apply count_ev_app. Qed.

Lemma removed_app p l1 l2 : removed p (l1 ++ l2) = (removed p l1 + removed p l2)%nat.
Proof. apply count_ev_app. Qed.

Lemma removals_follow_additions_nil : removals_follow_additions [].
Proof.
  intros l1 l2 p H. symmetry in H. apply app_eq_nil in H as [-> _]. reflexivity.
Qed.

(** Appending to an ordered log keeps it ordered when every new prefix
    keeps the balance. *)
Lemma removals_follow_additions_app l evs :
  removals_follow_additions l →
  (∀ e1 e2 p, evs = e1 ++ e2 → (removed p (l ++ e1) ≤ added p (l ++ e1))%nat) →
  removals_follow_additions (l ++ evs).
Proof.
  intros Hl Hnew l1 l2 p Heq.
  apply app_eq_app in Heq as [k [[-> ->] | [-> ->]]].
  - eapply Hl. reflexivity.
  - eapply Hnew. reflexivity.
Qed.

(** New events keep the order as long as, even with all of them counted,
    no record is removed more often than the old log has added it. *)
Lemma removals_follow_additions_bound l evs :
  removals_follow_additions l →
  (∀ q, (removed q l + removed q evs ≤ added q l)%nat) →
  removals_follow_additions (l ++ evs).
Proof.
  intros Hl Hb. apply removals_follow_additions_app; [exact Hl|].
  intros e1 e2 q ->. specialize (Hb q).
  rewrite removed_app in *. rewrite !added_app. lia.
Qed.

Lemma registry_inv_balance h n reg lg q :
  registry_inv h n reg lg → (removed q lg ≤ added q lg)%nat.
Proof.
  intros I. destruct (h !! q) eqn:E.
  - destruct (inv_live _ _ _ _ I q) as [? ?]; [by eexists|]. lia.
  - destruct (inv_gone _ _ _ _ I q E). lia.
Qed.

(** The record of a registered client changes (its socket does not), and
    nothing is signalled. *)
Lemma registry_inv_update h n reg lg p c c' evs :
  registry_inv h n reg lg → h !! p = Some c → sock c' = sock c → quiet evs →
  registry_inv (<[p := c']> h) n reg (lg ++ evs).
Proof.
  intros I Hp Hs Hq.
  assert (Hdom : ∀ q, is_Some (<[p := c']> h !! q) ↔ is_Some (h !! q)).
  { intros q. rewrite lookup_insert_is_Some. split.
    - intros [<- | [_ ?]]; [by eexists | done].
    - intros ?. destruct (decide (p = q)); [by left | by right]. }
  constructor.
  - apply I.
  - intros q. rewrite Hdom. apply I.
  - intros q d. destruct (decide (p = q)) as [<- | Hne].
    + rewrite lookup_insert_eq. intros [= <-]. rewrite Hs.
      eapply (inv_sock _ _ _ _ I); eassumption.
    + rewrite lookup_insert_ne by done. apply I.
  - intros q. rewrite Hdom. apply I.
  - intros q Hn. rewrite added_app, (added_quiet _ _ Hq).
    rewrite (inv_unborn _ _ _ _ I q Hn). reflexivity.
  - intros q. rewrite Hdom. intros Hq'.
    rewrite added_app, removed_app, (added_quiet _ _ Hq), (removed_quiet _ _ Hq).
    destruct (inv_live _ _ _ _ I q Hq'). lia.
  - intros q Hnone.
    rewrite added_app, removed_app, (added_quiet _ _ Hq), (removed_quiet _ _ Hq).
    assert (h !! q = None) as Hn.
    { destruct (h !! q) eqn:E; [|reflexivity].
      assert (is_Some (<[p := c']> h !! q)) as [? ?] by (apply Hdom; by eexists).
      congruence. }
    destruct (inv_gone _ _ _ _ I q Hn). lia.
  - apply removals_follow_additions_bound; [apply I|].
    intros q. rewrite (removed_quiet _ _ Hq).
    pose proof (registry_inv_balance _ _ _ _ q I). lia.
Qed.

(** Nothing changes but the log, and nothing is signalled. *)
Lemma registry_inv_log h n reg lg evs :
  registry_inv h n reg lg → quiet evs → registry_inv h n reg (lg ++ evs).
Proof.
  intros I Hq. constructor; try apply I.
  - intros q Hn. rewrite added_app, (added_quiet _ _ Hq).
    rewrite (inv_unborn _ _ _ _ I q Hn). reflexivity.
  - intros q Hq'.
    rewrite added_app, removed_app, (added_quiet _ _ Hq), (removed_quiet _ _ Hq).
    destruct (inv_live _ _ _ _ I q Hq'). lia.
  - intros q Hn.
    rewrite added_app, removed_app, (added_quiet _ _ Hq), (removed_quiet _ _ Hq).
    destruct (inv_gone _ _ _ _ I q Hn). lia.
  - apply removals_follow_additions_bound; [apply I|].
    intros q. rewrite (removed_quiet _ _ Hq).
    pose proof (registry_inv_balance _ _ _ _ q I). lia.
Qed.

(** The registry contents are rearranged. *)
Lemma registry_inv_perm h n reg reg' lg :
  registry_inv h n reg lg → reg ≡ₚ reg' → registry_inv h n reg' lg.
Proof.
  intros I Hp. constructor; try apply I.
  - rewrite <- Hp. apply I.
  - intros q. rewrite <- Hp. apply I.
Qed.

Lemma added_removed_event p q s a :
  added q [client_removed p s a] = 0%nat ∧
  removed q [client_removed p s a] = (if decide (p = q) then 1 else 0)%nat.
Proof.
  unfold added, removed. simpl. split; [reflexivity|].
  destruct (decide (p = q)) as [->|Hne].
  - rewrite bool_decide_eq_true_2 by done. reflexivity.
  - rewrite bool_decide_eq_false_2 by done. reflexivity.
Qed.

(** A registered client leaves: its record is freed and exactly one
    removal is signalled for it. *)
Lemma registry_inv_drop h n reg reg' lg p c evs1 s a evs2 :
  registry_inv h n reg lg → h !! p = Some c → quiet evs1 → quiet evs2 →
  NoDup reg' → (∀ q, q ∈ reg' ↔ q ∈ reg ∧ q ≠ p) →
  registry_inv (delete p h) n reg' (lg ++ evs1 ++ client_removed p s a :: evs2).
Proof.
  intros I Hp Hq1 Hq2 Hnd Hreg.
  assert (Hadd : ∀ q, added q (evs1 ++ client_removed p s a :: evs2) = 0%nat).
  { intros q. rewrite added_app, (added_quiet _ _ Hq1).
    change (client_removed p s a :: evs2) with ([client_removed p s a] ++ evs2).
    rewrite added_app, (added_quiet _ _ Hq2).
    destruct (added_removed_event p q s a) as [-> _]. reflexivity. }
  assert (Hrem : ∀ q, removed q (evs1 ++ client_removed p s a :: evs2)
                      = (if decide (p = q) then 1 else 0)%nat).
  { intros q. rewrite removed_app, (removed_quiet _ _ Hq1).
    change (client_removed p s a :: evs2) with ([client_removed p s a] ++ evs2).
    rewrite removed_app, (removed_quiet _ _ Hq2).
    destruct (added_removed_event p q s a) as [_ ->]. lia. }
  destruct (inv_live _ _ _ _ I p) as [Hap Hrp]; [by eexists|].
  constructor.
  - exact Hnd.
  - intros q. rewrite Hreg, lookup_delete_is_Some, (inv_dom _ _ _ _ I q).
    split; intros [? ?]; split; auto.
  - intros q d Hd. apply lookup_delete_Some in Hd as [_ Hd].
    eapply (inv_sock _ _ _ _ I); eassumption.
  - intros q Hs. apply lookup_delete_is_Some in Hs as [_ Hs]. by apply I.
  - intros q Hn. rewrite added_app, Hadd, (inv_unborn _ _ _ _ I q Hn). reflexivity.
  - intros q Hs. apply lookup_delete_is_Some in Hs as [Hne Hs].
    rewrite added_app, removed_app, Hadd, Hrem.
    destruct (decide (p = q)); [done|].
    destruct (inv_live _ _ _ _ I q Hs). lia.
  - intros q Hn. rewrite added_app, removed_app, Hadd, Hrem.
    apply lookup_delete_None in Hn as [<- | Hn].
    + destruct (decide (p = p)); [|done]. lia.
    + destruct (decide (p = q)) as [<-|]; [congruence|].
      destruct (inv_gone _ _ _ _ I q Hn). lia.
  - apply removals_follow_additions_bound; [apply I|].
    intros q. rewrite Hrem. destruct (decide (p = q)) as [<-|]; [lia|].
    pose proof (registry_inv_balance _ _ _ _ q I). lia.
Qed.

(** A new record is allocated, accepted and queued: one addition is
    signalled for it. *)
Lemma registry_inv_new h n reg lg s a evs :
  registry_inv h n reg lg → s ≠ SRT_INVALID_SOCK → quiet evs →
  registry_inv (<[n := mkClient s a 0]> h) (S n) (reg ++ [n])
               (lg ++ evs ++ [client_added n s a]).
Proof.
  intros I Hs Hq.
  assert (Hfree : h !! n = None).
  { destruct (h !! n) eqn:E; [|reflexivity].
    assert (n < n)%nat by (apply (inv_fresh _ _ _ _ I); by eexists). lia. }
  assert (Hadd : ∀ q, added q (evs ++ [client_added n s a])
                      = (if decide (n = q) then 1 else 0)%nat).
  { intros q. rewrite added_app, (added_quiet _ _ Hq). unfold added. simpl.
    destruct (decide (n = q)) as [->|Hne].
    - rewrite bool_decide_eq_true_2 by done. reflexivity.
    - rewrite bool_decide_eq_false_2 by done. reflexivity. }
  assert (Hrem : ∀ q, removed q (evs ++ [client_added n s a]) = 0%nat).
  { intros q. rewrite removed_app, (removed_quiet _ _ Hq). reflexivity. }
  constructor.
  - apply NoDup_app. split; [apply I|]. split; [|apply NoDup_singleton].
    intros q Hin Hq'. apply list_elem_of_singleton in Hq' as ->.
    apply (inv_dom _ _ _ _ I) in Hin as [? ?]. congruence.
  - intros q. rewrite elem_of_app, list_elem_of_singleton, lookup_insert_is_Some,
      (inv_dom _ _ _ _ I q).
    split.
    + intros [? | ->]; [|by left]. destruct (decide (n = q)); [by left | by right].
    + intros [<- | [_ ?]]; [by right | by left].
  - intros q d. destruct (decide (n = q)) as [<- | Hne].
    + rewrite lookup_insert_eq. intros [= <-]. exact Hs.
    + rewrite lookup_insert_ne by done. apply I.
  - intros q Hq'. apply lookup_insert_is_Some in Hq' as [<- | [_ Hq']]; [lia|].
    pose proof (inv_fresh _ _ _ _ I q Hq'). lia.
  - intros q Hn. rewrite added_app, Hadd.
    destruct (decide (n = q)); [lia|].
    rewrite (inv_unborn _ _ _ _ I q) by lia. reflexivity.
  - intros q Hq'. rewrite added_app, removed_app, Hadd, Hrem.
    apply lookup_insert_is_Some in Hq' as [<- | [Hne Hq']].
    + destruct (decide (n = n)); [|done].
      destruct (inv_gone _ _ _ _ I n Hfree).
      rewrite (inv_unborn _ _ _ _ I n) in * by lia. lia.
    + destruct (decide (n = q)); [done|].
      destruct (inv_live _ _ _ _ I q Hq'). lia.
  - intros q Hn. apply lookup_insert_None in Hn as [Hn Hne].
    rewrite added_app, removed_app, Hadd, Hrem.
    destruct (decide (n = q)); [done|].
    destruct (inv_gone _ _ _ _ I q Hn). lia.
  - apply removals_follow_additions_bound; [apply I|].
    intros q. rewrite Hrem.
    pose proof (registry_inv_balance _ _ _ _ q I). lia.
Qed.

(** A record is allocated and freed again without having been accepted. *)
Lemma registry_inv_skip h n reg lg evs :
  registry_inv h n reg lg → quiet evs → registry_inv h (S n) reg (lg ++ evs).
Proof.
  intros I Hq. pose proof (registry_inv_log _ _ _ _ _ I Hq) as J.
  constructor; try apply J.
  - intros q Hs. pose proof (inv_fresh _ _ _ _ J q Hs). lia.
  - intros q Hn. apply J. lia.
Qed.

(** *** [g_list_remove] *)

Lemma g_list_remove_sublist l p : g_list_remove l p `sublist_of` l.
Proof.
  induction l as [|x l IH]; simpl; [constructor|].
  destruct (decide (x = p)); [by apply sublist_cons | by apply sublist_skip].
Qed.

Lemma elem_of_g_list_remove_ne l p q :
  q ≠ p → q ∈ g_list_remove l p ↔ q ∈ l.
Proof.
  intros Hne. induction l as [|x l IH]; simpl; [reflexivity|].
  destruct (decide (x = p)) as [->|Hx].
  - rewrite elem_of_cons. split; [by right | by intros [? | ?]].
  - rewrite !elem_of_cons, IH. reflexivity.
Qed.

Lemma g_list_remove_NoDup l p :
  NoDup l → NoDup (g_list_remove l p) ∧ p ∉ g_list_remove l p.
Proof.
  induction 1 as [|x l Hx Hnd IH]; simpl.
  - split; [constructor | apply not_elem_of_nil].
  - destruct (decide (x = p)) as [->|Hne].
    + by split.
    + destruct IH as [IH1 IH2]. split.
      * constructor; [|exact IH1].
        intros Hin. apply Hx. eapply elem_of_sublist; [done|apply g_list_remove_sublist].
      * rewrite elem_of_cons. by intros [? | ?].
Qed.

Lemma elem_of_g_list_remove l p q :
  NoDup l → q ∈ g_list_remove l p ↔ q ∈ l ∧ q ≠ p.
Proof.
  intros Hnd. destruct (decide (q = p)) as [->|Hne].
  - split; [|by intros [_ ?]].
    intros Hin. by destruct (g_list_remove_NoDup l p Hnd) as [_ ?].
  - rewrite elem_of_g_list_remove_ne by done. split; [by split | by intros [? _]].
Qed.

(** *** One client, one turn: the invariant is kept *)

Lemma quiet_close_events c : quiet (close_events c).
Proof.
  unfold close_events, quiet. destruct (bool_decide _); by repeat constructor.
Qed.

Lemma after_live_inv w p c st :
  sink_inv st → p ∈ clients st → heap st !! p = Some c →
  sink_inv (after_live w p c st).
Proof.
  unfold sink_inv. intros I Hin Hp.
  assert (Hdrop : ∀ evs1, quiet evs1 →
    registry_inv (delete p (heap st)) (next_client st)
      (g_list_remove (clients st) p ++ pending_clients st)
      (log st ++ evs1 ++ removal_events p (live_record w c))).
  { intros evs1 Hq1. pose proof (inv_nodup _ _ _ _ I) as Hnd.
    apply NoDup_app in Hnd as (Hnc & Hdisj & Hnp).
    eapply registry_inv_drop; eauto using quiet_close_events.
    - apply NoDup_app. split; [by apply g_list_remove_NoDup|]. split; [|done].
      intros q Hq. apply Hdisj. eapply elem_of_sublist; [done|apply g_list_remove_sublist].
    - intros q. rewrite !elem_of_app, elem_of_g_list_remove by done.
      split.
      + intros [[? ?] | Hq]; [by split; [left|]|].
        split; [by right|]. intros ->. by apply (Hdisj p).
      + intros [[? | ?] ?]; [by left | by right]. }
  unfold after_live, live_events. destruct (live_verdict w c); simpl.
  - eapply registry_inv_update; eauto.
    + unfold live_record. by destruct (can_client_recv _ _).
    + by repeat constructor.
  - apply (Hdrop []). constructor.
  - apply (Hdrop [srt_sendmsg2 (sock c) false]). by repeat constructor.
Qed.

(** The client at the head of the pending queue is popped and discarded. *)
Lemma discard_head_inv p c rest st evs1 :
  sink_inv st → pending_clients st = p :: rest → heap st !! p = Some c →
  quiet evs1 →
  registry_inv (delete p (heap st)) (next_client st)
    (clients st ++ rest) (log st ++ evs1 ++ removal_events p c).
Proof.
  unfold sink_inv. intros I Hpend Hp Hq1. rewrite Hpend in I.
  pose proof (inv_nodup _ _ _ _ I) as Hnd.
  eapply registry_inv_drop; eauto using quiet_close_events.
  - eapply NoDup_app in Hnd as (Hnc & Hdisj & Hnp). apply NoDup_cons in Hnp as [? ?].
    apply NoDup_app. split; [done|]. split; [|done].
    intros q Hq Hq'. apply (Hdisj q Hq). by right.
  - intros q. rewrite !elem_of_app, elem_of_cons.
    apply NoDup_app in Hnd as (Hnc & Hdisj & Hnp). apply NoDup_cons in Hnp as [Hpr ?].
    split.
    + intros [Hq | Hq]; (split; [tauto|]); intros ->; [|done].
      apply (Hdisj p Hq). by left.
    + intros [[? | [? | ?]] ?]; [by left | done | by right].
Qed.

Lemma after_pending_inv w p c rest st :
  sink_inv st → pending_clients st = p :: rest → heap st !! p = Some c →
  sink_inv (after_pending w p c (set_pending_clients rest st)).
Proof.
  intros I Hpend Hp.
  pose proof (λ evs1, discard_head_inv p c rest st evs1 I Hpend Hp) as Hdrop.
  unfold sink_inv in *. rewrite Hpend in I.
  unfold after_pending, pending_events, pending_promoted.
  destruct (headers_ok w (sock c)); simpl.
  - destruct (sendmsg_ok w (sock c)); simpl.
    + apply registry_inv_log; [|by repeat constructor].
      eapply registry_inv_perm; [exact I|].
      change ((p :: clients st) ++ rest) with (p :: (clients st ++ rest)).
      symmetry. apply Permutation_middle.
    + apply (Hdrop [send_headers (sock c) true; srt_sendmsg2 (sock c) false]).
      by repeat constructor.
  - apply (Hdrop [send_headers (sock c) false]). by repeat constructor.
Qed.

Lemma after_live_heap w p c st q :
  heap st !! p = Some c →
  heap (after_live w p c st) !! q =
    if decide (q = p) then live_keep w c else heap st !! q.
Proof.
  intros Hp. unfold after_live, live_keep.
  destruct (live_verdict w c); simpl; destruct (decide (q = p)) as [->|Hne];
    by rewrite ?lookup_insert_eq, ?lookup_delete_eq, ?lookup_insert_ne,
               ?lookup_delete_ne by done.
Qed.

Lemma after_pending_heap w p c st q :
  heap st !! p = Some c →
  heap (after_pending w p c st) !! q =
    if decide (q = p) then pending_keep w c else heap st !! q.
Proof.
  intros Hp. unfold after_pending, pending_keep.
  destruct (pending_promoted w c); simpl; destruct (decide (q = p)) as [->|Hne];
    by rewrite ?lookup_delete_eq, ?lookup_delete_ne by done.
Qed.

Lemma flat_map_events_of_frame f h h' l :
  (∀ q, q ∈ l → h' !! q = h !! q) →
  flat_map (events_of f h') l = flat_map (events_of f h) l.
Proof.
  induction l as [|x l IH]; intros H; simpl; [reflexivity|].
  unfold events_of at 1 3. rewrite H by constructor.
  rewrite IH; [reflexivity|]. intros q Hq. apply H. by constructor.
Qed.

Lemma live_loop_spec w cursor : ∀ st,
  sink_inv st → NoDup cursor → (∀ q, q ∈ cursor → q ∈ clients st) →
  ∃ st', live_loop w cursor st = Some st' ∧ sink_inv st' ∧
    pending_clients st' = pending_clients st ∧
    next_client st' = next_client st ∧
    clients st' `sublist_of` clients st ∧
    log st' = log st ++ flat_map (events_of (live_events w) (heap st)) cursor ∧
    (∀ q, heap st' !! q =
          if decide (q ∈ cursor) then heap st !! q ≫= live_keep w else heap st !! q).
Proof.
  induction cursor as [|p rest IH]; intros st I Hnd Hsub; simpl.
  - exists st. rewrite app_nil_r. split_and!; done.
  - apply NoDup_cons in Hnd as [Hp Hnd].
    assert (p ∈ clients st) as Hin by (apply Hsub; constructor).
    assert (is_Some (heap st !! p)) as [c Hc].
    { apply (inv_dom _ _ _ _ I). apply elem_of_app. by left. }
    rewrite (live_client_step_eq w p c st Hc). simpl.
    pose proof (after_live_inv w p c st I Hin Hc) as I1.
    destruct (IH (after_live w p c st) I1 Hnd) as (st' & Hrun & I' & Hpend & Hnext & Hcl & Hlog & Hheap).
    { intros q Hq. assert (q ≠ p) by (intros ->; done).
      assert (q ∈ clients st) by (apply Hsub; by constructor).
      unfold after_live. destruct (live_verdict w c); simpl; try done;
        by apply elem_of_g_list_remove_ne. }
    exists st'. split; [exact Hrun|]. split; [exact I'|].
    assert (Hframe : pending_clients (after_live w p c st) = pending_clients st
                     ∧ next_client (after_live w p c st) = next_client st
                     ∧ clients (after_live w p c st) `sublist_of` clients st
                     ∧ log (after_live w p c st) = log st ++ live_events w p c).
    { unfold after_live. destruct (live_verdict w c); simpl;
        split_and!; try done; apply g_list_remove_sublist. }
    destruct Hframe as (F1 & F2 & F3 & F4).
    split; [congruence|]. split; [congruence|].
    split; [by etrans|].
    split.
    + rewrite Hlog, F4, <- app_assoc. f_equal.
      unfold events_of at 2. rewrite Hc. f_equal.
      apply flat_map_events_of_frame. intros q Hq.
      rewrite (after_live_heap w p c st q Hc).
      destruct (decide (q = p)) as [->|]; [done|reflexivity].
    + intros q. rewrite Hheap, (after_live_heap w p c st q Hc).
      destruct (decide (q = p)) as [->|Hne].
      * rewrite decide_False by done. rewrite decide_True by constructor.
        rewrite Hc. reflexivity.
      * destruct (decide (q ∈ rest)) as [Hq|Hq].
        -- rewrite decide_True by (by constructor). reflexivity.
        -- rewrite decide_False; [reflexivity|].
           rewrite elem_of_cons. by intros [? | ?].
Qed.

Lemma pending_loop_spec w queue : ∀ st,
  sink_inv st → pending_clients st = queue →
  ∃ st', pending_loop w queue st = Some st' ∧ sink_inv st' ∧
    pending_clients st' = [] ∧
    next_client st' = next_client st ∧
    (∀ q, q ∈ clients st' ↔
          q ∈ clients st ∨ (q ∈ queue ∧ is_Some (heap st !! q ≫= pending_keep w))) ∧
    log st' = log st ++ flat_map (events_of (pending_events w) (heap st)) queue ∧
    (∀ q, heap st' !! q =
          if decide (q ∈ queue) then heap st !! q ≫= pending_keep w else heap st !! q).
Proof.
  induction queue as [|p rest IH]; intros st I Hq; simpl.
  - exists st. rewrite app_nil_r. split_and!; try done.
    intros q. split; [by left|].
    intros [? | [Hq' _]]; [done|]. by apply elem_of_nil in Hq'.
  - assert (is_Some (heap st !! p)) as [c Hc].
    { apply (inv_dom _ _ _ _ I). apply elem_of_app. right. rewrite Hq. constructor. }
    assert (Hnd : p ∉ rest).
    { pose proof (inv_nodup _ _ _ _ I) as Hnd. rewrite Hq in Hnd.
      apply NoDup_app in Hnd as (_ & _ & Hnd). by apply NoDup_cons in Hnd as [? _]. }
    rewrite (pending_client_step_eq w p c (set_pending_clients rest st) Hc). simpl.
    pose proof (after_pending_inv w p c rest st I Hq Hc) as I1.
    set (st1 := after_pending w p c (set_pending_clients rest st)) in *.
    assert (Hframe : pending_clients st1 = rest
                     ∧ next_client st1 = next_client st
                     ∧ log st1 = log st ++ pending_events w p c
                     ∧ clients st1 = (if pending_promoted w c then [p] else []) ++ clients st).
    { unfold st1, after_pending. destruct (pending_promoted w c); simpl; done. }
    destruct Hframe as (F1 & F2 & F3 & F4).
    assert (Hh1 : ∀ q, heap st1 !! q = if decide (q = p) then pending_keep w c else heap st !! q).
    { intros q. unfold st1.
      by rewrite (after_pending_heap w p c (set_pending_clients rest st) q Hc). }
    destruct (IH st1 I1 F1) as (st' & Hrun & I' & Hpend & Hnext & Hcl & Hlog & Hheap).
    exists st'. split; [exact Hrun|]. split; [exact I'|].
    split; [exact Hpend|]. split; [congruence|].
    split; [|split].
    + intros q. rewrite Hcl, F4, Hh1, elem_of_app, elem_of_cons.
      destruct (decide (q = p)) as [->|Hne].
      * rewrite Hc. simpl. unfold pending_keep.
        destruct (pending_promoted w c); simpl.
        -- split; [|intros _; left; left; constructor].
           intros _. right. split; [by left | by eexists].
        -- split.
           ++ intros [[Hn | ?] | [? _]]; [by apply elem_of_nil in Hn | by left | done].
           ++ intros [? | [_ [? ?]]]; [by left; right | done].
      * split.
        -- intros [[Hn | ?] | [? ?]]; [|by left | right; split; [by right | done]].
           destruct (pending_promoted w c); [|by apply elem_of_nil in Hn].
           by apply list_elem_of_singleton in Hn.
        -- intros [? | [[? | ?] ?]]; [by left; right | done | by right].
    + rewrite Hlog, F3, <- app_assoc. f_equal.
      unfold events_of at 2. rewrite Hc. f_equal.
      apply flat_map_events_of_frame. intros q Hq'. rewrite Hh1.
      destruct (decide (q = p)) as [->|]; [done|reflexivity].
    + intros q. rewrite Hheap, Hh1.
      destruct (decide (q = p)) as [->|Hne].
      * rewrite decide_False by done. rewrite decide_True by constructor.
        rewrite Hc. reflexivity.
      * destruct (decide (q ∈ rest)) as [Hq'|Hq'].
        -- rewrite decide_True by (by constructor). reflexivity.
        -- rewrite decide_False; [reflexivity|].
           rewrite elem_of_cons. by intros [? | ?].
Qed.

(** *** A whole delivery cycle *)

Lemma send_buffer_spec w st :
  sink_inv st →
  ∃ st', gst_srt_server_sink_send_buffer w st = Some (true, st') ∧ sink_inv st' ∧
    pending_clients st' = [] ∧
    next_client st' = next_client st ∧
    (∀ q, q ∈ clients st' ↔
          (q ∈ clients st ∧ is_Some (heap st !! q ≫= live_keep w)) ∨
          (q ∈ pending_clients st ∧ is_Some (heap st !! q ≫= pending_keep w))) ∧
    log st' = log st
              ++ flat_map (events_of (live_events w) (heap st)) (clients st)
              ++ flat_map (events_of (pending_events w) (heap st)) (pending_clients st) ∧
    (∀ q, heap st' !! q =
          if decide (q ∈ clients st) then heap st !! q ≫= live_keep w
          else if decide (q ∈ pending_clients st) then heap st !! q ≫= pending_keep w
          else heap st !! q).
Proof.
  intros I. pose proof (inv_nodup _ _ _ _ I) as Hnd.
  apply NoDup_app in Hnd as (Hnc & Hdisj & Hnp).
  destruct (live_loop_spec w (clients st) st I Hnc) as
    (st1 & Hrun1 & I1 & Hpend1 & Hnext1 & Hcl1 & Hlog1 & Hheap1); [done|].
  destruct (pending_loop_spec w (pending_clients st1) st1 I1 eq_refl) as
    (st' & Hrun2 & I' & Hpend2 & Hnext2 & Hcl2 & Hlog2 & Hheap2).
  exists st'. unfold gst_srt_server_sink_send_buffer. rewrite Hrun1. simpl.
  rewrite Hrun2. simpl. rewrite Hpend1 in *.
  assert (Hfr : ∀ q, q ∈ pending_clients st → heap st1 !! q = heap st !! q).
  { intros q Hq. rewrite Hheap1. rewrite decide_False; [done|].
    intros Hq'. by apply (Hdisj q). }
  assert (Hmem1 : ∀ q, q ∈ clients st1 ↔
                       q ∈ clients st ∧ is_Some (heap st !! q ≫= live_keep w)).
  { intros q. split.
    - intros Hq. assert (q ∈ clients st) as Hq0 by (eapply elem_of_sublist; eauto).
      split; [done|].
      assert (is_Some (heap st1 !! q)) as Hs.
      { apply (inv_dom _ _ _ _ I1). apply elem_of_app. by left. }
      rewrite Hheap1 in Hs. by rewrite decide_True in Hs.
    - intros [Hq0 Hs].
      assert (is_Some (heap st1 !! q)) as Hs1.
      { rewrite Hheap1. by rewrite decide_True. }
      apply (inv_dom _ _ _ _ I1) in Hs1. apply elem_of_app in Hs1 as [?|Hq1]; [done|].
      rewrite Hpend1 in Hq1. by destruct (Hdisj q). }
  split_and!; try done.
  - congruence.
  - intros q. rewrite Hcl2, Hmem1.
    split; (intros [? | [Hq ?]]; [by left|right; split; [done|]]).
    + by rewrite <- Hfr.
    + by rewrite Hfr.
  - rewrite Hlog2, Hlog1, <- app_assoc. do 2 f_equal.
    apply flat_map_events_of_frame. exact Hfr.
  - intros q. rewrite Hheap2, Hheap1.
    destruct (decide (q ∈ pending_clients st)) as [Hq|Hq].
    + destruct (decide (q ∈ clients st)) as [Hq'|]; [|done]. by destruct (Hdisj q).
    + done.
Qed.

(** *** The accept thread *)

Lemma accept_client_eq e st :
  heap st !! next_client st = None →
  accept_client e st =
    Some (if bool_decide (accept_ret e = SRT_INVALID_SOCK) then
            mkPriv (cancelled st) (priv_sock st) (poll_id st) (thread st)
                   (heap st) (S (next_client st)) (clients st) (pending_clients st)
                   (log st ++ [srt_accept (accept_ret e)])
          else
            mkPriv (cancelled st) (priv_sock st) (poll_id st) (thread st)
                   (<[next_client st := mkClient (accept_ret e) (Some (accept_sa e)) 0]> (heap st))
                   (S (next_client st)) (clients st)
                   (pending_clients st ++ [next_client st])
                   (log st ++ [srt_accept (accept_ret e);
                               client_added (next_client st) (accept_ret e)
                                            (Some (accept_sa e))])).
Proof.
  intros Hfree. unfold accept_client, srt_client_new, srt_client_free. setters.
  destruct (bool_decide (accept_ret e = SRT_INVALID_SOCK)) eqn:Hret.
  - rewrite lookup_insert_eq. cbn [mbind option_bind sock].
    apply bool_decide_eq_true in Hret.
    rewrite bool_decide_eq_false_2 by (intros H; by apply H).
    setters. rewrite insert_insert_eq, (delete_insert_id _ _ _ Hfree). reflexivity.
  - cbn [sock sockaddr]. rewrite !insert_insert_eq, <- app_assoc. reflexivity.
Qed.

Lemma sink_inv_free st : sink_inv st → heap st !! next_client st = None.
Proof.
  intros I. destruct (heap st !! next_client st) eqn:E; [|reflexivity].
  assert (next_client st < next_client st)%nat
    by (apply (inv_fresh _ _ _ _ I); by eexists). lia.
Qed.

Lemma accept_client_inv e st :
  sink_inv st → ∃ st', accept_client e st = Some st' ∧ sink_inv st' ∧
    clients st' = clients st ∧ (next_client st ≤ next_client st')%nat ∧
    (∀ q : client_ptr, (q < next_client st)%nat → heap st' !! q = heap st !! q).
Proof.
  intros I. pose proof (sink_inv_free st I) as Hfree.
  rewrite (accept_client_eq e st Hfree). eexists. split; [reflexivity|].
  unfold sink_inv in *.
  destruct (bool_decide (accept_ret e = SRT_INVALID_SOCK)) eqn:Hret; simpl.
  - split_and!; try done; [|lia].
    apply registry_inv_skip; [done | by repeat constructor].
  - apply bool_decide_eq_false in Hret. split_and!; try done; [|lia|].
    + rewrite app_assoc.
      change [srt_accept (accept_ret e);
              client_added (next_client st) (accept_ret e) (Some (accept_sa e))]
        with ([srt_accept (accept_ret e)] ++
              [client_added (next_client st) (accept_ret e) (Some (accept_sa e))]).
      apply registry_inv_new; [done | done | by repeat constructor].
    + intros q Hq. rewrite lookup_insert_ne by lia. reflexivity.
Qed.

Lemma thread_iter_inv fh ft e st :
  sink_inv st → ∃ ctl st', thread_iter fh ft e st = Some (ctl, st') ∧ sink_inv st' ∧
    clients st' = clients st ∧ (next_client st ≤ next_client st')%nat ∧
    (∀ q : client_ptr, (q < next_client st)%nat → heap st' !! q = heap st !! q).
Proof.
  intros I. unfold thread_iter.
  destruct (accept_client_inv e st I) as (sta & Ha & Ia & Hca & Hna & Hha).
  destruct fh; [by exists LoopExit, st|].
  destruct (wait_errno e) as [errno|].
  - destruct (bool_decide (errno ≠ SRT_ETIMEOUT)).
    + exists LoopContinue, (emit element_error st). split_and!; try done.
      apply registry_inv_log; [exact I | by repeat constructor].
    + destruct (bool_decide (errno = SRT_ETIMEOUT) && ft).
      * by exists LoopContinue, st.
      * rewrite Ha. simpl. by exists LoopContinue, sta.
  - rewrite Ha. simpl. by exists LoopContinue, sta.
Qed.

Lemma emit_removed_all_eq l : ∀ st,
  (∀ q, q ∈ l → is_Some (heap st !! q)) →
  emit_removed_all l st =
    Some (mkPriv (cancelled st) (priv_sock st) (poll_id st) (thread st)
            (heap st) (next_client st) (clients st) (pending_clients st)
            (log st ++ flat_map (events_of removed_event (heap st)) l)).
Proof.
  induction l as [|p l IH]; intros st H; simpl.
  - rewrite app_nil_r. by destruct st.
  - destruct (H p) as [c Hc]; [constructor|].
    unfold srt_emit_client_removed. rewrite Hc. simpl.
    rewrite IH by (intros q Hq; apply H; by constructor).
    unfold_setters. unfold events_of at 2. rewrite Hc. simpl.
    by rewrite <- app_assoc.
Qed.

Lemma free_all_eq l : ∀ st,
  NoDup l → (∀ q, q ∈ l → is_Some (heap st !! q)) →
  free_all l st =
    Some (mkPriv (cancelled st) (priv_sock st) (poll_id st) (thread st)
            (delete_all l (heap st)) (next_client st) (clients st) (pending_clients st)
            (log st ++ flat_map (events_of closed_event (heap st)) l)).
Proof.
  induction l as [|p l IH]; intros st Hnd H; simpl.
  - rewrite app_nil_r. by destruct st.
  - apply NoDup_cons in Hnd as [Hp Hnd].
    destruct (H p) as [c Hc]; [constructor|].
    unfold srt_client_free. rewrite Hc. simpl.
    assert (Hfr : ∀ q, q ∈ l → delete p (heap st) !! q = heap st !! q).
    { intros q Hq. apply lookup_delete_ne. by intros ->. }
    unfold events_of at 1. rewrite Hc. unfold closed_event at 1, close_events.
    destruct (bool_decide (sock c ≠ SRT_INVALID_SOCK)); simpl;
      (rewrite IH; [|done|]); unfold_setters;
      rewrite ?(flat_map_events_of_frame _ _ _ _ Hfr), <- ?app_assoc; try done;
      intros q Hq; rewrite Hfr by done; apply H; by constructor.
Qed.

Lemma quiet_closed_events h l : quiet (flat_map (events_of closed_event h) l).
Proof.
  induction l as [|p l IH]; simpl; [constructor|].
  apply Forall_app. split; [|exact IH].
  unfold events_of. destruct (h !! p); [apply quiet_close_events | constructor].
Qed.

(** Every record of [l] leaves the registry with one removal signal. *)
Lemma registry_inv_drop_all n rest l : ∀ h lg,
  registry_inv h n (l ++ rest) lg →
  registry_inv (delete_all l h) n rest
    (lg ++ flat_map (events_of removed_event h) l).
Proof.
  induction l as [|p l IH]; intros h lg I; simpl.
  - by rewrite app_nil_r.
  - assert (is_Some (h !! p)) as [c Hc].
    { apply (inv_dom _ _ _ _ I). constructor. }
    pose proof (inv_nodup _ _ _ _ I) as Hnd. simpl in Hnd.
    apply NoDup_cons in Hnd as [Hp Hnd].
    unfold events_of at 1. rewrite Hc. simpl.
    rewrite <- (flat_map_events_of_frame removed_event h (delete p h) l).
    + change (lg ++ client_removed p (sock c) (sockaddr c)
                 :: flat_map (events_of removed_event (delete p h)) l)
        with (lg ++ [client_removed p (sock c) (sockaddr c)]
                 ++ flat_map (events_of removed_event (delete p h)) l).
      rewrite app_assoc. apply IH.
      change (lg ++ [client_removed p (sock c) (sockaddr c)])
        with (lg ++ [] ++ client_removed p (sock c) (sockaddr c) :: []).
      eapply registry_inv_drop; eauto; try by constructor.
      intros q. simpl. rewrite elem_of_cons. split.
      * intros Hq. split; [by right|]. by intros ->.
      * by intros [[? | ?] ?].
    + intros q Hq. apply lookup_delete_ne. intros ->. apply Hp.
      apply elem_of_app. by left.
Qed.

Lemma stop_pending_loop_spec queue : ∀ st,
  sink_inv st → pending_clients st = queue →
  ∃ st', stop_pending_loop queue st = Some st' ∧ sink_inv st' ∧
    pending_clients st' = [] ∧ clients st' = clients st ∧
    log st `prefix_of` log st'.
Proof.
  induction queue as [|p rest IH]; intros st I Hq; simpl.
  - by exists st.
  - assert (is_Some (heap st !! p)) as [c Hc].
    { apply (inv_dom _ _ _ _ I). apply elem_of_app. right. rewrite Hq. constructor. }
    rewrite (discard_pending_client_eq p c (set_pending_clients rest st) Hc). simpl.
    edestruct IH as (st' & Hrun & I' & Hp' & Hc' & Hl'); [| |exists st'; split; [exact Hrun|]].
    + unfold sink_inv. simpl.
      apply (discard_head_inv p c rest st [] I Hq Hc). constructor.
    + reflexivity.
    + split_and!; try done. etrans; [|exact Hl']. simpl. by apply prefix_app_r.
Qed.

(** The drain of the pending queue does not read the live list. *)
Lemma discard_pending_client_set_clients l p st :
  discard_pending_client p (set_clients l st)
  = set_clients l <$> discard_pending_client p st.
Proof.
  unfold discard_pending_client, srt_emit_client_removed, srt_client_free.
  cbn [set_clients heap]. destruct (heap st !! p) as [c|] eqn:Hc; [|done].
  cbn. rewrite Hc. cbn. by destruct (bool_decide (sock c ≠ SRT_INVALID_SOCK)).
Qed.

Lemma stop_pending_loop_set_clients l queue : ∀ st,
  stop_pending_loop queue (set_clients l st)
  = set_clients l <$> stop_pending_loop queue st.
Proof.
  induction queue as [|p rest IH]; intros st; [done|]. cbn [stop_pending_loop].
  change (set_pending_clients rest (set_clients l st))
    with (set_clients l (set_pending_clients rest st)).
  rewrite discard_pending_client_set_clients.
  destruct (discard_pending_client p (set_pending_clients rest st)) as [st1|]; [|done].
  cbn. apply IH.
Qed.

(** [stop] frees every record and balances the signals; the registry
    invariant holds of what is left once the freed live list is set aside. *)
Lemma stop_spec st :
  sink_inv st →
  ∃ st', gst_srt_server_sink_stop st = Some st' ∧ sink_inv (set_clients [] st') ∧
    clients st' = clients st ∧ pending_clients st' = [] ∧ heap st' = ∅ ∧
    log st `prefix_of` log st'.
Proof.
  intros I. unfold gst_srt_server_sink_stop.
  pose proof (inv_nodup _ _ _ _ I) as Hnd.
  apply NoDup_app in Hnd as (Hnc & _ & _).
  assert (Hin : ∀ q, q ∈ clients st → is_Some (heap st !! q)).
  { intros q Hq. apply (inv_dom _ _ _ _ I). apply elem_of_app. by left. }
  rewrite emit_removed_all_eq by (unfold_setters; exact Hin). simpl.
  rewrite free_all_eq by (unfold_setters; done). simpl.
  match goal with |- ∃ st', stop_pending_loop _ ?s ≫= _ = _ ∧ _ =>
    change s with (set_clients (clients st) (set_clients [] s));
    rewrite stop_pending_loop_set_clients;
    destruct (stop_pending_loop_spec (pending_clients st) (set_clients [] s)) as
      (st' & Hrun & I' & Hp' & Hc' & Hl') end.
  - unfold sink_inv. simpl.
    apply registry_inv_log; [|apply quiet_closed_events].
    apply registry_inv_drop_all.
    do 3 (apply registry_inv_log; [|by repeat constructor]). exact I.
  - reflexivity.
  - rewrite Hrun. cbn [fmap option_fmap option_map mbind option_bind].
    eexists. split; [reflexivity|].
    assert (sink_inv (set_clients [] (emit g_async_queue_unref
                                        (set_clients (clients st) st')))) as I''.
    { unfold sink_inv in *. cbn in *. rewrite Hp' in *. rewrite Hc' in I'.
      apply registry_inv_log; [exact I' | by repeat constructor]. }
    split_and!; try done.
    + apply map_eq. intros q. rewrite lookup_empty.
      destruct (heap st' !! q) eqn:E; [|exact E].
      assert (q ∈ clients st' ++ pending_clients st') as Hq
        by (apply (inv_dom _ _ _ _ I'); by eexists).
      rewrite Hp', Hc' in Hq. by apply elem_of_nil in Hq.
    + cbn. etrans; [|apply prefix_app_r; exact Hl'].
      simpl. rewrite <- !app_assoc. by apply prefix_app_r.
Qed.

Lemma started_inv lsock eid : sink_inv (started lsock eid).
Proof.
  unfold sink_inv, started. simpl. constructor.
  - constructor.
  - intros p. rewrite lookup_empty. split; [by intros ?%elem_of_nil | by intros [? ?]].
  - intros p c. by rewrite lookup_empty.
  - intros p. rewrite lookup_empty. by intros [? ?].
  - done.
  - intros p. rewrite lookup_empty. by intros [? ?].
  - intros p _. unfold added, removed. simpl. lia.
  - apply removals_follow_additions_nil.
Qed.

Lemma step_inv a st :
  sink_inv st → ∃ st', step a st = Some st' ∧ sink_inv st' ∧
    (next_client st ≤ next_client st')%nat ∧
    (∀ q : client_ptr, (q < next_client st)%nat → heap st !! q = None → heap st' !! q = None).
Proof.
  intros I. destruct a as [fh ft e | w | |]; simpl.
  - destruct (thread_iter_inv fh ft e st I) as (ctl & st' & -> & I' & _ & Hn & Hh).
    exists st'. split_and!; try done. intros q Hq. by rewrite Hh.
  - destruct (send_buffer_spec w st I) as (st' & -> & I' & _ & Hn & _ & _ & Hh).
    exists st'. split_and!; try done; [lia|].
    intros q _ Hq. rewrite Hh, Hq. by repeat case_decide.
  - by exists (set_cancelled true st).
  - by exists (set_cancelled false st).
Qed.

Lemma run_inv acts : ∀ st,
  sink_inv st → ∃ st', run acts st = Some st' ∧ sink_inv st' ∧
    (next_client st ≤ next_client st')%nat ∧
    (∀ q : client_ptr, (q < next_client st)%nat → heap st !! q = None → heap st' !! q = None).
Proof.
  induction acts as [|a acts IH]; intros st I; simpl.
  - by exists st.
  - destruct (step_inv a st I) as (st1 & -> & I1 & Hn1 & Hh1). simpl.
    destruct (IH st1 I1) as (st' & Hrun & I' & Hn' & Hh').
    exists st'. split_and!; try done; [lia|].
    intros q Hq Hnone. apply Hh'; [lia|]. by apply Hh1.
Qed.

(** *** Reading the log of a delivery cycle *)

Lemma flat_map_elem {A B} (f : A → list B) (l : list A) (x : A) :
  x ∈ l → ∃ l1 l2, flat_map f l = l1 ++ f x ++ l2.
Proof.
  intros Hx. apply list_elem_of_split in Hx as (k1 & k2 & ->).
  exists (flat_map f k1), (flat_map f k2).
  rewrite flat_map_app. reflexivity.
Qed.

Lemma live_verdict_keep w c :
  live_verdict w c = Keep ↔ backpressure_evicts w c = false ∧ sendmsg_ok w (sock c) = true.
Proof.
  unfold live_verdict.
  destruct (backpressure_evicts w c), (sendmsg_ok w (sock c)); split; try done;
    by intros [? ?].
Qed.


Lemma pending_keep_is_Some w c : is_Some (pending_keep w c) ↔ pending_promoted w c = true.
Proof.
  unfold pending_keep. destruct (pending_promoted w c); split; try done;
    by intros [? ?].
Qed.

Lemma sock_live_record w c :
  sock (live_record w c) = sock c ∧ sockaddr (live_record w c) = sockaddr c.
Proof. unfold live_record. by destruct (can_client_recv w (sock c)). Qed.

Lemma close_events_valid c : sock c ≠ SRT_INVALID_SOCK → close_events c = [srt_close (sock c)].
Proof. intros H. unfold close_events. by rewrite bool_decide_eq_true_2. Qed.

Lemma reachable_inv lsock eid acts st :
  run acts (started lsock eid) = Some st → sink_inv st.
Proof.
  intros H. destruct (run_inv acts _ (started_inv lsock eid)) as (st' & H' & I & _).
  congruence.
Qed.

(** *** Properties of the registry *)

(** C2. At every point between the entry points of a session the live
    list and the pending queue hold no record twice and share none; a
    record held by either has had its client-added signal and no
    client-removed signal; a record held by neither has had exactly as many
    client-removed signals as client-added signals, at most one; and in
    every prefix of the log a removal is preceded by the addition.  [stop]
    then succeeds: every record is freed, the pending queue holds none when
    it is released, and every record that was ever added has been removed
    exactly once.  [stop] does not assign [priv->clients], which keeps the
    pointers of the freed list. *)
Theorem registry_invariant (lsock eid : Z) (acts : list action) :
  ∃ st, run acts (started lsock eid) = Some st ∧
    NoDup (clients st ++ pending_clients st) ∧
    (∀ p, p ∈ clients st → p ∉ pending_clients st) ∧
    (∀ p, p ∈ clients st ++ pending_clients st →
          added p (log st) = 1%nat ∧ removed p (log st) = 0%nat) ∧
    (∀ p, p ∉ clients st ++ pending_clients st →
          removed p (log st) = added p (log st) ∧ (added p (log st) ≤ 1)%nat) ∧
    removals_follow_additions (log st) ∧
    ∃ st', gst_srt_server_sink_stop st = Some st' ∧
      heap st' = ∅ ∧ pending_clients st' = [] ∧ clients st' = clients st ∧
      log st `prefix_of` log st' ∧
      (∀ p, removed p (log st') = added p (log st') ∧ (added p (log st') ≤ 1)%nat) ∧
      removals_follow_additions (log st').
Proof.
  destruct (run_inv acts _ (started_inv lsock eid)) as (st & Hrun & I & _).
  exists st. split; [exact Hrun|].
  pose proof (inv_nodup _ _ _ _ I) as Hnd.
  split; [exact Hnd|].
  split; [by apply NoDup_app in Hnd as (_ & ? & _)|].
  split; [intros p Hp; apply (inv_live _ _ _ _ I); by apply (inv_dom _ _ _ _ I)|].
  split.
  { intros p Hp. apply (inv_gone _ _ _ _ I).
    destruct (heap st !! p) eqn:E; [|reflexivity].
    exfalso. apply Hp. apply (inv_dom _ _ _ _ I). by eexists. }
  split; [apply I|].
  destruct (stop_spec st I) as (st' & Hstop & I' & Hc & Hp & Hh & Hpre).
  exists st'. split_and!; try done; [|apply I'].
  intros p. apply (inv_gone _ _ _ _ I'). cbn [set_clients heap].
  by rewrite Hh, lookup_empty.
Qed.

(** [stop] frees the live list without resetting [priv->clients]: after a
    [stop] with two live clients the field still holds the two pointers, the
    heap has no record for them, and a delivery cycle that followed would
    read a freed record. *)
Lemma stop_leaves_clients_dangling :
  ∃ st', gst_srt_server_sink_stop st_live56 = Some st' ∧
    clients st' = [1%nat; 0%nat] ∧ heap st' = ∅ ∧
    gst_srt_server_sink_send_buffer clear st' = None.
Proof. eexists. split; [vm_compute; reflexivity|]. by vm_compute. Qed.

(** C3. A client taken from the pending queue enters the live list only
    after its header send and then its send of the current buffer have both
    succeeded.  If either fails, the client-removed signal is emitted, the
    socket is closed, the record is freed without having been linked, and it
    is in neither container at any later point of the session. *)
Theorem pending_promotion (lsock eid : Z) (acts : list action)
    (st : GstSRTServerSinkPrivate) (w : transport) (p : client_ptr) (c : SRTClient) :
  run acts (started lsock eid) = Some st →
  p ∈ pending_clients st → heap st !! p = Some c →
  ∃ st', gst_srt_server_sink_send_buffer w st = Some (true, st') ∧
    pending_clients st' = [] ∧
    (∃ l1 l2, log st' = log st ++ l1 ++ pending_events w p c ++ l2) ∧
    (headers_ok w (sock c) = true ∧ sendmsg_ok w (sock c) = true →
       p ∈ clients st' ∧ removed p (log st') = 0%nat ∧
       pending_events w p c = [send_headers (sock c) true; srt_sendmsg2 (sock c) true]) ∧
    (headers_ok w (sock c) = false →
       pending_events w p c =
         [send_headers (sock c) false;
          client_removed p (sock c) (sockaddr c); srt_close (sock c)]) ∧
    (headers_ok w (sock c) = true ∧ sendmsg_ok w (sock c) = false →
       pending_events w p c =
         [send_headers (sock c) true; srt_sendmsg2 (sock c) false;
          client_removed p (sock c) (sockaddr c); srt_close (sock c)]) ∧
    (headers_ok w (sock c) = false ∨ sendmsg_ok w (sock c) = false →
       (p ∉ clients st') ∧ heap st' !! p = None ∧ removed p (log st') = 1%nat ∧
       ∀ acts' st'', run acts' st' = Some st'' →
         (p ∉ clients st'') ∧ (p ∉ pending_clients st'')).
Proof.
  intros Hrun Hin Hc. pose proof (reachable_inv _ _ _ _ Hrun) as I.
  destruct (send_buffer_spec w st I) as (st' & Hsb & I' & Hpend & Hnext & Hmem & Hlog & Hheap).
  exists st'. split; [exact Hsb|]. split; [exact Hpend|].
  pose proof (inv_nodup _ _ _ _ I) as Hnd.
  apply NoDup_app in Hnd as (_ & Hdisj & _).
  assert (p ∉ clients st) as Hnl by (intros ?; by destruct (Hdisj p)).
  assert (sock c ≠ SRT_INVALID_SOCK) as Hsock by (by apply (inv_sock _ _ _ _ I p)).
  assert (Hhp : heap st' !! p = pending_keep w c).
  { rewrite Hheap. rewrite decide_False by done. rewrite decide_True by done.
    by rewrite Hc. }
  split.
  { destruct (flat_map_elem (events_of (pending_events w) (heap st)) _ p Hin)
      as (k1 & k2 & Hk).
    unfold events_of at 2 in Hk. rewrite Hc in Hk.
    exists (flat_map (events_of (live_events w) (heap st)) (clients st) ++ k1), k2.
    rewrite Hlog, Hk, <- !app_assoc. reflexivity. }
  split.
  { intros [Hh Hs].
    assert (p ∈ clients st') as Hp'.
    { apply Hmem. right. split; [done|]. rewrite Hc. simpl.
      apply pending_keep_is_Some. unfold pending_promoted. by rewrite Hh, Hs. }
    split; [exact Hp'|]. split.
    - apply (inv_live _ _ _ _ I'). apply (inv_dom _ _ _ _ I').
      apply elem_of_app. by left.
    - unfold pending_events. by rewrite Hh, Hs. }
  split.
  { intros Hh. unfold pending_events, removal_events. rewrite Hh.
    by rewrite close_events_valid. }
  split.
  { intros [Hh Hs]. unfold pending_events, removal_events. rewrite Hh, Hs.
    by rewrite close_events_valid. }
  intros Hfail.
  assert (pending_keep w c = None) as Hk.
  { unfold pending_keep, pending_promoted.
    destruct Hfail as [-> | ->]; [done|]. by rewrite andb_false_r. }
  rewrite Hk in Hhp.
  assert (∀ s, sink_inv s → heap s !! p = None →
               (p ∉ clients s) ∧ (p ∉ pending_clients s)) as Hout.
  { intros s Is Hs. split; intros Hq;
      (assert (is_Some (heap s !! p)) as [? ?];
       [apply (inv_dom _ _ _ _ Is), elem_of_app; by auto | congruence]). }
  split; [by apply (Hout st' I' Hhp)|]. split; [exact Hhp|]. split.
  - destruct (inv_gone _ _ _ _ I' p Hhp) as [Heq Hle].
    destruct (inv_live _ _ _ _ I p) as [Ha _]; [by eexists|].
    rewrite Hlog, added_app in *. lia.
  - intros acts' st'' Hrun'.
    destruct (run_inv acts' st' I') as (s & Hs & Is & _ & Hfr).
    assert (s = st'') as -> by congruence.
    apply (Hout st'' Is). apply Hfr; [|exact Hhp].
    rewrite Hnext. apply (inv_fresh _ _ _ _ I). by eexists.
Qed.


Lemma accept_client_total e st :
  ∃ st' l, accept_client e st = Some st' ∧
    log st' = log st ++ srt_accept (accept_ret e) :: l.
Proof.
  unfold accept_client, srt_client_new, srt_client_free. setters.
  destruct (bool_decide (accept_ret e = SRT_INVALID_SOCK)) eqn:Hret.
  - rewrite lookup_insert_eq. cbn [mbind option_bind sock].
    apply bool_decide_eq_true in Hret.
    rewrite bool_decide_eq_false_2 by (intros H; by apply H).
    setters. eexists _, []. split; reflexivity.
  - eexists _, [_]. split; [reflexivity|]. cbn [log]. by rewrite <- app_assoc.
Qed.

(** C7, as the code has it.  A turn of the accept thread ends the loop
    exactly when the flag is read as set in the loop condition.  Otherwise
    the loop continues: a wait error other than a timeout is reported and
    nothing else happens; a timeout with the flag set by then changes
    nothing; a timeout with the flag still clear goes on to [srt_accept],
    like a wait that found the socket ready.  [thread_func] returns only
    after a turn that read the flag as set. *)
Theorem accept_turn_behaviour (flag_head flag_timeout : bool) (e : accept_env)
    (st : GstSRTServerSinkPrivate) :
  (flag_head = true → thread_iter flag_head flag_timeout e st = Some (LoopExit, st)) ∧
  (flag_head = false →
     ∃ st', thread_iter flag_head flag_timeout e st = Some (LoopContinue, st') ∧
       (∀ errno, wait_errno e = Some errno → errno ≠ SRT_ETIMEOUT →
          st' = emit element_error st) ∧
       (wait_errno e = Some SRT_ETIMEOUT → flag_timeout = true → st' = st) ∧
       ((wait_errno e = Some SRT_ETIMEOUT ∧ flag_timeout = false) ∨ wait_errno e = None →
          accept_client e st = Some st' ∧
          ∃ l, log st' = log st ++ srt_accept (accept_ret e) :: l)) ∧
  (∀ turns st', thread_func turns st = Some (true, st') →
     ∃ ft e', (true, ft, e') ∈ turns).
Proof.
  split_and!.
  - intros ->. reflexivity.
  - intros ->. unfold thread_iter.
    destruct (accept_client_total e st) as (sta & l & Ha & Hl).
    destruct (wait_errno e) as [errno|] eqn:Hw.
    + destruct (decide (errno = SRT_ETIMEOUT)) as [->|Hne].
      * rewrite bool_decide_eq_false_2 by (intros H; by apply H).
        rewrite bool_decide_eq_true_2 by done. simpl.
        destruct flag_timeout.
        -- exists st. split_and!; try done.
           ++ intros errno [= <-] ?. done.
           ++ intros [[_ ?] | ?]; done.
        -- rewrite Ha. simpl. exists sta. split_and!; try done.
           ++ intros errno [= <-] ?. done.
           ++ intros _. split; [done|]. by exists l.
      * rewrite bool_decide_eq_true_2 by done.
        exists (emit element_error st). split_and!; try done.
        -- intros [= ->]. done.
        -- intros [[[= ->] _] | ?]; done.
    + rewrite Ha. simpl. exists sta. split_and!; try done.
      intros _. split; [done|]. by exists l.
  - intros turns. revert st. induction turns as [|[[fh ft] e'] turns IH]; intros st st' H.
    + done.
    + simpl in H. destruct fh.
      * exists ft, e'. constructor.
      * destruct (thread_iter false ft e' st) as [[[|] st1]|] eqn:Hit; try done.
        -- unfold thread_iter in Hit. repeat case_match; simplify_option_eq; done.
        -- destruct (IH st1 st' H) as (ft' & e'' & Hin).
           exists ft', e''. by constructor.
Qed.

Lemma accept_turn_behaviour_witness :
  thread_iter false true (mkAcceptEnv (Some SRT_ETIMEOUT) 5 42) (started 3 1)
    = Some (LoopContinue, started 3 1) ∧
  thread_iter true false (mkAcceptEnv None 5 42) (started 3 1)
    = Some (LoopExit, started 3 1).
Proof.
  destruct (accept_turn_behaviour false true (mkAcceptEnv (Some SRT_ETIMEOUT) 5 42)
              (started 3 1)) as (_ & Hcont & _).
  destruct (Hcont eq_refl) as (st' & Hit & _ & Hsame & _).
  split.
  - rewrite Hit. by rewrite (Hsame eq_refl eq_refl).
  - by apply (accept_turn_behaviour true false (mkAcceptEnv None 5 42) (started 3 1)).
Defined.

(** The claim of C7 about timeouts fails: the wait times out, the flag is
    clear, and the turn goes on to accept a client. *)
Lemma timeout_turn_accepts :
  ∃ st', thread_iter false false (mkAcceptEnv (Some SRT_ETIMEOUT) 5 42) (started 3 1)
           = Some (LoopContinue, st') ∧
    log st' = [srt_accept 5; client_added 0%nat 5 (Some 42)] ∧
    pending_clients st' = [0%nat].
Proof. eexists. vm_compute. split_and!; reflexivity. Qed.

(** The counter of failed backpressure checks only grows: a passed check
    and a successful send leave it as it is. *)
Lemma live_record_pass w c :
  can_client_recv w (sock c) = true → live_record w c = c.
Proof. intros H. unfold live_record. by rewrite H. Qed.

(** The threshold evicts when the check fails with the counter at 9 or
    more, whenever those 9 failures happened. *)
Lemma backpressure_evicts_iff w c :
  backpressure_evicts w c = true ↔
  can_client_recv w (sock c) = false ∧ num_send_fails c >= MAX_SEND_FAILS - 1.
Proof.
  unfold backpressure_evicts, bump, MAX_SEND_FAILS. simpl.
  rewrite andb_true_iff, negb_true_iff, bool_decide_eq_true.
  split; intros [? ?]; (split; [done | lia]).
Qed.

(** Ten failed checks in a row, from a fresh counter: the client is live
    after the ninth and evicted by the tenth. *)
Lemma ten_failures_in_a_row_evict :
  (st ← run ([accepts 5; deliver clear] ++ replicate 9 (deliver blocked)) (started 3 1);
   c ← heap st !! 0%nat;
   Some (clients st, num_send_fails c, removed 0%nat (log st)))
    = Some ([0%nat], 9, 0%nat) ∧
  (st ← run ([accepts 5; deliver clear] ++ replicate 10 (deliver blocked)) (started 3 1);
   Some (clients st, heap st !! 0%nat, removed 0%nat (log st)))
    = Some ([], None, 1%nat).
Proof. split; vm_compute; reflexivity. Qed.

(** C1, where the code departs from it.  A client fails the check nine
    times, passes it once (the buffer is sent), and is then still live with
    its counter at 9; the very next failed check, the first after the
    success, evicts it. *)
Theorem backpressure_counter_survives_success :
  (st ← run nine_failures_then_success (started 3 1);
   c ← heap st !! 0%nat;
   Some (clients st, num_send_fails c, removed 0%nat (log st)))
    = Some ([0%nat], 9, 0%nat) ∧
  (st ← run (nine_failures_then_success ++ [deliver blocked]) (started 3 1);
   Some (clients st, heap st !! 0%nat, removed 0%nat (log st), last (log st)))
    = Some ([], None, 1%nat, Some (srt_close 5)).
Proof. split; vm_compute; reflexivity. Qed.

Lemma pending_promotion_witness :
  ∃ st', gst_srt_server_sink_send_buffer clear st_pending5 = Some (true, st') ∧
    pending_clients st' = [] ∧ 0%nat ∈ clients st'.
Proof.
  destruct (pending_promotion 3 1 [accepts 5] st_pending5 clear 0%nat
              (mkClient 5 (Some 42) 0))
    as (st' & Hsb & Hp & _ & Hok & _).
  - vm_compute. reflexivity.
  - constructor.
  - vm_compute. reflexivity.
  - exists st'. split; [exact Hsb|]. split; [exact Hp|].
    apply Hok. split; reflexivity.
Defined.


End ServerSinkProofs.

(** ** The connect helper *)
Module ConnectProofs.
Import Connect.

Local Open Scope string_scope.
Local Open Scope list_scope.

Ltac exec :=
  cbv beta iota zeta delta
    [bind ret goto_failed do_call set_sock set_poll_id set_socket_address
     get_frame when log_to sock poll_id socket_address calls].

Lemma apply_socket_options_eq a s fr :
  apply_socket_options a s fr =
    (Some tt, log_to fr (map (λ ov, srt_setsockopt s ov.1 ov.2) (socket_option_profile a))).
Proof.
  unfold apply_socket_options, socket_option_profile, passphrase_given, b2z.
  destruct fr as [fs fp fa fc].
  destruct (is_sender a), (rendezvous a), (passphrase a) as [[|ch pw]|]; exec; simpl;
    rewrite <- ?app_assoc; reflexivity.
Qed.

Lemma neutral_options s l : neutral (map (λ ov, srt_setsockopt s ov.1 ov.2) l).
Proof.
  unfold neutral, created_pollers, created_sockets, released, closed.
  induction l as [|[o v] l IH]; simpl; [done|]. exact IH.
Qed.

Lemma sockopts_of_options s l :
  sockopts_of s (map (λ ov, srt_setsockopt s ov.1 ov.2) l) = l.
Proof.
  unfold sockopts_of. induction l as [|[o v] l IH]; simpl; [done|].
  rewrite bool_decide_eq_true_2 by done. simpl. by rewrite IH.
Qed.

Lemma bind_socket_eq w a s fr :
  ∃ l, bind_socket w a s fr =
         (match bind_failure w a with Some _ => None | None => Some tt end, log_to fr l) ∧
       neutral l ∧ (∀ s', sockopts_of s' l = []) ∧ registered l = [].
Proof.
  unfold bind_socket, bind_failure, wants_bind. destruct fr as [fs fp fa fc].
  destruct (_ || _ || _).
  - destruct (g_inet_socket_address_new_from_string w _ _) as [bsa|].
    + destruct (g_socket_address_to_native w bsa); simpl.
      * destruct (bool_decide (bind_ret w = SRT_ERROR)); exec; simpl.
        -- eexists. rewrite <- app_assoc. split; [reflexivity|]. by cbv.
        -- eexists. split; [reflexivity|]. by cbv.
      * exec. eexists. split; [reflexivity|]. by cbv.
    + exec. eexists. split; [reflexivity|]. by cbv.
  - exec. exists []. rewrite app_nil_r. split; [reflexivity|]. by cbv.
Qed.

Lemma connect_socket_eq w a s sa fr :
  ∃ l, connect_socket w a s sa fr =
         (match connect_failure w with Some _ => None | None => Some s end, log_to fr l) ∧
       neutral l ∧ (∀ s', sockopts_of s' l = []) ∧
       (connect_failure w = None →
        registered l = [(poll_id fr, s,
                         if is_sender a
                         then Z.lor (Z.lor SRT_EPOLL_IN SRT_EPOLL_OUT) SRT_EPOLL_ERR
                         else Z.lor SRT_EPOLL_IN SRT_EPOLL_ERR)]).
Proof.
  unfold connect_socket, connect_failure. destruct fr as [fs fp fa fc].
  destruct (bool_decide (connect_ret w = SRT_ERROR)); exec; simpl.
  - eexists. rewrite <- app_assoc. split; [reflexivity|]. by cbv.
  - destruct (sockstate w); eexists; rewrite <- ?app_assoc;
      (split; [reflexivity|]); by cbv.
Qed.

Lemma failed_eq fr :
  failed fr =
    (Some SRT_INVALID_SOCK,
     mkFrame SRT_INVALID_SOCK SRT_ERROR None
       (calls fr
        ++ (if bool_decide (poll_id fr = SRT_ERROR) then []
            else [srt_epoll_release (poll_id fr)])
        ++ (if bool_decide (sock fr = SRT_INVALID_SOCK) then []
            else [srt_close (sock fr)]))).
Proof.
  unfold failed. destruct fr as [fs fp fa fc]. exec.
  rewrite !bool_decide_not.
  destruct (bool_decide_reflect (fp = SRT_ERROR)),
           (bool_decide_reflect (fs = SRT_INVALID_SOCK));
    subst; simpl; rewrite <- ?app_assoc, ?app_nil_r; reflexivity.
Qed.

Lemma created_pollers_app l1 l2 :
  created_pollers (l1 ++ l2) = created_pollers l1 ++ created_pollers l2.
Proof. apply flat_map_app. Qed.

Lemma created_sockets_app l1 l2 :
  created_sockets (l1 ++ l2) = created_sockets l1 ++ created_sockets l2.
Proof. apply flat_map_app. Qed.

Lemma released_app l1 l2 : released (l1 ++ l2) = released l1 ++ released l2.
Proof. apply flat_map_app. Qed.

Lemma closed_app l1 l2 : closed (l1 ++ l2) = closed l1 ++ closed l2.
Proof. apply flat_map_app. Qed.

Lemma sockopts_of_app s l1 l2 :
  sockopts_of s (l1 ++ l2) = sockopts_of s l1 ++ sockopts_of s l2.
Proof. apply flat_map_app. Qed.

Lemma registered_app l1 l2 : registered (l1 ++ l2) = registered l1 ++ registered l2.
Proof. apply flat_map_app. Qed.

Ltac handles :=
  rewrite ?created_pollers_app, ?created_sockets_app, ?released_app, ?closed_app.

Lemma registered_options s l :
  registered (map (λ ov, srt_setsockopt s ov.1 ov.2) l) = [].
Proof.
  unfold registered. induction l as [|[o v] l IH]; simpl; [done|exact IH].
Qed.

Lemma sockopts_of_other s s' l :
  s' ≠ s → sockopts_of s' (map (λ ov, srt_setsockopt s ov.1 ov.2) l) = [].
Proof.
  intros Hne. unfold sockopts_of. induction l as [|[o v] l IH]; simpl; [done|].
  rewrite bool_decide_eq_false_2 by done. exact IH.
Qed.

(** The body, run from the frame on entry. *)
Lemma connect_body_spec w a pin sa_in :
  ∃ o fr, connect_body w a (mkFrame SRT_INVALID_SOCK pin sa_in []) = (o, fr) ∧
    released (calls fr) = [] ∧ closed (calls fr) = [] ∧
    (∀ s, sockopts_of s (calls fr) =
          if bool_decide (s ∈ created_sockets (calls fr))
          then socket_option_profile a else []) ∧
    match first_failure w a with
    | Some fp =>
        o = None ∧
        created_pollers (calls fr) = (created_before w fp).1 ∧
        created_sockets (calls fr) = (created_before w fp).2 ∧
        poll_id fr = poll_id_at w pin fp ∧
        (fp = MultiplexerInit → epoll_create_ret w = -1) ∧
        sock fr = hd SRT_INVALID_SOCK (created_before w fp).2 ∧
        Forall (λ x, x ≠ -1) (created_before w fp).1 ∧
        Forall (λ x, x ≠ -1) (created_before w fp).2
    | None =>
        o = Some (socket_ret w) ∧ socket_ret w ≠ -1 ∧ epoll_create_ret w ≠ -1 ∧
        poll_id fr = epoll_create_ret w ∧ sock fr = socket_ret w ∧
        created_pollers (calls fr) = [epoll_create_ret w] ∧
        created_sockets (calls fr) = [socket_ret w] ∧
        registered (calls fr) =
          [(epoll_create_ret w, socket_ret w,
            if is_sender a
            then Z.lor (Z.lor SRT_EPOLL_IN SRT_EPOLL_OUT) SRT_EPOLL_ERR
            else Z.lor SRT_EPOLL_IN SRT_EPOLL_ERR)]
    end.
Proof.
  unfold connect_body, first_failure.
  destruct (host a) as [h|].
  2: { exec. eexists _, _. split; [reflexivity|]. by cbv. }
  destruct (g_inet_socket_address_new_from_string w h (port a)) as [sa|].
  2: { exec. eexists _, _. split; [reflexivity|]. by cbv. }
  unfold SRT_ERROR, SRT_INVALID_SOCK in *.
  destruct (bool_decide_reflect (epoll_create_ret w = -1)) as [He|He].
  { exec. eexists _, _. split; [reflexivity|]. rewrite He. by cbv. }
  assert (Hcp : created_pollers [srt_epoll_create (epoll_create_ret w)]
                = [epoll_create_ret w]).
  { unfold created_pollers. simpl. by rewrite (bool_decide_eq_false_2 _ He). }
  destruct (g_socket_address_to_native w sa); cbn [negb].
  2: { exec. eexists _, _. split; [reflexivity|]. cbn [calls].
       change (([] ++ [srt_epoll_create (epoll_create_ret w)]) ++
               [element_error "Invalid address"])
         with ([srt_epoll_create (epoll_create_ret w)] ++
               [element_error "Invalid address"]).
       rewrite created_pollers_app, Hcp. split_and!; try done.
       by repeat constructor. }
  destruct (bool_decide_reflect (socket_ret w = -1)) as [Hs|Hs].
  { exec. eexists _, _. split; [reflexivity|]. cbn [calls].
    change (([] ++ ?x) ++ ?y) with (x ++ y).
    rewrite !created_pollers_app, Hcp.
    unfold created_sockets, sockopts_of, released, closed. simpl.
    rewrite (bool_decide_eq_true_2 _ Hs). split_and!; try done.
    by repeat constructor. }
  assert (Hcs : created_sockets [srt_socket (sa_family sa) (socket_ret w)]
                = [socket_ret w]).
  { unfold created_sockets. simpl. by rewrite (bool_decide_eq_false_2 _ Hs). }
  exec. rewrite apply_socket_options_eq. exec.
  match goal with |- context [bind_socket w a ?s ?fr] =>
    destruct (bind_socket_eq w a s fr) as (lb & -> & Hnb & Hob & Hrb) end.
  destruct Hnb as (Hb1 & Hb2 & Hb3 & Hb4).
  pose proof (neutral_options (socket_ret w) (socket_option_profile a))
    as (Ho1 & Ho2 & Ho3 & Ho4).
  assert (Hopts : ∀ s l, (∀ s', sockopts_of s' l = []) →
            sockopts_of s
              (((([] ++ [srt_epoll_create (epoll_create_ret w)]) ++
                 [srt_socket (sa_family sa) (socket_ret w)]) ++
                map (λ ov, srt_setsockopt (socket_ret w) ov.1 ov.2)
                    (socket_option_profile a)) ++ l) =
            if bool_decide (s ∈ [socket_ret w]) then socket_option_profile a else []).
  { intros s l Hl. rewrite !sockopts_of_app, Hl, app_nil_r.
    destruct (decide (s = socket_ret w)) as [->|Hne].
    - rewrite sockopts_of_options. rewrite bool_decide_eq_true_2; [done|constructor].
    - rewrite sockopts_of_other by done.
      rewrite bool_decide_eq_false_2; [done|]. by intros ?%list_elem_of_singleton. }
  destruct (bind_failure w a) as [fp|] eqn:Hbf.
  { exec. eexists _, _. split; [reflexivity|]. cbn [calls].
    assert (fp = BindParse ∨ fp = BindResolution ∨ fp = BindFailure) as Hfp.
    { unfold bind_failure in Hbf. repeat case_match; simplify_eq; auto. }
    rewrite !created_pollers_app, !created_sockets_app, !released_app, !closed_app.
    rewrite Hb1, Hb2, Hb3, Hb4, Ho1, Ho2, Ho3, Ho4, Hcp, Hcs.
    split; [done|]. split; [done|]. split; [intros s; apply Hopts, Hob|].
    destruct Hfp as [-> | [-> | ->]]; split_and!; try done; by repeat constructor. }
  exec.
  match goal with |- context [connect_socket w a ?s ?sa ?fr] =>
    destruct (connect_socket_eq w a s sa fr) as (lc & -> & Hnc & Hoc & Hrc) end.
  destruct Hnc as (Hc1 & Hc2 & Hc3 & Hc4).
  exec. eexists _, _. split; [reflexivity|]. cbn [calls].
  rewrite !created_pollers_app, !created_sockets_app, !released_app, !closed_app,
    !registered_app.
  rewrite Hb1, Hb2, Hb3, Hb4, Ho1, Ho2, Ho3, Ho4, Hc1, Hc2, Hc3, Hc4, Hcp, Hcs, Hrb,
    registered_options.
  split; [done|]. split; [done|]. split.
  { intros s. rewrite <- app_assoc. apply Hopts. intros s'.
    by rewrite sockopts_of_app, Hob, Hoc. }
  destruct (connect_failure w) as [fp|] eqn:Hcf.
  - assert (fp = ConnectFailure ∨ fp = NotConnected) as Hfp.
    { unfold connect_failure in Hcf. repeat case_match; simplify_eq; auto. }
    destruct Hfp as [-> | ->]; split_and!; try done; by repeat constructor.
  - rewrite Hrc by done. split_and!; done.
Qed.

(** The helper from entry to return, in terms of the body and the
    [failed:] block. *)
Lemma connect_full_unfold w a pin sa_in o fr :
  connect_body w a (mkFrame SRT_INVALID_SOCK pin sa_in []) = (o, fr) →
  gst_srt_client_connect_full w a pin sa_in =
    match o with
    | Some s => (s, fr)
    | None =>
        (SRT_INVALID_SOCK,
         mkFrame SRT_INVALID_SOCK SRT_ERROR None
           (calls fr
            ++ (if bool_decide (poll_id fr = SRT_ERROR) then []
                else [srt_epoll_release (poll_id fr)])
            ++ (if bool_decide (sock fr = SRT_INVALID_SOCK) then []
                else [srt_close (sock fr)])))
    end.
Proof.
  intros H. unfold gst_srt_client_connect_full. rewrite H.
  destruct o; [reflexivity|]. by rewrite failed_eq.
Qed.

(** C4. Called with no multiplexer held in [*poll_id], as the client
    receiver's [start] calls it, the helper fails exactly at the failure
    points of the design document.  At each of them it returns the invalid
    socket, leaves the invalid multiplexer id and no address in the
    out-parameters, and its log shows one release for the multiplexer and one
    close for the socket it had created by then, and no other release or
    close.  When no check fails it returns the created socket, registered
    with the created multiplexer, and releases and closes nothing. *)
Theorem connect_rollback (w : world) (a : args) (sa_in : option GSocketAddress) :
  let r := gst_srt_client_connect_full w a SRT_ERROR sa_in in
  match first_failure w a with
  | Some fp =>
      r.1 = SRT_INVALID_SOCK ∧
      poll_id r.2 = SRT_ERROR ∧ sock r.2 = SRT_INVALID_SOCK ∧
      socket_address r.2 = None ∧
      created_pollers (calls r.2) = (created_before w fp).1 ∧
      released (calls r.2) = (created_before w fp).1 ∧
      created_sockets (calls r.2) = (created_before w fp).2 ∧
      closed (calls r.2) = (created_before w fp).2
  | None =>
      r.1 = socket_ret w ∧ r.1 ≠ SRT_INVALID_SOCK ∧
      poll_id r.2 = epoll_create_ret w ∧ poll_id r.2 ≠ SRT_ERROR ∧
      created_pollers (calls r.2) = [epoll_create_ret w] ∧
      created_sockets (calls r.2) = [socket_ret w] ∧
      released (calls r.2) = [] ∧ closed (calls r.2) = [] ∧
      registered (calls r.2) =
        [(epoll_create_ret w, socket_ret w,
          if is_sender a
          then Z.lor (Z.lor SRT_EPOLL_IN SRT_EPOLL_OUT) SRT_EPOLL_ERR
          else Z.lor SRT_EPOLL_IN SRT_EPOLL_ERR)]
  end.
Proof.
  intros r. subst r.
  destruct (connect_body_spec w a SRT_ERROR sa_in) as (o & fr & Hb & Hrel & Hcl & _ & H).
  rewrite (connect_full_unfold _ _ _ _ _ _ Hb).
  destruct (first_failure w a) as [fp|].
  - destruct H as (-> & Hcp & Hcs & Hp & Hmi & Hs & Fp & Fs). cbn [fst snd calls poll_id sock socket_address].
    rewrite !created_pollers_app, !created_sockets_app, !released_app, !closed_app,
      Hrel, Hcl, Hcp, Hcs, Hp, Hs.
    unfold SRT_ERROR, SRT_INVALID_SOCK in *.
    destruct fp; cbn [created_before poll_id_at fst snd hd] in *;
      rewrite ?(Hmi eq_refl);
      repeat match goal with
             | H : Forall _ (_ :: _) |- _ => apply Forall_cons in H as [? ?]
             end;
      rewrite ?bool_decide_eq_true_2 by done;
      rewrite ?bool_decide_eq_false_2 by done;
      by cbv.
  - destruct H as (-> & Hs & He & Hp & Hsk & Hcp & Hcs & Hreg).
    cbn [fst snd]. by rewrite Hp.
Qed.

(** Every failure point is reached by some answers of the environment. *)
Lemma every_failure_point_reachable (fp : failure_point) :
  ∃ w a, first_failure w a = Some fp.
Proof.
  set (ok := λ (h : string) (p : Z), Some (mkAddr 2 h p)).
  set (no := λ (h : string) (p : Z), @None GSocketAddress).
  set (only := λ (h : string) (p : Z),
         if bool_decide (p = 7001) then Some (mkAddr 2 h p) else None).
  set (a0 := mkArgs false (Some "10.0.0.1") 7001 false None 0 125 None 16).
  set (a1 := mkArgs false (Some "10.0.0.1") 7001 false None 9000 125 None 16).
  destruct fp.
  - by exists (mkWorld ok (λ _, true) 1 7 0 0 SRTS_CONNECTED 0),
             (mkArgs false None 7001 false None 0 125 None 16).
  - by exists (mkWorld no (λ _, true) 1 7 0 0 SRTS_CONNECTED 0), a0.
  - by exists (mkWorld ok (λ _, true) (-1) 7 0 0 SRTS_CONNECTED 0), a0.
  - by exists (mkWorld ok (λ _, false) 1 7 0 0 SRTS_CONNECTED 0), a0.
  - by exists (mkWorld ok (λ _, true) 1 (-1) 0 0 SRTS_CONNECTED 0), a0.
  - by exists (mkWorld only (λ _, true) 1 7 0 0 SRTS_CONNECTED 0), a1.
  - by exists (mkWorld ok (λ sa, bool_decide (sa_port sa = 7001)) 1 7 0 0 SRTS_CONNECTED 0), a1.
  - by exists (mkWorld ok (λ _, true) 1 7 (-1) 0 SRTS_CONNECTED 0), a1.
  - by exists (mkWorld ok (λ _, true) 1 7 0 (-1) SRTS_CONNECTED 0), a0.
  - by exists (mkWorld ok (λ _, true) 1 7 0 0 SRTS_BROKEN 0), a0.
Qed.

(** Entered with a multiplexer id still in [*poll_id], a call that fails
    before creating its own releases the caller's. *)
Lemma connect_releases_entry_poll_id :
  let r := gst_srt_client_connect_full
             (mkWorld (λ h p, Some (mkAddr 2 h p)) (λ _, true) 1 7 0 0 SRTS_CONNECTED 0)
             (mkArgs false None 7001 false None 0 125 None 16) 4 None in
  r.1 = SRT_INVALID_SOCK ∧ created_pollers (calls r.2) = [] ∧ released (calls r.2) = [4].
Proof. by vm_compute. Qed.

#[local] Set Warnings "-clear-no-such-hyp".

(** What the profile holds, whatever the role and the passphrase. *)
Lemma socket_option_profile_facts a :
  let opts := socket_option_profile a in
  (SRTO_TSBPDMODE, OptInt 1) ∈ opts ∧
  (SRTO_LINGER, OptInt 0) ∈ opts ∧
  (SRTO_SENDER, OptInt (if is_sender a then 1 else 0)) ∈ opts ∧
  (if is_sender a then SRTO_PEERLATENCY else SRTO_RCVLATENCY, OptInt (latency a)) ∈ opts ∧
  ((if is_sender a then SRTO_RCVLATENCY else SRTO_PEERLATENCY) ∉ opts.*1) ∧
  (SRTO_RENDEZVOUS, OptInt (if rendezvous a then 1 else 0)) ∈ opts ∧
  (∀ pw, (SRTO_PASSPHRASE, OptStr pw) ∈ opts ↔ passphrase a = Some pw ∧ pw ≠ "") ∧
  (SRTO_PASSPHRASE ∈ opts.*1 ↔ ∃ pw, passphrase a = Some pw ∧ pw ≠ "") ∧
  (SRTO_PBKEYLEN ∈ opts.*1 ↔ ∃ pw, passphrase a = Some pw ∧ pw ≠ "") ∧
  (SRTO_PBKEYLEN ∈ opts.*1 → (SRTO_PBKEYLEN, OptInt (key_length a)) ∈ opts) ∧
  (SRTO_SNDSYN ∉ opts.*1).
Proof.
  unfold socket_option_profile.
  destruct (is_sender a), (rendezvous a), (passphrase a) as [[|ch pw]|];
    cbn [app fmap list_fmap fst]; split_and!; set_solver.
Qed.

(** The claim of C5 about the send mode fails: a sender connects, and no
    assignment of [SRTO_SNDSYN] is among the options set on its socket. *)
Lemma profile_lacks_nonblocking_send :
  let r := gst_srt_client_connect_full
             (mkWorld (λ h p, Some (mkAddr 2 h p)) (λ _, true) 1 7 0 0 SRTS_CONNECTED 0)
             (mkArgs true (Some "10.0.0.1") 7001 false None 0 125 None 16)
             SRT_ERROR None in
  r.1 = 7 ∧
  sockopts_of 7 (calls r.2) =
    [(SRTO_TSBPDMODE, OptInt 1); (SRTO_LINGER, OptInt 0); (SRTO_SENDER, OptInt 1);
     (SRTO_PEERLATENCY, OptInt 125); (SRTO_RENDEZVOUS, OptInt 0)] ∧
  (SRTO_SNDSYN ∉ (sockopts_of 7 (calls r.2)).*1).
Proof.
  vm_compute. split_and!; [reflexivity | reflexivity | set_solver].
Qed.

(** C5, as the code has it.  On every socket the helper creates, whether
    or not the connection then succeeds, the options assigned are, in this
    order: TSBPD mode on, linger off, the sender flag of the role, the
    latency on the peer-latency option for a sender and on the
    receive-latency option for a receiver (and not on the other one), the
    rendezvous flag, and the passphrase followed by the key length exactly
    when the passphrase is given and not empty.  The send mode is not
    assigned. *)
Theorem socket_options_applied (w : world) (a : args) (pin : Z)
    (sa_in : option GSocketAddress) (s : Z) :
  let r := gst_srt_client_connect_full w a pin sa_in in
  let opts := sockopts_of s (calls r.2) in
  s ∈ created_sockets (calls r.2) →
  opts = socket_option_profile a ∧
  (SRTO_TSBPDMODE, OptInt 1) ∈ opts ∧
  (SRTO_LINGER, OptInt 0) ∈ opts ∧
  (SRTO_SENDER, OptInt (if is_sender a then 1 else 0)) ∈ opts ∧
  (if is_sender a then SRTO_PEERLATENCY else SRTO_RCVLATENCY, OptInt (latency a)) ∈ opts ∧
  ((if is_sender a then SRTO_RCVLATENCY else SRTO_PEERLATENCY) ∉ opts.*1) ∧
  (SRTO_RENDEZVOUS, OptInt (if rendezvous a then 1 else 0)) ∈ opts ∧
  (∀ pw, (SRTO_PASSPHRASE, OptStr pw) ∈ opts ↔ passphrase a = Some pw ∧ pw ≠ "") ∧
  (SRTO_PASSPHRASE ∈ opts.*1 ↔ ∃ pw, passphrase a = Some pw ∧ pw ≠ "") ∧
  (SRTO_PBKEYLEN ∈ opts.*1 ↔ ∃ pw, passphrase a = Some pw ∧ pw ≠ "") ∧
  (SRTO_PBKEYLEN ∈ opts.*1 → (SRTO_PBKEYLEN, OptInt (key_length a)) ∈ opts) ∧
  (SRTO_SNDSYN ∉ opts.*1).
Proof.
  intros r opts Hs. subst r opts.
  destruct (connect_body_spec w a pin sa_in) as (o & fr & Hb & Hrel & Hcl & Hopts & _).
  rewrite (connect_full_unfold _ _ _ _ _ _ Hb) in *.
  assert (Hcalls : ∀ l, (∀ s', sockopts_of s' l = []) → created_sockets l = [] →
            s ∈ created_sockets (calls fr ++ l) →
            sockopts_of s (calls fr ++ l) = socket_option_profile a).
  { intros l Hl1 Hl2. rewrite created_sockets_app, sockopts_of_app, Hl1, Hl2, !app_nil_r.
    intros Hin. rewrite Hopts. by rewrite bool_decide_eq_true_2. }
  assert (sockopts_of s (calls (match o with
            | Some s0 => (s0, fr)
            | None => (SRT_INVALID_SOCK,
                 mkFrame SRT_INVALID_SOCK SRT_ERROR None
                   (calls fr
                    ++ (if bool_decide (poll_id fr = SRT_ERROR) then []
                        else [srt_epoll_release (poll_id fr)])
                    ++ (if bool_decide (sock fr = SRT_INVALID_SOCK) then []
                        else [srt_close (sock fr)])))
            end).2) = socket_option_profile a) as ->.
  { destruct o.
    - cbn [snd] in *. specialize (Hcalls []). rewrite app_nil_r in Hcalls.
      by apply Hcalls.
    - cbn [snd calls] in *. apply Hcalls; [| |done];
        destruct (bool_decide (poll_id fr = SRT_ERROR)),
                 (bool_decide (sock fr = SRT_INVALID_SOCK)); by cbv. }
  split; [reflexivity|]. apply socket_option_profile_facts.
Qed.

Lemma socket_options_applied_witness :
  sockopts_of 7 (calls (gst_srt_client_connect_full
      (mkWorld (λ h p, Some (mkAddr 2 h p)) (λ _, true) 1 7 0 0 SRTS_CONNECTED 0)
      (mkArgs false (Some "10.0.0.1") 7001 false None 0 125 (Some "secret") 16)
      SRT_ERROR None).2)
  = [(SRTO_TSBPDMODE, OptInt 1); (SRTO_LINGER, OptInt 0); (SRTO_SENDER, OptInt 0);
     (SRTO_RCVLATENCY, OptInt 125); (SRTO_RENDEZVOUS, OptInt 0);
     (SRTO_PASSPHRASE, OptStr "secret"); (SRTO_PBKEYLEN, OptInt 16)].
Proof.
  refine (proj1 (socket_options_applied
      (mkWorld (λ h p, Some (mkAddr 2 h p)) (λ _, true) 1 7 0 0 SRTS_CONNECTED 0)
      (mkArgs false (Some "10.0.0.1") 7001 false None 0 125 (Some "secret") 16)
      SRT_ERROR None 7 _)).
  vm_compute. constructor.
Defined.

End ConnectProofs.

(** ** The client receiver *)
Module ClientSrcProofs.
Import ClientSrc.

Local Open Scope string_scope.
Local Open Scope list_scope.

Lemma wrap32_small x : - 2 ^ 31 <= x < 2 ^ 31 → wrap32 x = x.
Proof. intros H. unfold wrap32. rewrite Z.mod_small by lia. lia. Qed.

(** A successful fill, with the sequence numbers in the range of a
    non-negative [int]. *)
Lemma fill_received e st outbuf m :
  receives e m → 0 <= last_msg_num st < 2 ^ 31 → 0 <= m < 2 ^ 31 →
  let r := gst_srt_client_src_fill e st outbuf in
  flow r = GST_FLOW_OK ∧ last_msg_num (state r) = m ∧
  dropped_counts (diagnostics r) =
    if bool_decide (last_msg_num st ≠ 0 ∧ m - last_msg_num st > 1)
    then [m - last_msg_num st - 1] else [].
Proof.
  intros (Hmap & Herr & Hzero & <-) Hl Hm. unfold gst_srt_client_src_fill.
  rewrite Hmap. cbn [negb].
  rewrite (bool_decide_eq_false_2 _ Herr), (bool_decide_eq_false_2 _ Hzero).
  cbn [flow state diagnostics set_last_msg_num last_msg_num].
  split; [done|]. split; [done|].
  rewrite !wrap32_small by (rewrite ?wrap32_small; lia).
  unfold dropped_counts. rewrite flat_map_app.
  assert (flat_map (λ d, match d with dropped n _ _ => [n] | _ => [] end)
            (if bool_decide (recv_len e ≠ 1316) then [weird_size (recv_len e)] else [])
          = []) as -> by (by destruct (bool_decide _)).
  cbn [app].
  destruct (bool_decide_reflect (last_msg_num st ≠ 0)) as [H0|H0];
    destruct (bool_decide_reflect (msgno (ctrl e) - last_msg_num st > 1)) as [H1|H1];
    cbn [andb flat_map app].
  - by rewrite bool_decide_eq_true_2.
  - rewrite bool_decide_eq_false_2; [done|]. by intros [_ ?].
  - rewrite bool_decide_eq_false_2; [done|]. by intros [? _].
  - rewrite bool_decide_eq_false_2; [done|]. by intros [? _].
Qed.

(** C8. With the buffer mapped, a receive call that returns zero makes
    [fill] return end-of-stream; one that returns [SRT_ERROR] makes it post a
    read error and return a flow error, with the element as it was; any
    other value makes it return success, and the buffer then holds the bytes
    the call stored, cut to the returned length. *)
Theorem fill_result (len : Z) (bytes : list Z) (c : SRT_MSGCTRL) (clock base : Z)
    (st : GstSRTClientSrcPrivate) (outbuf : GstBuffer) :
  let r := gst_srt_client_src_fill (mkFillEnv true len bytes c clock base) st outbuf in
  (len = 0 → flow r = GST_FLOW_EOS ∧ state r = st ∧ diagnostics r = []) ∧
  (len = SRT_ERROR →
     flow r = GST_FLOW_ERROR ∧ state r = st ∧
     diagnostics r = [element_error "srt_recvmsg error"]) ∧
  (len ≠ 0 → len ≠ SRT_ERROR →
     flow r = GST_FLOW_OK ∧
     data (buffer r) = take (Z.to_nat len) (store (data outbuf) bytes) ∧
     (Z.of_nat (length bytes) = len → (length bytes ≤ length (data outbuf))%nat →
        data (buffer r) = bytes)).
Proof.
  intros r. subst r. unfold gst_srt_client_src_fill. cbn [map_ok negb recv_len recv_bytes].
  split_and!.
  - intros ->. by cbv.
  - intros ->. by cbv.
  - intros H0 He.
    rewrite (bool_decide_eq_false_2 _ He), (bool_decide_eq_false_2 _ H0).
    cbn [flow buffer data]. split_and!; try done.
    intros <- Hle. rewrite Nat2Z.id. unfold store.
    rewrite take_take, Nat.min_l by lia. by rewrite take_app_length.
Qed.

Lemma fill_result_witness :
  flow (gst_srt_client_src_fill (mkFillEnv true 0 [] (mkCtrl 0 0) 10 4)
          (mkPriv 7 1 (-1) 0 false None 0) (mkBuffer [0; 0; 0] None None))
    = GST_FLOW_EOS ∧
  flow (gst_srt_client_src_fill (mkFillEnv true (-1) [] (mkCtrl 0 0) 10 4)
          (mkPriv 7 1 (-1) 0 false None 0) (mkBuffer [0; 0; 0] None None))
    = GST_FLOW_ERROR ∧
  data (buffer (gst_srt_client_src_fill (mkFillEnv true 2 [71; 64] (mkCtrl 1 0) 10 4)
          (mkPriv 7 1 (-1) 0 false None 0) (mkBuffer [0; 0; 0] None None)))
    = [71; 64].
Proof.
  split_and!.
  - apply (fill_result 0 [] (mkCtrl 0 0) 10 4). reflexivity.
  - apply (fill_result (-1) [] (mkCtrl 0 0) 10 4). reflexivity.
  - apply (fill_result 2 [71; 64] (mkCtrl 1 0) 10 4); [done | done | done | simpl; lia].
Defined.

(** C9. After [start], fills that receive the messages numbered 5, 6 and 9
    report a gap once, in the third fill, with a count of 2, and leave 9 as
    the last number seen.  In general, for sequence numbers in the range of a
    non-negative [int], a successful fill reports a gap exactly when the last
    number seen is not zero and the new one exceeds it by more than one; the
    count is the difference less one; and the new number becomes the last
    one seen. *)
Theorem gap_diagnostic :
  (∀ e1 e2 e3 s eid st0 outbuf,
     receives e1 5 → receives e2 6 → receives e3 9 →
     fills [e1; e2; e3] (started s eid st0) outbuf =
       (set_last_msg_num 9 (started s eid st0),
        [(GST_FLOW_OK, []); (GST_FLOW_OK, []); (GST_FLOW_OK, [2])])) ∧
  (∀ e st outbuf m,
     receives e m → 0 <= last_msg_num st < 2 ^ 31 → 0 <= m < 2 ^ 31 →
     let r := gst_srt_client_src_fill e st outbuf in
     flow r = GST_FLOW_OK ∧ last_msg_num (state r) = m ∧
     dropped_counts (diagnostics r) =
       if bool_decide (last_msg_num st ≠ 0 ∧ m - last_msg_num st > 1)
       then [m - last_msg_num st - 1] else []).
Proof.
  split; [|apply fill_received].
  intros e1 e2 e3 s eid st0 outbuf H1 H2 H3. cbn [fills].
  assert (Hstate : ∀ e st m, receives e m →
            state (gst_srt_client_src_fill e st outbuf) = set_last_msg_num m st).
  { intros e st m (Hmap & Herr & Hzero & <-). unfold gst_srt_client_src_fill.
    rewrite Hmap. cbn [negb].
    by rewrite (bool_decide_eq_false_2 _ Herr), (bool_decide_eq_false_2 _ Hzero). }
  destruct (fill_received e1 (started s eid st0) outbuf 5 H1) as (F1 & _ & D1);
    [cbn; lia | lia |].
  rewrite (Hstate _ _ _ H1), F1, D1.
  destruct (fill_received e2 (set_last_msg_num 5 (started s eid st0)) outbuf 6 H2)
    as (F2 & _ & D2); [cbn; lia | lia |].
  rewrite (Hstate _ _ _ H2), F2, D2.
  destruct (fill_received e3
              (set_last_msg_num 6 (set_last_msg_num 5 (started s eid st0))) outbuf 9 H3)
    as (F3 & _ & D3); [cbn; lia | lia |].
  rewrite (Hstate _ _ _ H3), F3, D3.
  reflexivity.
Qed.

Lemma gap_diagnostic_witness :
  fills [mkFillEnv true 2 [71; 64] (mkCtrl 5 100) 10 4;
         mkFillEnv true 2 [71; 65] (mkCtrl 6 200) 20 4;
         mkFillEnv true 2 [71; 66] (mkCtrl 9 500) 30 4]
    (started 7 1 (mkPriv (-1) (-1) (-1) 0 false None 0)) (mkBuffer [0; 0; 0] None None)
  = (mkPriv 7 1 (-1) 9 false None 0,
     [(GST_FLOW_OK, []); (GST_FLOW_OK, []); (GST_FLOW_OK, [2])]).
Proof.
  apply (proj1 gap_diagnostic); by cbv.
Defined.

End ClientSrcProofs.

(** ** The base source *)
Module BaseSrcProofs.
Import BaseSrc.

Local Open Scope string_scope.
Local Open Scope list_scope.

(** C10. Setting the key length to 16, 24 or 32 stores the value and
    changes nothing else; setting it to any other value is reported as a
    failed check and leaves the element, its key length included, as it
    was.  No property write takes a valid key length to an invalid one. *)
Theorem key_length_setter (GstUri GstCaps : Type)
    (gst_uri_from_string : option string → option GstUri)
    (gst_uri_get_scheme : option GstUri → option string)
    (self : GstSRTBaseSrc GstUri GstCaps) (n : Z) :
  let set_property := gst_srt_base_src_set_property gst_uri_from_string gst_uri_get_scheme in
  let set_key_length := set_key_length gst_uri_from_string gst_uri_get_scheme in
  (valid_key_length n →
     set_key_length self n =
       (mkBaseSrc (uri self) (caps self) (latency self) (passphrase self) n, [])) ∧
  (¬ valid_key_length n →
     (set_key_length self n).1 = self ∧
     key_length (set_key_length self n).1 = key_length self ∧
     (set_key_length self n).2 =
       [g_critical "key_length == 16 || key_length == 24 || key_length == 32"]) ∧
  (∀ prop_id value,
     valid_key_length (key_length self) →
     valid_key_length (key_length (set_property self prop_id value).1)).
Proof.
  cbv zeta.
  unfold set_key_length, valid_key_length, gst_srt_base_src_set_property.
  assert (Hprop : bool_decide (PROP_KEY_LENGTH = PROP_URI) = false
                  ∧ bool_decide (PROP_KEY_LENGTH = PROP_CAPS) = false
                  ∧ bool_decide (PROP_KEY_LENGTH = PROP_PASSPHRASE) = false
                  ∧ bool_decide (PROP_KEY_LENGTH = PROP_KEY_LENGTH) = true) by done.
  destruct Hprop as (-> & -> & -> & ->). cbn [g_value_get_int].
  split_and!.
  - intros [-> | [-> | ->]]; reflexivity.
  - intros Hn.
    rewrite (bool_decide_eq_false_2 (n = 16)) by tauto.
    rewrite (bool_decide_eq_false_2 (n = 24)) by tauto.
    rewrite (bool_decide_eq_false_2 (n = 32)) by tauto.
    done.
  - intros prop_id value Hk. unfold gst_srt_base_src_uri_set_uri.
    repeat case_bool_decide; cbn [orb fst snd key_length]; auto.
Qed.

Lemma key_length_setter_witness :
  set_key_length (λ _, None) (λ _, None)
      (mkBaseSrc (GstUri := unit) (GstCaps := unit) None None 125 None 16) 24
    = (mkBaseSrc None None 125 None 24, []) ∧
  key_length
      (set_key_length (λ _, None) (λ _, None)
         (mkBaseSrc (GstUri := unit) (GstCaps := unit) None None 125 None 16) 20).1
    = 16.
Proof.
  split.
  - apply (key_length_setter unit unit (λ _, None) (λ _, None)). right. by left.
  - apply (key_length_setter unit unit (λ _, None) (λ _, None)
             (mkBaseSrc None None 125 None 16) 20).
    unfold valid_key_length. lia.
Defined.

End BaseSrcProofs.

(** ** The server sink over a session *)
Module ServerSinkSessionProofs.
Import ServerSink ServerSinkProofs ServerSinkSession.

Lemma filter_agree {A} (P Q : A → Prop) `{∀ x, Decision (P x)} `{∀ x, Decision (Q x)}
    (l : list A) :
  (∀ x, x ∈ l → P x ↔ Q x) → filter P l = filter Q l.
Proof.
  induction l as [|x l IH]; intros Hl; [done|].
  rewrite !filter_cons.
  assert (P x ↔ Q x) as Hx by (apply Hl; constructor).
  assert (filter P l = filter Q l) as -> by (apply IH; intros y Hy; apply Hl; by constructor).
  destruct (decide (P x)), (decide (Q x)); tauto.
Qed.

Lemma stays_live_keep w st q c :
  heap st !! q = Some c → stays_live w st q = true ↔ live_verdict w c = Keep.
Proof.
  intros Hc. unfold stays_live. rewrite Hc, live_verdict_keep.
  rewrite andb_true_iff, negb_true_iff. done.
Qed.

Lemma clients_after_live w p c st :
  clients (after_live w p c st) =
    match live_verdict w c with Keep => clients st | _ => g_list_remove (clients st) p end.
Proof. unfold after_live. by destruct (live_verdict w c). Qed.

Lemma g_list_remove_middle pre p rest :
  p ∉ pre → g_list_remove (pre ++ p :: rest) p = pre ++ rest.
Proof.
  induction pre as [|x pre IH]; intros Hp; simpl.
  - by rewrite decide_True.
  - rewrite decide_False by (intros ->; apply Hp; constructor).
    rewrite IH; [done|]. intros ?. apply Hp. by constructor.
Qed.

(** The loop over the live list keeps the order of the clients it keeps. *)
Lemma live_loop_order w cursor : ∀ pre st,
  sink_inv st → clients st = pre ++ cursor →
  ∃ st', live_loop w cursor st = Some st' ∧
    clients st' = pre ++ filter (λ q, stays_live w st q) cursor.
Proof.
  induction cursor as [|p rest IH]; intros pre st I Hcl; simpl.
  - exists st. by rewrite Hcl.
  - pose proof (inv_nodup _ _ _ _ I) as Hnd.
    apply NoDup_app in Hnd as (Hnd & _ & _). rewrite Hcl in Hnd.
    apply NoDup_app in Hnd as (Hpre & Hdisj & Hcur).
    apply NoDup_cons in Hcur as [Hp Hrest].
    assert (p ∈ clients st) as Hin by (rewrite Hcl; set_solver).
    assert (is_Some (heap st !! p)) as [c Hc].
    { apply (inv_dom _ _ _ _ I). apply elem_of_app. by left. }
    rewrite (live_client_step_eq w p c st Hc). simpl.
    pose proof (after_live_inv w p c st I Hin Hc) as I1.
    assert (Hsame : filter (λ q, stays_live w (after_live w p c st) q) rest
                    = filter (λ q, stays_live w st q) rest).
    { apply filter_agree. intros q Hq. unfold stays_live.
      rewrite (after_live_heap w p c st q Hc).
      rewrite decide_False; [done|]. intros ->. done. }
    rewrite filter_cons.
    pose proof (stays_live_keep w st p c Hc) as Hk.
    destruct (live_verdict w c) eqn:Hv.
    + destruct (IH (pre ++ [p]) (after_live w p c st) I1) as (st' & Hrun & Hres).
      { rewrite clients_after_live, Hv, Hcl, <- app_assoc. done. }
      exists st'. split; [exact Hrun|]. rewrite Hres, Hsame, <- app_assoc.
      rewrite decide_True; [done|]. apply Is_true_true. by apply Hk.
    + destruct (IH pre (after_live w p c st) I1) as (st' & Hrun & Hres).
      { rewrite clients_after_live, Hv, Hcl. apply g_list_remove_middle.
        intros ?. apply (Hdisj p); [done|constructor]. }
      exists st'. split; [exact Hrun|]. rewrite Hres, Hsame.
      rewrite decide_False; [done|]. intros Ht%Is_true_true. by apply Hk in Ht.
    + destruct (IH pre (after_live w p c st) I1) as (st' & Hrun & Hres).
      { rewrite clients_after_live, Hv, Hcl. apply g_list_remove_middle.
        intros ?. apply (Hdisj p); [done|constructor]. }
      exists st'. split; [exact Hrun|]. rewrite Hres, Hsame.
      rewrite decide_False; [done|]. intros Ht%Is_true_true. by apply Hk in Ht.
Qed.

(** The loop over the pending queue prepends each client it promotes. *)
Lemma pending_loop_order w queue : ∀ st,
  sink_inv st → pending_clients st = queue →
  ∃ st', pending_loop w queue st = Some st' ∧
    clients st' = rev (filter (λ q, becomes_live w st q) queue) ++ clients st.
Proof.
  induction queue as [|p rest IH]; intros st I Hq; simpl.
  - by exists st.
  - assert (is_Some (heap st !! p)) as [c Hc].
    { apply (inv_dom _ _ _ _ I). apply elem_of_app. right. rewrite Hq. constructor. }
    assert (Hnd : p ∉ rest).
    { pose proof (inv_nodup _ _ _ _ I) as Hnd. rewrite Hq in Hnd.
      apply NoDup_app in Hnd as (_ & _ & Hnd). by apply NoDup_cons in Hnd as [? _]. }
    rewrite (pending_client_step_eq w p c (set_pending_clients rest st) Hc). simpl.
    pose proof (after_pending_inv w p c rest st I Hq Hc) as I1.
    set (st1 := after_pending w p c (set_pending_clients rest st)) in *.
    assert (Hframe : pending_clients st1 = rest
                     ∧ clients st1 = (if pending_promoted w c then [p] else []) ++ clients st).
    { unfold st1, after_pending. destruct (pending_promoted w c); simpl; done. }
    destruct Hframe as (F1 & F4).
    assert (Hsame : filter (λ q, becomes_live w st1 q) rest
                    = filter (λ q, becomes_live w st q) rest).
    { apply filter_agree. intros q Hq'. unfold becomes_live, st1.
      rewrite (after_pending_heap w p c (set_pending_clients rest st) q Hc).
      rewrite decide_False; [done|]. intros ->. done. }
    destruct (IH st1 I1 F1) as (st' & Hrun & Hres).
    exists st'. split; [exact Hrun|]. rewrite Hres, Hsame, F4, filter_cons.
    assert (becomes_live w st p = pending_promoted w c) as ->
      by (unfold becomes_live; by rewrite Hc).
    destruct (pending_promoted w c).
    + rewrite decide_True by done. simpl. by rewrite <- app_assoc.
    + rewrite decide_False by (by intros ?). done.
Qed.

(** After a delivery cycle the live list holds the clients promoted in this
    cycle, the latest arrival first, followed by the clients that were live
    before and have been kept, in their former order. *)
Theorem delivery_order (lsock eid : Z) (acts : list action)
    (st : GstSRTServerSinkPrivate) (w : transport) :
  run acts (started lsock eid) = Some st →
  ∃ st', gst_srt_server_sink_send_buffer w st = Some (true, st') ∧
    clients st' = rev (filter (λ q, becomes_live w st q) (pending_clients st))
                  ++ filter (λ q, stays_live w st q) (clients st).
Proof.
  intros Hrun. pose proof (reachable_inv _ _ _ _ Hrun) as I.
  destruct (live_loop_spec w (clients st) st I) as
    (st1 & Hrun1 & I1 & Hpend1 & _ & _ & _ & Hheap1).
  { pose proof (inv_nodup _ _ _ _ I) as Hnd. by apply NoDup_app in Hnd as (? & _ & _). }
  { done. }
  destruct (live_loop_order w (clients st) [] st I eq_refl) as (st1' & Hrun1' & Hcl1).
  rewrite Hrun1 in Hrun1'. injection Hrun1' as <-.
  destruct (pending_loop_order w (pending_clients st1) st1 I1 eq_refl)
    as (st' & Hrun2 & Hcl2).
  exists st'. unfold gst_srt_server_sink_send_buffer. rewrite Hrun1. simpl.
  rewrite Hrun2. simpl. split; [done|].
  rewrite Hcl2, Hcl1, Hpend1. simpl. f_equal. f_equal.
  apply filter_agree. intros q Hq. unfold becomes_live. rewrite Hheap1.
  rewrite decide_False; [done|].
  pose proof (inv_nodup _ _ _ _ I) as Hnd. apply NoDup_app in Hnd as (_ & Hdisj & _).
  intros ?. by apply (Hdisj q).
Qed.

Lemma failed_checks_cons w ws s :
  failed_checks (w :: ws) s =
    (if can_client_recv w s then 0 else 1) + failed_checks ws s.
Proof.
  unfold failed_checks. rewrite filter_cons.
  destruct (can_client_recv w s).
  - rewrite decide_False by done. lia.
  - rewrite decide_True by done. simpl length. lia.
Qed.

Lemma failed_checks_nonneg ws s : 0 <= failed_checks ws s.
Proof. unfold failed_checks. lia. Qed.

(** A delivery cycle in which a live client is kept. *)
Lemma deliver_keeps w st p c :
  sink_inv st → p ∈ clients st → heap st !! p = Some c → live_verdict w c = Keep →
  ∃ st', gst_srt_server_sink_send_buffer w st = Some (true, st') ∧ sink_inv st' ∧
    p ∈ clients st' ∧ heap st' !! p = Some (live_record w c).
Proof.
  intros I Hin Hc Hv.
  destruct (send_buffer_spec w st I) as (st' & Hsb & I' & _ & _ & Hmem & _ & Hheap).
  exists st'. split; [exact Hsb|]. split; [exact I'|].
  assert (heap st !! p ≫= live_keep w = Some (live_record w c)) as Hk.
  { rewrite Hc. simpl. unfold live_keep. by rewrite Hv. }
  split.
  - apply Hmem. left. split; [done|]. rewrite Hk. by eexists.
  - rewrite Hheap. by rewrite decide_True.
Qed.

(** A delivery cycle in which the threshold evicts a live client. *)
Lemma deliver_evicts w st p c :
  sink_inv st → p ∈ clients st → heap st !! p = Some c →
  backpressure_evicts w c = true →
  ∃ st', gst_srt_server_sink_send_buffer w st = Some (true, st') ∧
    (p ∉ clients st') ∧ heap st' !! p = None ∧ removed p (log st') = 1%nat.
Proof.
  intros I Hin Hc Hev.
  destruct (send_buffer_spec w st I) as (st' & Hsb & I' & _ & _ & Hmem & Hlog & Hheap).
  exists st'. split; [exact Hsb|].
  assert (heap st' !! p = None) as Hnone.
  { rewrite Hheap. rewrite decide_True by done. rewrite Hc. simpl.
    unfold live_keep, live_verdict. by rewrite Hev. }
  split_and!; [|done|].
  - intros Hp. assert (is_Some (heap st' !! p)) as [? ?]; [|congruence].
    apply (inv_dom _ _ _ _ I'). apply elem_of_app. by left.
  - destruct (inv_gone _ _ _ _ I' p Hnone) as [Hr Ha].
    assert (added p (log st) = 1%nat) as Ha0.
    { apply (inv_live _ _ _ _ I). by eexists. }
    rewrite Hlog, added_app, Ha0 in Ha. rewrite Hr, Hlog, added_app, Ha0. lia.
Qed.

(** The counter of a live client is the number of backpressure checks it
    has failed since it was promoted, whatever successes lie between them:
    over delivery cycles in which its sends succeed, the client stays live
    and its counter grows by the number of failed checks, as long as the
    total stays below the threshold; the failed check that brings the total
    to the threshold evicts it. *)
Theorem failure_counter_accumulates (lsock eid : Z) (acts : list action)
    (st : GstSRTServerSinkPrivate) (ws : list transport) (p : client_ptr)
    (c : SRTClient) :
  run acts (started lsock eid) = Some st →
  p ∈ clients st → heap st !! p = Some c →
  Forall (λ w, sendmsg_ok w (sock c) = true) ws →
  num_send_fails c + failed_checks ws (sock c) < MAX_SEND_FAILS →
  ∃ st', run (deliver <$> ws) st = Some st' ∧
    p ∈ clients st' ∧
    heap st' !! p =
      Some (mkClient (sock c) (sockaddr c)
                     (num_send_fails c + failed_checks ws (sock c))) ∧
    removed p (log st') = 0%nat ∧
    ∀ w, can_client_recv w (sock c) = false →
      num_send_fails c + failed_checks ws (sock c) = MAX_SEND_FAILS - 1 →
      ∃ st'', gst_srt_server_sink_send_buffer w st' = Some (true, st'') ∧
        (p ∉ clients st'') ∧ heap st'' !! p = None ∧ removed p (log st'') = 1%nat.
Proof.
  intros Hrun. pose proof (reachable_inv _ _ _ _ Hrun) as I. clear Hrun.
  revert st c I. induction ws as [|w ws IH]; intros st c I Hin Hc Hok Hlt.
  - exists st. simpl. split; [done|]. split; [done|].
    unfold failed_checks. simpl. rewrite Z.add_0_r. split; [by destruct c|].
    split; [apply (inv_live _ _ _ _ I); by eexists|].
    intros w Hw Hn. apply (deliver_evicts w st p c I Hin Hc).
    apply backpressure_evicts_iff. split; [done|]. lia.
  - apply Forall_cons in Hok as [Hw Hok].
    rewrite failed_checks_cons in Hlt |- *.
    pose proof (failed_checks_nonneg ws (sock c)) as Hnn.
    assert (backpressure_evicts w c = false) as Hbp.
    { destruct (backpressure_evicts w c) eqn:E; [|done].
      apply backpressure_evicts_iff in E as [E1 E2]. rewrite E1 in Hlt.
      unfold MAX_SEND_FAILS in *. lia. }
    assert (live_verdict w c = Keep) as Hv by (by apply live_verdict_keep).
    destruct (deliver_keeps w st p c I Hin Hc Hv) as (st1 & Hsb & I1 & Hin1 & Hc1).
    destruct (sock_live_record w c) as [Hs Ha].
    destruct (IH st1 (live_record w c) I1 Hin1 Hc1) as (st' & Hrun' & Hres).
    { by rewrite Hs. }
    { rewrite Hs. unfold live_record, bump.
      destruct (can_client_recv w (sock c)); simpl; lia. }
    exists st'. split.
    { cbn [fmap list_fmap run step]. rewrite Hsb. simpl. exact Hrun'. }
    rewrite Hs, Ha in Hres.
    assert (num_send_fails (live_record w c) + failed_checks ws (sock c)
            = num_send_fails c
              + ((if can_client_recv w (sock c) then 0 else 1) + failed_checks ws (sock c)))
      as Heq.
    { unfold live_record, bump. destruct (can_client_recv w (sock c)); simpl; lia. }
    rewrite Heq in Hres. exact Hres.
Qed.

Lemma lookup_delete_all l : ∀ (h : gmap client_ptr SRTClient) q,
  delete_all l h !! q = if decide (q ∈ l) then None else h !! q.
Proof.
  unfold delete_all. induction l as [|p l IH]; intros h q; cbn [foldl].
  - rewrite decide_False; [done|]. by intros ?%elem_of_nil.
  - rewrite IH. destruct (decide (q ∈ l)) as [Hq|Hq].
    + rewrite decide_True; [done|]. by constructor.
    + destruct (decide (q = p)) as [->|Hne].
      * rewrite decide_True by constructor. apply lookup_delete_eq.
      * rewrite decide_False by (rewrite elem_of_cons; by intros [? | ?]).
        by apply lookup_delete_ne.
Qed.

(** The drain of the pending queue in [stop], record by record. *)
Lemma stop_pending_loop_eq queue : ∀ st,
  NoDup queue → (∀ q, q ∈ queue → is_Some (heap st !! q)) →
  stop_pending_loop queue st =
    Some (mkPriv (cancelled st) (priv_sock st) (poll_id st) (thread st)
            (delete_all queue (heap st)) (next_client st) (clients st)
            (if queue is [] then pending_clients st else [])
            (log st ++ flat_map (events_of removal_events (heap st)) queue)).
Proof.
  induction queue as [|p rest IH]; intros st Hnd H; simpl.
  - rewrite app_nil_r. by destruct st.
  - apply NoDup_cons in Hnd as [Hp Hnd].
    destruct (H p) as [c Hc]; [constructor|].
    rewrite (discard_pending_client_eq p c (set_pending_clients rest st) Hc).
    simpl.
    assert (Hfr : ∀ q, q ∈ rest → delete p (heap st) !! q = heap st !! q).
    { intros q Hq. apply lookup_delete_ne. by intros ->. }
    rewrite IH; [|done|].
    + simpl. f_equal. f_equal.
      * by destruct rest.
      * unfold events_of at 2. rewrite Hc.
        rewrite (flat_map_events_of_frame _ _ _ _ Hfr), <- app_assoc. done.
    + simpl. intros q Hq. rewrite Hfr by done. apply H. by constructor.
Qed.

(** [stop], call by call. *)
Lemma server_sink_stop_eq st :
  sink_inv st →
  gst_srt_server_sink_stop st =
    Some (mkPriv true (priv_sock st) (poll_id st) false ∅ (next_client st)
            (clients st) []
            (log st
             ++ [srt_epoll_remove_usock (poll_id st) (priv_sock st);
                 srt_epoll_release (poll_id st); srt_close (priv_sock st)]
             ++ flat_map (events_of removed_event (heap st)) (clients st)
             ++ flat_map (events_of closed_event (heap st)) (clients st)
             ++ flat_map (events_of removal_events (heap st)) (pending_clients st)
             ++ [g_async_queue_unref])).
Proof.
  intros I. unfold gst_srt_server_sink_stop.
  pose proof (inv_nodup _ _ _ _ I) as Hnd.
  apply NoDup_app in Hnd as (Hnc & Hdisj & Hnp).
  assert (Hin : ∀ q, q ∈ clients st → is_Some (heap st !! q)).
  { intros q Hq. apply (inv_dom _ _ _ _ I). apply elem_of_app. by left. }
  assert (Hip : ∀ q, q ∈ pending_clients st → is_Some (heap st !! q)).
  { intros q Hq. apply (inv_dom _ _ _ _ I). apply elem_of_app. by right. }
  rewrite emit_removed_all_eq by (unfold_setters; exact Hin). simpl.
  rewrite free_all_eq by (unfold_setters; done). simpl.
  assert (Hfr : ∀ q, q ∈ pending_clients st →
            delete_all (clients st) (heap st) !! q = heap st !! q).
  { intros q Hq. rewrite lookup_delete_all. rewrite decide_False; [done|].
    intros ?. by apply (Hdisj q). }
  rewrite stop_pending_loop_eq; simpl; [|done|].
  2: { intros q Hq. rewrite Hfr by done. by apply Hip. }
  unfold emit. cbn [cancelled priv_sock poll_id thread heap next_client clients
                    pending_clients log].
  f_equal. f_equal.
  - apply map_eq. intros q. rewrite lookup_empty, !lookup_delete_all.
    destruct (decide (q ∈ pending_clients st)); [done|].
    destruct (decide (q ∈ clients st)); [done|].
    destruct (heap st !! q) eqn:E; [|done].
    assert (q ∈ clients st ++ pending_clients st) as Hq
      by (apply (inv_dom _ _ _ _ I); by eexists).
    apply elem_of_app in Hq as [? | ?]; done.
  - by destruct (pending_clients st).
  - rewrite (flat_map_events_of_frame _ _ _ _ Hfr), <- !app_assoc. done.
Qed.

(** [stop] from any point of a session: the listening socket is taken out
    of the multiplexer, the multiplexer is released and the socket closed;
    then every live client is signalled as removed, in list order; then the
    live clients' sockets are closed, in list order; then every pending
    client is signalled as removed and closed, in queue order; then the
    drained queue is released.  Afterwards no client record is left, the
    flag is set and the thread is joined.  Three fields are not reset:
    [priv->sock] and [priv->poll_id] keep the values of the handles that
    have just been closed and released, and [priv->clients] keeps the
    pointers of the list that has just been freed. *)
Theorem stop_trace (lsock eid : Z) (acts : list action) (st : GstSRTServerSinkPrivate) :
  run acts (started lsock eid) = Some st →
  ∃ st', gst_srt_server_sink_stop st = Some st' ∧
    cancelled st' = true ∧ thread st' = false ∧
    priv_sock st' = priv_sock st ∧ poll_id st' = poll_id st ∧
    heap st' = ∅ ∧ clients st' = clients st ∧ pending_clients st' = [] ∧
    log st' =
      log st
      ++ [srt_epoll_remove_usock (poll_id st) (priv_sock st);
          srt_epoll_release (poll_id st); srt_close (priv_sock st)]
      ++ flat_map (events_of removed_event (heap st)) (clients st)
      ++ flat_map (events_of closed_event (heap st)) (clients st)
      ++ flat_map (events_of removal_events (heap st)) (pending_clients st)
      ++ [g_async_queue_unref] ∧
    (∀ q, q ∈ clients st ++ pending_clients st →
       ∃ c, heap st !! q = Some c ∧ sock c ≠ SRT_INVALID_SOCK).
Proof.
  intros Hrun. pose proof (reachable_inv _ _ _ _ Hrun) as I.
  eexists. split; [apply (server_sink_stop_eq st I)|]. simpl. split_and!; try done.
  intros q Hq. apply (inv_dom _ _ _ _ I) in Hq as [c Hc].
  exists c. split; [done|]. by apply (inv_sock _ _ _ _ I q).
Qed.

(** A turn of the accept thread, from a state that satisfies the registry
    invariant. *)
Lemma thread_iter_frame (st : GstSRTServerSinkPrivate) (flag_head flag_timeout : bool)
    (e : accept_env) :
  sink_inv st →
  ∃ ctl st', thread_iter flag_head flag_timeout e st = Some (ctl, st') ∧
    ctl = (if flag_head then LoopExit else LoopContinue) ∧
    cancelled st' = cancelled st ∧ clients st' = clients st ∧
    if reaches_accept flag_head flag_timeout e
       && bool_decide (accept_ret e ≠ SRT_INVALID_SOCK)
    then
      (next_client st ∉ clients st ++ pending_clients st) ∧
      heap st !! next_client st = None ∧
      heap st' = <[next_client st := mkClient (accept_ret e) (Some (accept_sa e)) 0]>
                   (heap st) ∧
      pending_clients st' = pending_clients st ++ [next_client st] ∧
      log st' = log st ++ [srt_accept (accept_ret e);
                           client_added (next_client st) (accept_ret e)
                                        (Some (accept_sa e))]
    else
      heap st' = heap st ∧ pending_clients st' = pending_clients st ∧
      ∃ l, log st' = log st ++ l ∧ quiet l ∧ ∀ s, srt_close s ∉ l.
Proof.
  intros I.
  pose proof (sink_inv_free st I) as Hfree.
  assert (Hnew : next_client st ∉ clients st ++ pending_clients st).
  { intros Hin. apply (inv_dom _ _ _ _ I) in Hin as [c Hc]. congruence. }
  assert (Hnone : heap st = heap st ∧ pending_clients st = pending_clients st ∧
                  ∃ l, log st = log st ++ l ∧ quiet l ∧ ∀ s, srt_close s ∉ l).
  { split_and!; try done. exists []. rewrite app_nil_r. split_and!; try done.
    - constructor.
    - intros s. apply not_elem_of_nil. }
  assert (Hacc : ∃ st', accept_client e st = Some st' ∧
            cancelled st' = cancelled st ∧ clients st' = clients st ∧
            if bool_decide (accept_ret e ≠ SRT_INVALID_SOCK) then
              heap st' = <[next_client st := mkClient (accept_ret e) (Some (accept_sa e)) 0]>
                           (heap st) ∧
              pending_clients st' = pending_clients st ++ [next_client st] ∧
              log st' = log st ++ [srt_accept (accept_ret e);
                                   client_added (next_client st) (accept_ret e)
                                                (Some (accept_sa e))]
            else
              heap st' = heap st ∧ pending_clients st' = pending_clients st ∧
              ∃ l, log st' = log st ++ l ∧ quiet l ∧ ∀ s, srt_close s ∉ l).
  { rewrite (accept_client_eq e st Hfree). eexists. split; [reflexivity|].
    rewrite bool_decide_not.
    destruct (bool_decide (accept_ret e = SRT_INVALID_SOCK)); simpl.
    - split_and!; try done. eexists. split; [reflexivity|]. split.
      + by repeat constructor.
      + intros s Hs. apply list_elem_of_singleton in Hs. done.
    - done. }
  unfold thread_iter, reaches_accept. destruct flag_head; simpl.
  { exists LoopExit, st. by do 4 (split; [done|]). }
  destruct (wait_errno e) as [errno|].
  - destruct (bool_decide_reflect (errno = SRT_ETIMEOUT)) as [->|Hne].
    + rewrite bool_decide_eq_false_2 by (intros H; by apply H). simpl.
      destruct flag_timeout; simpl.
      * exists LoopContinue, st. by do 4 (split; [done|]).
      * destruct Hacc as (st' & -> & Hc & Hcl & Hres). simpl.
        exists LoopContinue, st'. split_and!; try done.
        destruct (bool_decide (accept_ret e ≠ SRT_INVALID_SOCK)); [|done].
        destruct Hres as (? & ? & ?). by split_and!.
    + rewrite bool_decide_eq_true_2 by done. simpl.
      exists LoopContinue, (emit element_error st). split_and!; try done.
      exists [element_error]. split_and!; try done.
      * by repeat constructor.
      * intros s Hs. apply list_elem_of_singleton in Hs. done.
  - destruct Hacc as (st' & -> & Hc & Hcl & Hres). simpl.
    exists LoopContinue, st'. split_and!; try done.
    destruct (bool_decide (accept_ret e ≠ SRT_INVALID_SOCK)); [|done].
    destruct Hres as (? & ? & ?). by split_and!.
Qed.

(** A turn of the accept thread never changes the flag, the live list or
    an existing client record.  When it reaches [srt_accept] and that
    returns a valid socket, a record no container holds yet is signalled as
    added and appended to the tail of the pending queue; otherwise the
    registry is left as it was, no signal is emitted and no socket is
    closed. *)
Theorem accept_turn_frame (lsock eid : Z) (acts : list action)
    (st : GstSRTServerSinkPrivate) (flag_head flag_timeout : bool) (e : accept_env) :
  run acts (started lsock eid) = Some st →
  ∃ ctl st', thread_iter flag_head flag_timeout e st = Some (ctl, st') ∧
    cancelled st' = cancelled st ∧ clients st' = clients st ∧
    if reaches_accept flag_head flag_timeout e
       && bool_decide (accept_ret e ≠ SRT_INVALID_SOCK)
    then
      (next_client st ∉ clients st ++ pending_clients st) ∧
      heap st !! next_client st = None ∧
      heap st' = <[next_client st := mkClient (accept_ret e) (Some (accept_sa e)) 0]>
                   (heap st) ∧
      pending_clients st' = pending_clients st ++ [next_client st] ∧
      log st' = log st ++ [srt_accept (accept_ret e);
                           client_added (next_client st) (accept_ret e)
                                        (Some (accept_sa e))]
    else
      heap st' = heap st ∧ pending_clients st' = pending_clients st ∧
      ∃ l, log st' = log st ++ l ∧ quiet l ∧ ∀ s, srt_close s ∉ l.
Proof.
  intros Hrun. pose proof (reachable_inv _ _ _ _ Hrun) as I.
  destruct (thread_iter_frame st flag_head flag_timeout e I)
    as (ctl & st' & Hit & _ & Hc & Hcl & H).
  by exists ctl, st'.
Qed.

(** [thread_func] from a state that satisfies the registry invariant. *)
Lemma thread_func_queue turns : ∀ st, sink_inv st →
  ∃ returned st' new, thread_func turns st = Some (returned, st') ∧
    clients st' = clients st ∧
    pending_clients st' = pending_clients st ++ new ∧
    Forall2 (λ p s, ∃ c, heap st' !! p = Some c ∧ sock c = s ∧ num_send_fails c = 0)
            new (accepted turns) ∧
    (∀ q c, heap st !! q = Some c → heap st' !! q = Some c).
Proof.
  induction turns as [|[[fh ft] e] rest IH]; intros st I.
  { exists false, st, []. rewrite app_nil_r. by split_and!. }
  destruct (thread_iter_frame st fh ft e I) as (ctl & st1 & Hit & Hctl & _ & Hcl & Hres).
  destruct (thread_iter_inv fh ft e st I) as (ctl' & st1' & Hit' & I1 & _).
  rewrite Hit in Hit'. simplify_eq. cbn [thread_func accepted]. rewrite Hit.
  destruct fh.
  { unfold reaches_accept in Hres. simpl in Hres. destruct Hres as (Hh & Hp & _).
    exists true, st1', []. rewrite app_nil_r, Hh. by split_and!. }
  destruct (IH st1' I1) as (b & st' & new & -> & Hcl' & Hp' & Hall & Hkeep).
  destruct (reaches_accept false ft e && bool_decide (accept_ret e ≠ SRT_INVALID_SOCK)).
  - destruct Hres as (_ & Hfresh & Hh & Hp & _).
    exists b, st', (next_client st :: new). split_and!; try done.
    + congruence.
    + rewrite Hp', Hp, <- app_assoc. reflexivity.
    + simpl. constructor; [|done].
      exists (mkClient (accept_ret e) (Some (accept_sa e)) 0). split; [|done].
      apply Hkeep. rewrite Hh. apply lookup_insert_eq.
    + intros q c Hq. apply Hkeep. rewrite Hh, lookup_insert_ne; [done|]. congruence.
  - destruct Hres as (Hh & Hp & _).
    exists b, st', new. split_and!; try done.
    + congruence.
    + by rewrite Hp', Hp.
    + intros q c Hq. apply Hkeep. by rewrite Hh.
Qed.

(** Over any run of the accept thread, the pending queue grows at its tail
    only: the clients it queues are, in order, the valid sockets that
    [srt_accept] returned before the turn that leaves the loop, each with a
    failure counter of zero.  The live list is untouched and no existing
    record changes. *)
Theorem accept_thread_fifo (lsock eid : Z) (acts : list action)
    (st : GstSRTServerSinkPrivate) (turns : list (bool * bool * accept_env)) :
  run acts (started lsock eid) = Some st →
  ∃ returned st' new, thread_func turns st = Some (returned, st') ∧
    clients st' = clients st ∧
    pending_clients st' = pending_clients st ++ new ∧
    Forall2 (λ p s, ∃ c, heap st' !! p = Some c ∧ sock c = s ∧ num_send_fails c = 0)
            new (accepted turns) ∧
    (∀ q c, heap st !! q = Some c → heap st' !! q = Some c).
Proof.
  intros Hrun. apply thread_func_queue. exact (reachable_inv _ _ _ _ Hrun).
Qed.

Lemma delivery_order_witness :
  ∃ st', gst_srt_server_sink_send_buffer clear st_pending56 = Some (true, st') ∧
    clients st' = [1%nat; 0%nat].
Proof.
  destruct (delivery_order 3 1 [accepts 5; accepts 6] st_pending56 clear)
    as (st' & Hsb & Hcl).
  - vm_compute. reflexivity.
  - exists st'. split; [exact Hsb|]. rewrite Hcl. vm_compute. reflexivity.
Defined.

Lemma failure_counter_accumulates_witness :
  ∃ st', run (deliver <$> (replicate 9 blocked ++ [clear])) st_live56 = Some st' ∧
    heap st' !! 0%nat = Some (mkClient 5 (Some 42) 9).
Proof.
  destruct (failure_counter_accumulates 3 1 [accepts 5; accepts 6; deliver clear]
              st_live56 (replicate 9 blocked ++ [clear]) 0%nat (mkClient 5 (Some 42) 0))
    as (st' & Hrun & _ & Hc & _).
  - vm_compute. reflexivity.
  - right. constructor.
  - vm_compute. reflexivity.
  - repeat constructor.
  - vm_compute. reflexivity.
  - exists st'. split; [exact Hrun|]. exact Hc.
Defined.

Lemma stop_trace_witness :
  ∃ st', gst_srt_server_sink_stop st_live56 = Some st' ∧
    clients st' = [1%nat; 0%nat] ∧ heap st' = ∅ ∧
    log st' = log st_live56 ++
      [srt_epoll_remove_usock 1 3; srt_epoll_release 1; srt_close 3;
       client_removed 1%nat 6 (Some 42); client_removed 0%nat 5 (Some 42);
       srt_close 6; srt_close 5; g_async_queue_unref].
Proof.
  destruct (stop_trace 3 1 [accepts 5; accepts 6; deliver clear] st_live56)
    as (st' & Hstop & _ & _ & _ & _ & Hh & Hc & _ & Hlog & _).
  - vm_compute. reflexivity.
  - exists st'. split; [exact Hstop|]. rewrite Hlog, Hc, Hh. vm_compute.
    split_and!; reflexivity.
Defined.

Lemma accept_turn_frame_witness :
  ∃ ctl st', thread_iter false false (mkAcceptEnv None 6 42) st_pending5 = Some (ctl, st') ∧
    pending_clients st' = [0%nat; 1%nat].
Proof.
  destruct (accept_turn_frame 3 1 [accepts 5] st_pending5 false false (mkAcceptEnv None 6 42))
    as (ctl & st' & Hit & _ & _ & Hres).
  - vm_compute. reflexivity.
  - exists ctl, st'. split; [exact Hit|].
    change (reaches_accept false false (mkAcceptEnv None 6 42)
            && bool_decide (accept_ret (mkAcceptEnv None 6 42) ≠ SRT_INVALID_SOCK))
      with true in Hres.
    by destruct Hres as (_ & _ & _ & -> & _).
Defined.

Lemma accept_thread_fifo_witness :
  ∃ returned st' new,
    thread_func [(false, false, mkAcceptEnv None 6 42);
                 (false, false, mkAcceptEnv None SRT_INVALID_SOCK 0);
                 (false, false, mkAcceptEnv None 7 43);
                 (true, false, mkAcceptEnv None 8 44)] st_pending5
      = Some (returned, st') ∧
    pending_clients st' = pending_clients st_pending5 ++ new ∧
    Forall2 (λ p s, ∃ c, heap st' !! p = Some c ∧ sock c = s ∧ num_send_fails c = 0)
            new [6; 7].
Proof.
  destruct (accept_thread_fifo 3 1 [accepts 5] st_pending5
              [(false, false, mkAcceptEnv None 6 42);
               (false, false, mkAcceptEnv None SRT_INVALID_SOCK 0);
               (false, false, mkAcceptEnv None 7 43);
               (true, false, mkAcceptEnv None 8 44)])
    as (b & st' & new & Hrun & _ & Hp & Hall & _).
  - vm_compute. reflexivity.
  - by exists b, st', new.
Defined.

End ServerSinkSessionProofs.

(** ** The server sink: [start] and [stop] *)
Module ServerSinkStartProofs.
Import Goto ServerSinkStart.

#[local] Set Warnings "-clear-no-such-hyp".

Local Open Scope string_scope.
Local Open Scope list_scope.

Ltac exec :=
  cbv beta iota zeta delta
    [bind ret goto_failed get modify when with_failed do_call update
     priv calls set_sock set_poll_id ServerSink.set_thread ServerSink.set_cancelled
     ServerSink.cancelled ServerSink.priv_sock ServerSink.poll_id ServerSink.thread
     ServerSink.heap ServerSink.next_client ServerSink.clients
     ServerSink.pending_clients ServerSink.log].

Lemma server_start_failed_eq st l :
  failed (mkFrame st l) =
    (Some false,
     mkFrame
       (ServerSink.mkPriv true SRT_INVALID_SOCK SRT_ERROR false
          (ServerSink.heap st) (ServerSink.next_client st) (ServerSink.clients st)
          (ServerSink.pending_clients st) (ServerSink.log st))
       (l ++ (if bool_decide (ServerSink.poll_id st = SRT_ERROR) then []
              else [srt_epoll_release (ServerSink.poll_id st)])
          ++ (if bool_decide (ServerSink.priv_sock st = SRT_INVALID_SOCK) then []
              else [srt_close (ServerSink.priv_sock st)])
          ++ (if ServerSink.thread st then [g_thread_join] else []))).
Proof.
  unfold failed. destruct st as [c s p t h n cl pq lg]. exec.
  rewrite !bool_decide_not.
  destruct (bool_decide_reflect (p = SRT_ERROR)),
           (bool_decide_reflect (s = SRT_INVALID_SOCK)), t;
    subst; simpl; rewrite <- ?app_assoc, ?app_nil_r; reflexivity.
Qed.

Lemma server_start_cases w uri lat st :
  let r := gst_srt_server_sink_start w uri lat st in
  match first_failure w uri with
  | None =>
      ∃ sa, listen_address w uri = Some sa ∧
        r = (true,
             ServerSink.mkPriv (ServerSink.cancelled st) (socket_ret w)
               (epoll_create_ret w) true (ServerSink.heap st)
               (ServerSink.next_client st) (ServerSink.clients st)
               (ServerSink.pending_clients st) (ServerSink.log st),
             success_calls w sa lat)
  | Some InvalidPort => r = (false, st, [element_error "Invalid port"])
  | Some fp =>
      r.1 = (false, rolled_back st) ∧
      errors r.2 = [] ∧
      created_pollers r.2 = (created_before w fp).1 ∧
      created_sockets r.2 = (created_before w fp).2 ∧
      released r.2 = (if bool_decide (poll_id_at w st fp = SRT_ERROR) then []
                      else [poll_id_at w st fp]) ∧
      closed r.2 = (if bool_decide (sock_at w st fp = SRT_INVALID_SOCK) then []
                    else [sock_at w st fp]) ∧
      joins r.2 = (if thread_at st fp then 1 else 0)%nat
  end.
Proof.
  unfold gst_srt_server_sink_start, first_failure, start_body.
  destruct (bool_decide (uri_port uri = GST_URI_NO_PORT)); [reflexivity|].
  destruct st as [c s p t h n cl pq lg].
  destruct (listen_address w uri) as [sa|].
  2: { exec. rewrite server_start_failed_eq. cbn -[bool_decide].
       destruct (bool_decide (p = SRT_ERROR)), (bool_decide (s = SRT_INVALID_SOCK)), t;
         by cbv. }
  destruct (g_socket_address_to_native w sa); cbn [negb].
  2: { exec. rewrite server_start_failed_eq. cbn -[bool_decide].
       destruct (bool_decide (p = SRT_ERROR)), (bool_decide (s = SRT_INVALID_SOCK)), t;
         by cbv. }
  unfold SRT_ERROR, SRT_INVALID_SOCK in *.
  destruct (bool_decide_reflect (socket_ret w = -1)) as [Hs|Hs].
  { exec. rewrite server_start_failed_eq. cbn -[bool_decide]. rewrite Hs.
    unfold SRT_ERROR, SRT_INVALID_SOCK.
    destruct (bool_decide (p = -1)), t; by cbv. }
  destruct (bool_decide_reflect (epoll_create_ret w = -1)) as [He|He].
  { exec. rewrite server_start_failed_eq. cbn -[bool_decide]. rewrite He.
    unfold SRT_ERROR, SRT_INVALID_SOCK.
    repeat case_bool_decide; try done; destruct t; by cbv. }
  assert (Hfail : ∀ l t',
    created_pollers l = [epoll_create_ret w] → created_sockets l = [socket_ret w] →
    errors l = [] → released l = [] → closed l = [] → joins l = 0%nat →
    ∃ l', failed (mkFrame (ServerSink.mkPriv c (socket_ret w) (epoll_create_ret w)
                             t' h n cl pq lg) l)
          = (Some false,
             mkFrame (rolled_back (ServerSink.mkPriv c s p t h n cl pq lg)) l') ∧
    errors l' = [] ∧
    created_pollers l' = [epoll_create_ret w] ∧
    created_sockets l' = [socket_ret w] ∧
    released l' = [epoll_create_ret w] ∧
    closed l' = [socket_ret w] ∧
    joins l' = (if t' then 1 else 0)%nat).
  { intros l t' H1 H2 H3 H4 H5 H6. rewrite server_start_failed_eq. eexists. split; [reflexivity|].
    unfold created_sockets, created_pollers, released, closed, errors, joins in *.
    rewrite !flat_map_app, !length_app, H1, H2, H3, H4, H5, H6.
    cbn [ServerSink.poll_id ServerSink.priv_sock ServerSink.thread].
    unfold SRT_ERROR, SRT_INVALID_SOCK.
    rewrite (bool_decide_eq_false_2 _ Hs), (bool_decide_eq_false_2 _ He).
    destruct t'; by cbv. }
  assert (Hcs : created_sockets [srt_socket (Connect.sa_family sa) (socket_ret w)]
                = [socket_ret w]).
  { unfold created_sockets. simpl. unfold SRT_INVALID_SOCK.
    by rewrite (bool_decide_eq_false_2 _ Hs). }
  assert (Hcp : created_pollers [srt_epoll_create (epoll_create_ret w)]
                = [epoll_create_ret w]).
  { unfold created_pollers. simpl. by rewrite (bool_decide_eq_false_2 _ He). }
  set (pre := [srt_socket (Connect.sa_family sa) (socket_ret w)] ++
              [srt_setsockopt (socket_ret w) SRTO_SNDSYN 0;
               srt_setsockopt (socket_ret w) SRTO_UDP_SNDBUF ServerSink.SRT_SEND_BUFFER_SIZE;
               srt_setsockopt (socket_ret w) SRTO_TSBPDMODE 1;
               srt_setsockopt (socket_ret w) SRTO_LINGER 0;
               srt_setsockflag (socket_ret w) SRTO_MAXBW 0;
               srt_setsockopt (socket_ret w) SRTO_SENDER 1;
               srt_setsockopt (socket_ret w) SRTO_PEERLATENCY lat] ++
              [srt_epoll_create (epoll_create_ret w)] ++
              [srt_epoll_add_usock (epoll_create_ret w) (socket_ret w)
                 (Z.lor (Z.lor Connect.SRT_EPOLL_IN Connect.SRT_EPOLL_OUT)
                        Connect.SRT_EPOLL_ERR);
               srt_bind (socket_ret w) sa (bind_ret w)]).
  assert (Hpre : created_pollers pre = [epoll_create_ret w] ∧
                 created_sockets pre = [socket_ret w] ∧
                 errors pre = [] ∧ released pre = [] ∧ closed pre = [] ∧
                 joins pre = 0%nat).
  { unfold pre. unfold joins.
    unfold created_sockets, created_pollers in *.
    rewrite !flat_map_app, Hcs, Hcp. by cbv. }
  destruct Hpre as (P1 & P2 & P3 & P4 & P5 & P6).
  destruct (bool_decide_reflect (bind_ret w = -1)) as [Hb|Hb].
  { exec. cbn [app]. 
    destruct (Hfail pre t P1 P2 P3 P4 P5 P6) as (l' & F0 & F).
    unfold pre in F0. cbn [app] in F0. rewrite F0.
    cbn [poll_id_at sock_at thread_at created_before fst snd].
    unfold SRT_ERROR, SRT_INVALID_SOCK.
    rewrite (bool_decide_eq_false_2 _ Hs), (bool_decide_eq_false_2 _ He).
    done. }
  destruct (bool_decide_reflect (listen_ret w = -1)) as [Hl|Hl].
  { exec. cbn [app].
    destruct (Hfail (pre ++ [srt_listen (socket_ret w) 5 (listen_ret w)]) t) as (l' & F0 & F).
    1-6: unfold joins, created_sockets, created_pollers, errors, released, closed in *;
         rewrite flat_map_app, ?length_app, ?P1, ?P2, ?P3, ?P4, ?P5, ?P6; reflexivity.
    unfold pre in F0. cbn [app] in F0. rewrite F0.
    cbn [poll_id_at sock_at thread_at created_before fst snd].
    unfold SRT_ERROR, SRT_INVALID_SOCK.
    rewrite (bool_decide_eq_false_2 _ Hs), (bool_decide_eq_false_2 _ He).
    done. }
  destruct (thread_created w) eqn:Ht; cbn [negb].
  - exec. exists sa. split; [done|]. reflexivity.
  - exec. cbn [app].
    destruct (Hfail (pre ++ [srt_listen (socket_ret w) 5 (listen_ret w);
                             g_thread_try_new false]) false) as (l' & F0 & F).
    1-6: unfold joins, created_sockets, created_pollers, errors, released, closed in *;
         rewrite flat_map_app, ?length_app, ?P1, ?P2, ?P3, ?P4, ?P5, ?P6; reflexivity.
    unfold pre in F0. cbn [app] in F0. rewrite F0.
    cbn [poll_id_at sock_at thread_at created_before fst snd].
    unfold SRT_ERROR, SRT_INVALID_SOCK.
    rewrite (bool_decide_eq_false_2 _ Hs), (bool_decide_eq_false_2 _ He).
    done.
Qed.

Lemma server_start_first_failure_facts w uri fp :
  first_failure w uri = Some fp →
  match fp with
  | InvalidPort | NoAddress | AddressResolution => True
  | SocketCreate => socket_ret w = -1
  | MultiplexerInit => socket_ret w ≠ -1 ∧ epoll_create_ret w = -1
  | _ => socket_ret w ≠ -1 ∧ epoll_create_ret w ≠ -1
  end.
Proof.
  unfold first_failure, SRT_INVALID_SOCK, SRT_ERROR.
  repeat case_match; intros Heq; simplify_eq; try done;
    repeat match goal with
           | H : bool_decide _ = true |- _ => apply bool_decide_eq_true in H
           | H : bool_decide _ = false |- _ => apply bool_decide_eq_false in H
           end; done.
Qed.

(** [start] returns TRUE exactly when none of its checks fails.  It has
    then made these calls and no other, in this order: the socket is
    created, switched to non-blocking sends, given the one-mebibyte send
    buffer, TSBPD mode, no linger, unlimited bandwidth, the sender role and
    the peer latency; the multiplexer is created and the socket registered
    with it for input, output and errors; the socket is bound and listens
    with a backlog of 5; the accept thread is created.  The element holds
    the two handles and the thread; the cancellation flag and the client
    registry are as they were. *)
Theorem server_start_success (w : world) (uri : GstUri) (lat : Z)
    (st : ServerSink.GstSRTServerSinkPrivate) :
  let r := gst_srt_server_sink_start w uri lat st in
  (r.1.1 = true ↔ first_failure w uri = None) ∧
  (first_failure w uri = None →
     ∃ sa, listen_address w uri = Some sa ∧
       r.2 = success_calls w sa lat ∧
       r.1.2 = ServerSink.mkPriv (ServerSink.cancelled st) (socket_ret w)
                 (epoll_create_ret w) true (ServerSink.heap st)
                 (ServerSink.next_client st) (ServerSink.clients st)
                 (ServerSink.pending_clients st) (ServerSink.log st)).
Proof.
  intros r. subst r. pose proof (server_start_cases w uri lat st) as H. cbv zeta in H.
  destruct (first_failure w uri) as [fp|].
  - split; [|done]. split; [|done].
    destruct fp; [rewrite H; done|..]; destruct H as [H _]; rewrite H; done.
  - destruct H as (sa & Ha & ->). split; [done|]. intros _. by exists sa.
Qed.

Lemma server_start_success_witness :
  gst_srt_server_sink_start obliging (mkUri None 7001) 125 zeroed
  = (true, ServerSink.started 3 1,
     success_calls obliging (Connect.mkAddr 2 "0.0.0.0" 7001) 125).
Proof.
  destruct (server_start_success obliging (mkUri None 7001) 125 zeroed) as [Hiff H].
  destruct H as (sa & Ha & Hc & Hs); [reflexivity|].
  pose proof (proj2 Hiff eq_refl) as Hb.
  injection Ha as <-.
  destruct (gst_srt_server_sink_start _ _ _ _) as [[b st'] l].
  cbn [fst snd] in *. rewrite Hb, Hc, Hs. reflexivity.
Defined.

(** A [start] that fails.  An invalid port is reported as an element error
    and nothing else happens.  Every other failure goes through the
    [failed:] label without an element error: the flag is set, the
    multiplexer id the element holds at that moment is released unless it is
    -1, the socket it holds is closed unless it is -1, a thread it holds is
    joined, and the three fields are reset.  What the element holds is what
    [start] has created by then, and before that what the fields held on
    entry.  Entered with both handle fields at -1 and no thread, [start]
    therefore releases and closes exactly what it created, once each. *)
Theorem server_start_failure (w : world) (uri : GstUri) (lat : Z)
    (st : ServerSink.GstSRTServerSinkPrivate) (fp : failure_point) :
  first_failure w uri = Some fp →
  let r := gst_srt_server_sink_start w uri lat st in
  r.1.1 = false ∧
  (fp = InvalidPort → r.1.2 = st ∧ r.2 = [element_error "Invalid port"]) ∧
  (fp ≠ InvalidPort →
     r.1.2 = rolled_back st ∧
     errors r.2 = [] ∧
     created_pollers r.2 = (created_before w fp).1 ∧
     created_sockets r.2 = (created_before w fp).2 ∧
     released r.2 = (if bool_decide (poll_id_at w st fp = SRT_ERROR) then []
                     else [poll_id_at w st fp]) ∧
     closed r.2 = (if bool_decide (sock_at w st fp = SRT_INVALID_SOCK) then []
                   else [sock_at w st fp]) ∧
     joins r.2 = (if thread_at st fp then 1 else 0)%nat ∧
     (ServerSink.priv_sock st = SRT_INVALID_SOCK →
      ServerSink.poll_id st = SRT_ERROR → ServerSink.thread st = false →
      released r.2 = created_pollers r.2 ∧ closed r.2 = created_sockets r.2 ∧
      joins r.2 = 0%nat)).
Proof.
  intros Hfp r. subst r. pose proof (server_start_cases w uri lat st) as H. cbv zeta in H.
  rewrite Hfp in H. pose proof (server_start_first_failure_facts w uri fp Hfp) as Hf.
  destruct fp; try (rewrite H; by split_and!);
    destruct H as (H1 & H2 & H3 & H4 & H5 & H6 & H7);
    (split; [by rewrite H1|]); (split; [done|]); intros _;
    (split; [by rewrite H1|]); (split_and!; try done);
    intros Hs Hp Ht; rewrite H3, H4, H5, H6, H7;
    cbn [poll_id_at sock_at thread_at created_before fst snd];
    unfold SRT_ERROR, SRT_INVALID_SOCK in *; rewrite ?Hs, ?Hp, ?Ht;
    destruct_and?;
    repeat case_bool_decide; done.
Qed.

Lemma server_start_failure_witness :
  let r := gst_srt_server_sink_start unparsable (mkUri (Some "nowhere") 7001) 125 zeroed in
  r.1.1 = false ∧ released r.2 = [0] ∧ closed r.2 = [0] ∧ created_sockets r.2 = [].
Proof.
  destruct (server_start_failure unparsable (mkUri (Some "nowhere") 7001) 125 zeroed
              NoAddress eq_refl) as (H1 & _ & H).
  destruct H as (_ & _ & _ & H4 & H5 & H6 & _); [done|].
  cbv zeta. rewrite H1, H4, H5, H6. by cbv.
Defined.

(** [stop] does not reset [priv->sock] and [priv->poll_id], and [start]
    does not clear the flag.  So after a [stop], a [start] that succeeds
    leaves the flag set, and a [start] that fails before it has created a
    socket releases the multiplexer and closes the listening socket that
    [stop] has already released and closed. *)
Theorem restart_after_stop (lsock eid : Z) (acts : list ServerSink.action)
    (st st1 : ServerSink.GstSRTServerSinkPrivate) (w : world) (uri : GstUri) (lat : Z) :
  ServerSink.run acts (ServerSink.started lsock eid) = Some st →
  ServerSink.gst_srt_server_sink_stop st = Some st1 →
  ServerSink.priv_sock st ≠ SRT_INVALID_SOCK → ServerSink.poll_id st ≠ SRT_ERROR →
  let r := gst_srt_server_sink_start w uri lat st1 in
  ServerSink.srt_close (ServerSink.priv_sock st) ∈ ServerSink.log st1 ∧
  ServerSink.srt_epoll_release (ServerSink.poll_id st) ∈ ServerSink.log st1 ∧
  (first_failure w uri = None → r.1.1 = true ∧ ServerSink.cancelled r.1.2 = true) ∧
  (first_failure w uri = Some NoAddress ∨ first_failure w uri = Some AddressResolution →
     r.1.1 = false ∧
     released r.2 = [ServerSink.poll_id st] ∧ closed r.2 = [ServerSink.priv_sock st] ∧
     created_pollers r.2 = [] ∧ created_sockets r.2 = []).
Proof.
  intros Hrun Hstop Hs Hp r. subst r.
  pose proof (ServerSinkProofs.reachable_inv _ _ _ _ Hrun) as I.
  rewrite (ServerSinkSessionProofs.server_sink_stop_eq st I) in Hstop. injection Hstop as Hst1.
  assert (ServerSink.priv_sock st1 = ServerSink.priv_sock st) as Hps by (by rewrite <- Hst1).
  assert (ServerSink.poll_id st1 = ServerSink.poll_id st) as Hpi by (by rewrite <- Hst1).
  assert (ServerSink.cancelled st1 = true) as Hc by (by rewrite <- Hst1).
  split; [rewrite <- Hst1; cbn [ServerSink.log]; set_solver|].
  split; [rewrite <- Hst1; cbn [ServerSink.log]; set_solver|].
  pose proof (server_start_cases w uri lat st1) as H. cbv zeta in H. split.
  - intros Hnone. rewrite Hnone in H. destruct H as (sa & _ & ->). done.
  - intros [Hf | Hf]; rewrite Hf in H;
      destruct H as (H1 & _ & H3 & H4 & H5 & H6 & _);
      rewrite H1, H3, H4, H5, H6;
      cbn [poll_id_at sock_at created_before fst snd]; rewrite Hps, Hpi;
      rewrite !bool_decide_eq_false_2 by done; done.
Qed.

Lemma restart_after_stop_witness :
  let r := gst_srt_server_sink_start unparsable (mkUri (Some "nowhere") 7001) 125
             (default zeroed (ServerSink.gst_srt_server_sink_stop ServerSink.st_live56)) in
  released r.2 = [1] ∧ closed r.2 = [3].
Proof.
  destruct (restart_after_stop 3 1
              [ServerSink.accepts 5; ServerSink.accepts 6; ServerSink.deliver ServerSink.clear]
              ServerSink.st_live56
              (default zeroed (ServerSink.gst_srt_server_sink_stop ServerSink.st_live56))
              unparsable (mkUri (Some "nowhere") 7001) 125)
    as (_ & _ & _ & H).
  - vm_compute. reflexivity.
  - vm_compute. reflexivity.
  - done.
  - done.
  - destruct H as (_ & H2 & H3 & _); [by left|]. cbv zeta. by rewrite H2, H3.
Defined.

End ServerSinkStartProofs.

(** ** The connect helper: call traces *)
Module ConnectTraceProofs.
Import Connect ConnectProofs ConnectTrace.

#[local] Set Warnings "-clear-no-such-hyp".

Local Open Scope string_scope.
Local Open Scope list_scope.

Lemma errors_app l1 l2 : errors (l1 ++ l2) = errors l1 ++ errors l2.
Proof. apply flat_map_app. Qed.

Lemma errors_options s l : errors (map (λ ov, srt_setsockopt s ov.1 ov.2) l) = [].
Proof. unfold errors. induction l as [|[o v] l IH]; simpl; [done|exact IH]. Qed.

(** The bind block: its calls when it succeeds, its error when it fails. *)
Lemma bind_socket_trace w a s fr :
  ∃ l, bind_socket w a s fr =
         (match bind_failure w a with Some _ => None | None => Some tt end, log_to fr l) ∧
    errors l = match bind_failure w a with Some fp => error_message fp | None => [] end ∧
    registered l = [] ∧
    (bind_failure w a = None →
     l = if wants_bind a then
           match bind_target w a with
           | Some bsa => [srt_bind s bsa (bind_ret w)]
           | None => []
           end
         else []).
Proof.
  unfold bind_socket, bind_failure, wants_bind, bind_target. destruct fr as [fs fp fa fc].
  destruct (_ || _ || _).
  - destruct (g_inet_socket_address_new_from_string w _ _) as [bsa|].
    + destruct (g_socket_address_to_native w bsa); simpl.
      * destruct (bool_decide (bind_ret w = SRT_ERROR)); exec; simpl.
        -- eexists. rewrite <- app_assoc. split; [reflexivity|]. by cbv.
        -- eexists. split; [reflexivity|]. by cbv.
      * exec. eexists. split; [reflexivity|]. by cbv.
    + exec. eexists. split; [reflexivity|]. by cbv.
  - exec. exists []. rewrite app_nil_r. split; [reflexivity|]. by cbv.
Qed.

(** From [srt_connect] on: the calls on success, the error on failure. *)
Lemma connect_socket_trace w a s sa fr :
  ∃ l, connect_socket w a s sa fr =
         (match connect_failure w with Some _ => None | None => Some s end, log_to fr l) ∧
    errors l = match connect_failure w with Some fp => error_message fp | None => [] end ∧
    (is_Some (connect_failure w) → registered l = []) ∧
    (connect_failure w = None →
     l = [srt_connect s sa (connect_ret w); srt_getsockstate s SRTS_CONNECTED;
          srt_epoll_add_usock (poll_id fr) s
            (if is_sender a
             then Z.lor (Z.lor SRT_EPOLL_IN SRT_EPOLL_OUT) SRT_EPOLL_ERR
             else Z.lor SRT_EPOLL_IN SRT_EPOLL_ERR)]).
Proof.
  unfold connect_socket, connect_failure. destruct fr as [fs fp fa fc].
  destruct (bool_decide (connect_ret w = SRT_ERROR)); exec; simpl.
  - eexists. rewrite <- app_assoc. split; [reflexivity|]. by cbv.
  - destruct (sockstate w); eexists; rewrite <- ?app_assoc;
      (split; [reflexivity|]); split_and!; try (by cbv); by intros [? ?].
Qed.

(** The body, with its calls and its errors. *)
Lemma connect_body_trace w a pin sa_in :
  ∃ o fr, connect_body w a (mkFrame SRT_INVALID_SOCK pin sa_in []) = (o, fr) ∧
    errors (calls fr) =
      match first_failure w a with Some fp => error_message fp | None => [] end ∧
    (is_Some (first_failure w a) → registered (calls fr) = []) ∧
    (first_failure w a = None →
     ∃ h sa, host a = Some h ∧
       g_inet_socket_address_new_from_string w h (port a) = Some sa ∧
       o = Some (socket_ret w) ∧
       fr = mkFrame (socket_ret w) (epoll_create_ret w) (Some sa) (success_calls w a sa)).
Proof.
  unfold connect_body, first_failure.
  destruct (host a) as [h|] eqn:Hh.
  2: { exec. eexists _, _. split; [reflexivity|]. by cbv. }
  destruct (g_inet_socket_address_new_from_string w h (port a)) as [sa|] eqn:Hsa.
  2: { exec. eexists _, _. split; [reflexivity|]. by cbv. }
  destruct (bool_decide (epoll_create_ret w = -1)).
  { exec. eexists _, _. split; [reflexivity|]. by cbv. }
  destruct (g_socket_address_to_native w sa); cbn [negb].
  2: { exec. eexists _, _. split; [reflexivity|]. by cbv. }
  destruct (bool_decide (socket_ret w = SRT_ERROR)).
  { exec. eexists _, _. split; [reflexivity|]. by cbv. }
  exec. rewrite apply_socket_options_eq. exec.
  match goal with |- context [bind_socket w a ?s ?fr] =>
    destruct (bind_socket_trace w a s fr) as (lb & -> & Heb & Hrb & Hlb) end.
  destruct (bind_failure w a) as [fp|] eqn:Hbf.
  { exec. eexists _, _. split; [reflexivity|]. cbn [calls].
    rewrite !errors_app, errors_options, Heb, !registered_app, registered_options, Hrb.
    split; [by cbv|]. split; [by cbv|done]. }
  exec.
  match goal with |- context [connect_socket w a ?s ?sa ?fr] =>
    destruct (connect_socket_trace w a s sa fr) as (lc & -> & Hec & Hrc & Hlc) end.
  exec. eexists _, _. split; [reflexivity|]. cbn [calls].
  rewrite !errors_app, errors_options, Heb, Hec.
  split; [by destruct (connect_failure w)|].
  split.
  { intros Hsome. rewrite !registered_app, registered_options, Hrb, (Hrc Hsome). by cbv. }
  intros Hnone. rewrite Hnone in *. rewrite (Hlb eq_refl), (Hlc eq_refl).
  exists h, sa. split_and!; try done.
  unfold success_calls. cbn [poll_id]. f_equal.
  rewrite <- !app_assoc. reflexivity.
Qed.

(** A connection that succeeds makes these calls and no other, in this
    order: the multiplexer is created, then the socket; the options of the
    profile are assigned; if a bind address or a bind port is given, or in
    rendezvous mode, the socket is bound; it is connected, its state is
    read, and it is registered with the multiplexer.  The out-parameters
    hold the parsed remote address and the multiplexer id, whatever they
    held on entry.  In rendezvous mode the socket is bound to the remote
    port, and to any address when no bind address is given; with no bind
    address, no bind port and no rendezvous, nothing is bound. *)
Theorem connect_success_trace (w : world) (a : args) (pin : Z)
    (sa_in : option GSocketAddress) :
  first_failure w a = None →
  ∃ h sa, host a = Some h ∧
    g_inet_socket_address_new_from_string w h (port a) = Some sa ∧
    gst_srt_client_connect_full w a pin sa_in =
      (socket_ret w,
       mkFrame (socket_ret w) (epoll_create_ret w) (Some sa) (success_calls w a sa)) ∧
    (rendezvous a = true →
       ∃ bsa, g_inet_socket_address_new_from_string w
                (default "0.0.0.0" (bind_address a)) (port a) = Some bsa ∧
         srt_bind (socket_ret w) bsa (bind_ret w) ∈ success_calls w a sa) ∧
    (bind_address a = None → bind_port a = 0 → rendezvous a = false →
       ∀ s bsa r, srt_bind s bsa r ∉ success_calls w a sa).
Proof.
  intros Hnone.
  destruct (connect_body_trace w a pin sa_in) as (o & fr & Hb & _ & _ & H).
  destruct (H Hnone) as (h & sa & Hh & Hsa & -> & ->).
  exists h, sa. split; [done|]. split; [done|].
  split; [by rewrite (connect_full_unfold _ _ _ _ _ _ Hb)|].
  assert (bind_failure w a = None) as Hbf.
  { unfold first_failure in Hnone. rewrite Hh, Hsa in Hnone.
    repeat case_match; simplify_eq; done. }
  assert (Hopt : ∀ s bsa r l, srt_bind s bsa r ∉ map (λ ov, srt_setsockopt (socket_ret w) ov.1 ov.2) l).
  { intros s bsa r l. induction l as [|[o v] l IH]; simpl; [apply not_elem_of_nil|].
    rewrite not_elem_of_cons. split; [done|exact IH]. }
  split.
  - intros Hr. unfold bind_failure, wants_bind in Hbf.
    unfold success_calls, wants_bind, bind_target. rewrite Hr in *.
    rewrite orb_true_r in *. cbv beta iota in *.
    destruct (g_inet_socket_address_new_from_string w
                (default "0.0.0.0" (bind_address a)) (port a)) as [bsa|]; [|done].
    exists bsa. split; [done|]. set_solver.
  - intros Hba Hbp Hr s bsa r. unfold success_calls, wants_bind.
    rewrite Hba, Hbp, Hr. simpl.
    pose proof (Hopt s bsa r (socket_option_profile a)). set_solver.
Qed.

Lemma connect_success_trace_witness :
  gst_srt_client_connect_full peer_world
    (mkArgs false (Some "10.0.0.1") 7001 true None 9000 125 None 16) 4 None
  = (7, mkFrame 7 1 (Some (mkAddr 2 "10.0.0.1" 7001))
          [srt_epoll_create 1; srt_socket 2 7;
           srt_setsockopt 7 SRTO_TSBPDMODE (OptInt 1);
           srt_setsockopt 7 SRTO_LINGER (OptInt 0);
           srt_setsockopt 7 SRTO_SENDER (OptInt 0);
           srt_setsockopt 7 SRTO_RCVLATENCY (OptInt 125);
           srt_setsockopt 7 SRTO_RENDEZVOUS (OptInt 1);
           srt_bind 7 (mkAddr 2 "0.0.0.0" 7001) 0;
           srt_connect 7 (mkAddr 2 "10.0.0.1" 7001) 0;
           srt_getsockstate 7 SRTS_CONNECTED;
           srt_epoll_add_usock 1 7 9]).
Proof.
  destruct (connect_success_trace peer_world
              (mkArgs false (Some "10.0.0.1") 7001 true None 9000 125 None 16) 4 None)
    as (h & sa & Hh & Hsa & -> & _).
  - reflexivity.
  - injection Hh as <-. injection Hsa as <-. reflexivity.
Defined.

(** The helper posts one element error at every failure point but one: when
    the socket is not connected after [srt_connect] has succeeded, the helper
    fails without an element error.  A connection that succeeds posts none.
    So the caller gets the invalid socket and no error message exactly in
    that case. *)
Theorem connect_error_messages (w : world) (a : args) (pin : Z)
    (sa_in : option GSocketAddress) :
  let r := gst_srt_client_connect_full w a pin sa_in in
  errors (calls r.2) =
    match first_failure w a with Some fp => error_message fp | None => [] end ∧
  (r.1 = SRT_INVALID_SOCK ∧ errors (calls r.2) = [] ↔
   first_failure w a = Some NotConnected).
Proof.
  intros r. subst r.
  destruct (connect_body_trace w a pin sa_in) as (o & fr & Hb & He & _ & _).
  destruct (connect_body_spec w a pin sa_in) as (o' & fr' & Hb' & _ & _ & _ & H).
  rewrite Hb in Hb'. injection Hb' as <- <-.
  rewrite (connect_full_unfold _ _ _ _ _ _ Hb).
  assert (Herr : errors (calls (match o with
            | Some s => (s, fr)
            | None => (SRT_INVALID_SOCK,
                 mkFrame SRT_INVALID_SOCK SRT_ERROR None
                   (calls fr
                    ++ (if bool_decide (poll_id fr = SRT_ERROR) then []
                        else [srt_epoll_release (poll_id fr)])
                    ++ (if bool_decide (sock fr = SRT_INVALID_SOCK) then []
                        else [srt_close (sock fr)])))
            end).2) = errors (calls fr)).
  { destruct o; [done|]. cbn [snd calls]. rewrite !errors_app.
    destruct (bool_decide _), (bool_decide _); simpl; by rewrite app_nil_r. }
  rewrite Herr, He. split; [done|].
  destruct (first_failure w a) as [fp|].
  - destruct H as (-> & _). cbn [fst]. split.
    + intros [_ Hm]. by destruct fp.
    + intros [= ->]. done.
  - destruct H as (-> & Hs & _). cbn [fst]. split; [|done].
    intros [Hs' _]. done.
Qed.

(** An empty passphrase is no passphrase: the helper then behaves as
    [gst_srt_client_connect] does, whatever the key length, and assigns
    neither the passphrase nor the key length on any socket. *)
Theorem empty_passphrase_is_none (w : world) (a : args) (pin : Z)
    (sa_in : option GSocketAddress) :
  passphrase a = None ∨ passphrase a = Some "" →
  let r := gst_srt_client_connect_full w a pin sa_in in
  r = gst_srt_client_connect w a pin sa_in ∧
  ∀ s, (SRTO_PASSPHRASE ∉ (sockopts_of s (calls r.2)).*1) ∧
       (SRTO_PBKEYLEN ∉ (sockopts_of s (calls r.2)).*1).
Proof.
  intros Hpw r. subst r. split.
  - unfold gst_srt_client_connect, gst_srt_client_connect_full.
    assert (connect_body w a = connect_body w (with_passphrase a None 0)) as ->; [|done].
    unfold connect_body, with_passphrase.
    assert (apply_socket_options a =
            apply_socket_options (mkArgs (is_sender a) (host a) (port a) (rendezvous a)
              (bind_address a) (bind_port a) (latency a) None 0)) as Hopts.
    { unfold apply_socket_options, passphrase_given. cbn [is_sender latency rendezvous passphrase].
      by destruct Hpw as [-> | ->]. }
    cbn [host port]. rewrite Hopts. reflexivity.
  - intros s.
    destruct (connect_body_spec w a pin sa_in) as (o & fr & Hb & _ & _ & Hopts & _).
    rewrite (connect_full_unfold _ _ _ _ _ _ Hb).
    assert (sockopts_of s (calls (match o with
            | Some s0 => (s0, fr)
            | None => (SRT_INVALID_SOCK,
                 mkFrame SRT_INVALID_SOCK SRT_ERROR None
                   (calls fr
                    ++ (if bool_decide (poll_id fr = SRT_ERROR) then []
                        else [srt_epoll_release (poll_id fr)])
                    ++ (if bool_decide (sock fr = SRT_INVALID_SOCK) then []
                        else [srt_close (sock fr)])))
            end).2) = sockopts_of s (calls fr)) as ->.
    { destruct o; [done|]. cbn [snd calls]. rewrite !sockopts_of_app.
      destruct (bool_decide _), (bool_decide _); simpl; by rewrite app_nil_r. }
    rewrite Hopts. destruct (bool_decide _); [|set_solver].
    pose proof (socket_option_profile_facts a) as F. cbv zeta in F.
    destruct F as (_ & _ & _ & _ & _ & _ & _ & F1 & F2 & _).
    split.
    + rewrite F1. intros (pw & Hp & Hne). destruct Hpw as [Hn | Hn]; congruence.
    + rewrite F2. intros (pw & Hp & Hne). destruct Hpw as [Hn | Hn]; congruence.
Qed.

Lemma empty_passphrase_is_none_witness :
  gst_srt_client_connect_full peer_world
    (mkArgs false (Some "10.0.0.1") 7001 false None 0 125 (Some "") 16) 4 None
  = gst_srt_client_connect peer_world
      (mkArgs false (Some "10.0.0.1") 7001 false None 0 125 (Some "") 16) 4 None.
Proof.
  apply (empty_passphrase_is_none peer_world
           (mkArgs false (Some "10.0.0.1") 7001 false None 0 125 (Some "") 16) 4 None).
  by right.
Defined.

End ConnectTraceProofs.

(** ** The client receiver: life cycle and properties *)
Module ClientSrcLifecycleProofs.
Import ClientSrc ClientSrcLifecycle.

Local Open Scope string_scope.
Local Open Scope list_scope.

Lemma srt_calls_app l1 l2 : srt_calls (l1 ++ l2) = srt_calls l1 ++ srt_calls l2.
Proof. apply flat_map_app. Qed.

Lemma srt_calls_fmap l : srt_calls (srt_call <$> l) = l.
Proof. induction l as [|c l IH]; [done|]. cbn. f_equal. exact IH. Qed.

Lemma unregistered_app l1 l2 : unregistered (l1 ++ l2) = unregistered l1 ++ unregistered l2.
Proof. apply flat_map_app. Qed.

Lemma unregistered_fmap l : unregistered (srt_call <$> l) = [].
Proof. induction l as [|c l IH]; [done|]. exact IH. Qed.

(** The helper, entered with no multiplexer held. *)
Lemma connect_clean w a sa_in :
  let r := Connect.gst_srt_client_connect_full w a SRT_ERROR sa_in in
  match Connect.first_failure w a with
  | Some _ =>
      r.1 = SRT_INVALID_SOCK ∧ Connect.poll_id r.2 = SRT_ERROR ∧
      Connect.released (Connect.calls r.2) = Connect.created_pollers (Connect.calls r.2) ∧
      Connect.closed (Connect.calls r.2) = Connect.created_sockets (Connect.calls r.2) ∧
      Connect.registered (Connect.calls r.2) = []
  | None =>
      r.1 = Connect.socket_ret w ∧ r.1 ≠ SRT_INVALID_SOCK ∧
      Connect.poll_id r.2 = Connect.epoll_create_ret w ∧ Connect.poll_id r.2 ≠ SRT_ERROR ∧
      Connect.created_pollers (Connect.calls r.2) = [Connect.epoll_create_ret w] ∧
      Connect.created_sockets (Connect.calls r.2) = [Connect.socket_ret w] ∧
      Connect.released (Connect.calls r.2) = [] ∧ Connect.closed (Connect.calls r.2) = [] ∧
      (Connect.registered (Connect.calls r.2)).*1 =
        [(Connect.epoll_create_ret w, Connect.socket_ret w)]
  end.
Proof.
  intros r. subst r.
  destruct (ConnectProofs.connect_body_spec w a SRT_ERROR sa_in)
    as (o & fr & Hb & Hrel & Hcl & _ & H).
  destruct (ConnectTraceProofs.connect_body_trace w a SRT_ERROR sa_in)
    as (o' & fr' & Hb' & _ & Hreg & _).
  rewrite Hb in Hb'. injection Hb' as <- <-.
  rewrite (ConnectProofs.connect_full_unfold _ _ _ _ _ _ Hb).
  destruct (Connect.first_failure w a) as [fp|].
  - destruct H as (-> & Hcp & Hcs & Hp & Hmi & Hs & Fp & Fs).
    cbn [fst snd Connect.calls Connect.poll_id Connect.sock].
    rewrite !ConnectProofs.created_pollers_app, !ConnectProofs.created_sockets_app,
      !ConnectProofs.released_app, !ConnectProofs.closed_app,
      !ConnectProofs.registered_app, Hrel, Hcl, Hcp, Hcs, Hp, Hs, (Hreg (mk_is_Some _ _ eq_refl)).
    unfold SRT_ERROR, SRT_INVALID_SOCK in *.
    destruct fp; cbn [Connect.created_before Connect.poll_id_at fst snd hd] in *;
      rewrite ?(Hmi eq_refl);
      repeat match goal with
             | H : Forall _ (_ :: _) |- _ => apply Forall_cons in H as [? ?]
             end;
      rewrite ?bool_decide_eq_true_2 by done;
      rewrite ?bool_decide_eq_false_2 by done;
      by cbv.
  - destruct H as (-> & Hs & He & Hp & Hsk & Hcp & Hcs & Hreg').
    cbn [fst snd]. rewrite Hp, Hreg'. done.
Qed.

(** [start] on an element that holds no handle returns TRUE exactly when
    the connect helper meets no failure.  It then holds the socket and the
    multiplexer the helper created; after a failure it holds none.  Either
    way the sequence tracking restarts at zero and the configuration is as
    it was. *)
Theorem client_src_start_outcome {GstCaps} (w : Connect.world)
    (base : BaseSrc.GstSRTBaseSrc ServerSinkStart.GstUri GstCaps)
    (st : GstSRTClientSrcPrivate) :
  poll_id st = SRT_ERROR →
  let r := gst_srt_client_src_start w base st in
  (r.1.1 = true ↔ Connect.first_failure w (connect_args base st) = None) ∧
  r.1.2 = mkPriv (if r.1.1 then Connect.socket_ret w else SRT_INVALID_SOCK)
                 (if r.1.1 then Connect.epoll_create_ret w else SRT_ERROR)
                 (poll_timeout st) 0 (rendezvous st) (bind_address st) (bind_port st) ∧
  (r.1.1 = true → sock r.1.2 ≠ SRT_INVALID_SOCK ∧ poll_id r.1.2 ≠ SRT_ERROR).
Proof.
  intros Hp r. subst r. unfold gst_srt_client_src_start. rewrite Hp.
  pose proof (connect_clean w (connect_args base st) None) as H. cbv zeta in H.
  cbn [fst snd sock].
  destruct (Connect.first_failure w (connect_args base st)) as [fp|].
  - destruct H as (-> & -> & _).
    rewrite bool_decide_eq_false_2 by (intros H; by apply H). done.
  - destruct H as (Hs & Hne & Hp' & Hpne & _).
    rewrite bool_decide_eq_true_2 by done. rewrite Hs, Hp' in *. done.
Qed.

Lemma client_src_start_outcome_witness :
  (gst_srt_client_src_start ConnectTrace.peer_world base_7001
     (gst_srt_client_src_init zeroed)).1
  = (true, mkPriv 7 1 (-1) 0 false None 0).
Proof.
  destruct (client_src_start_outcome ConnectTrace.peer_world base_7001
              (gst_srt_client_src_init zeroed) eq_refl) as (Hiff & Hst & _).
  assert (Connect.first_failure ConnectTrace.peer_world
            (connect_args base_7001 (gst_srt_client_src_init zeroed)) = None) as Hnone
    by (vm_compute; reflexivity).
  apply Hiff in Hnone. rewrite Hnone in Hst.
  apply injective_projections; [exact Hnone | exact Hst].
Defined.

(** One round on an element that holds no handle. *)
Lemma client_src_round_balanced {GstCaps} (w : Connect.world)
    (base : BaseSrc.GstSRTBaseSrc ServerSinkStart.GstUri GstCaps)
    (st : GstSRTClientSrcPrivate) :
  poll_id st = SRT_ERROR →
  let r1 := gst_srt_client_src_start w base st in
  let r2 := gst_srt_client_src_unlock r1.1.2 in
  released (r1.2 ++ r2.2) = created_pollers (r1.2 ++ r2.2) ∧
  closed (r1.2 ++ r2.2) = created_sockets (r1.2 ++ r2.2) ∧
  unregistered (r1.2 ++ r2.2) = registered (r1.2 ++ r2.2).
Proof.
  intros Hp r1 r2. subst r1 r2.
  unfold gst_srt_client_src_start, gst_srt_client_src_unlock. rewrite Hp.
  pose proof (connect_clean w (connect_args base st) None) as H. cbv zeta in H.
  cbn [fst snd sock poll_id].
  unfold released, closed, created_pollers, created_sockets, registered.
  rewrite unregistered_app, unregistered_fmap, !srt_calls_app, !srt_calls_fmap.
  rewrite ConnectProofs.released_app, ConnectProofs.closed_app,
    ConnectProofs.created_pollers_app, ConnectProofs.created_sockets_app,
    ConnectProofs.registered_app, fmap_app.
  destruct (Connect.first_failure w (connect_args base st)) as [fp|].
  - destruct H as (-> & -> & -> & -> & ->).
    rewrite !bool_decide_eq_false_2 by (intros H; by apply H). by rewrite !app_nil_r.
  - destruct H as (Hs & Hne & Hp' & Hpne & -> & -> & -> & -> & ->).
    rewrite !bool_decide_eq_true_2 by done. rewrite Hs, Hp'. by cbv.
Qed.

(** The element after [init] holds no handle.  From such an element, any
    number of rounds of [start] and [unlock], whatever the outcome of each
    [start], leaves an element that holds no handle again; every multiplexer
    created has been released and every socket created has been closed, once
    each and in the order of creation; every socket registered with a
    multiplexer has been taken out of it; and an [unlock] or a [finalize]
    that follows makes no call. *)
Theorem client_src_rounds_balanced {GstCaps} (ws : list Connect.world)
    (base : BaseSrc.GstSRTBaseSrc ServerSinkStart.GstUri GstCaps)
    (raw : GstSRTClientSrcPrivate) :
  sock (gst_srt_client_src_init raw) = SRT_INVALID_SOCK ∧
  poll_id (gst_srt_client_src_init raw) = SRT_ERROR ∧
  ∀ st, sock st = SRT_INVALID_SOCK → poll_id st = SRT_ERROR →
    let r := rounds ws base st in
    sock r.1 = SRT_INVALID_SOCK ∧ poll_id r.1 = SRT_ERROR ∧
    released r.2 = created_pollers r.2 ∧
    closed r.2 = created_sockets r.2 ∧
    unregistered r.2 = registered r.2 ∧
    (gst_srt_client_src_unlock r.1).2 = [] ∧
    (gst_srt_client_src_finalize r.1).2 = [].
Proof.
  split; [done|]. split; [done|].
  induction ws as [|w ws IH]; intros st Hs Hp.
  - cbn. unfold gst_srt_client_src_unlock, gst_srt_client_src_finalize.
    rewrite Hs, Hp. by cbv.
  - pose proof (client_src_round_balanced w base st Hp) as Hr. cbv zeta in Hr.
    cbn [rounds].
    destruct (gst_srt_client_src_start w base st) as [[b1 st1] l1].
    cbn [fst snd] in Hr.
    destruct (gst_srt_client_src_unlock st1) as [[b2 st2] l2] eqn:E2.
    cbn [fst snd] in Hr.
    assert (sock st2 = SRT_INVALID_SOCK ∧ poll_id st2 = SRT_ERROR) as [Hs2 Hp2].
    { unfold gst_srt_client_src_unlock in E2. by injection E2 as _ <- _. }
    specialize (IH st2 Hs2 Hp2). cbv zeta in IH.
    destruct (rounds ws base st2) as [st3 l3]. cbn [fst snd] in *.
    destruct IH as (I1 & I2 & I3 & I4 & I5 & I6 & I7).
    destruct Hr as (R1 & R2 & R3).
    split_and!; try done.
    + rewrite app_assoc. unfold released, created_pollers in *.
      rewrite !(srt_calls_app (l1 ++ l2)), ConnectProofs.released_app,
        ConnectProofs.created_pollers_app. by rewrite R1, I3.
    + rewrite app_assoc. unfold closed, created_sockets in *.
      rewrite !(srt_calls_app (l1 ++ l2)), ConnectProofs.closed_app,
        ConnectProofs.created_sockets_app. by rewrite R2, I4.
    + rewrite app_assoc. unfold registered in *.
      rewrite (unregistered_app (l1 ++ l2)), (srt_calls_app (l1 ++ l2)),
        ConnectProofs.registered_app, fmap_app. by rewrite R3, I5.
Qed.

Lemma client_src_rounds_balanced_witness :
  let r := rounds [ConnectTrace.peer_world; refusing] base_7001
                  (gst_srt_client_src_init zeroed) in
  released r.2 = [1; 2] ∧ closed r.2 = [7; 8] ∧ unregistered r.2 = [(1, 7)].
Proof.
  destruct (client_src_rounds_balanced [ConnectTrace.peer_world; refusing] base_7001 zeroed)
    as (Hs & Hp & H).
  destruct (H (gst_srt_client_src_init zeroed) Hs Hp) as (_ & _ & H3 & H4 & H5 & _).
  cbv zeta. rewrite H3, H4, H5. vm_compute. split_and!; reflexivity.
Defined.

(** Reading a property back after writing it.  The poll timeout and the
    bind address read back as written.  The getter of [bind-port] reads the
    rendezvous flag and the getter of [rendez-vous] reads the bind port: a
    bind port that was written reads back as the rendezvous flag, 0 or 1, and
    a rendezvous flag that was written reads back as whether the bind port is
    not zero. *)
Theorem client_src_property_readback {gdouble : Type} (minor : Z)
    (srt_bstats : Z → option (Stats.SRT_TRACEBSTATS gdouble))
    (st : GstSRTClientSrcPrivate) :
  let set := gst_srt_client_src_set_property (gdouble := gdouble) in
  let get := λ st id, (gst_srt_client_src_get_property minor srt_bstats st id).1 in
  (∀ n, get (set st PROP_POLL_TIMEOUT (VInt n)).1 PROP_POLL_TIMEOUT = Some (VInt n)) ∧
  (∀ s, get (set st PROP_BIND_ADDRESS (VString s)).1 PROP_BIND_ADDRESS
        = Some (VString s)) ∧
  (∀ n, get (set st PROP_BIND_PORT (VInt n)).1 PROP_BIND_PORT
        = Some (VInt (if rendezvous st then 1 else 0))) ∧
  (∀ b, get (set st PROP_RENDEZ_VOUS (VBoolean b)).1 PROP_RENDEZ_VOUS
        = Some (VBoolean (bool_decide (bind_port st ≠ 0)))) ∧
  (∀ n, get (set st PROP_BIND_PORT (VInt n)).1 PROP_RENDEZ_VOUS
        = Some (VBoolean (bool_decide (n mod 2 ^ 16 ≠ 0)))) ∧
  (∀ b, get (set st PROP_RENDEZ_VOUS (VBoolean b)).1 PROP_BIND_PORT
        = Some (VInt (if b then 1 else 0))).
Proof. by split_and!. Qed.

Lemma total_dropped_cons f ds out :
  total_dropped ((f, ds) :: out) = foldr Z.add 0 ds + total_dropped out.
Proof.
  unfold total_dropped. cbn [fmap list_fmap concat snd].
  induction ds as [|d ds IH]; [done|]. cbn [app foldr]. rewrite IH. lia.
Qed.

(** Over a stream of messages whose numbers increase, the gap diagnostics
    account for every number that is missing: once a message with a number
    other than zero has been seen, the counts reported by the fills that
    follow add up to the difference between the last number and that one,
    less the number of messages received.  Every such fill succeeds and the
    last number seen is that of the last message. *)
Theorem gap_accounting (es : list fill_env) (ms : list Z) (m0 : Z)
    (st : GstSRTClientSrcPrivate) (outbuf : GstBuffer) :
  Forall2 receives es ms → last_msg_num st = m0 → 0 < m0 < 2 ^ 31 →
  increasing m0 ms → Forall (λ m, m < 2 ^ 31) ms →
  let r := fills es st outbuf in
  last_msg_num r.1 = default m0 (last ms) ∧
  total_dropped r.2 = default m0 (last ms) - m0 - Z.of_nat (length ms) ∧
  Forall (λ o, o.1 = GST_FLOW_OK) r.2.
Proof.
  intros Hrecv. revert m0 st.
  induction Hrecv as [|e m es ms He Hrecv IH]; intros m0 st Hst Hm0 Hinc Hlt.
  - cbn. split_and!; [done|lia|constructor].
  - cbn [increasing] in Hinc. destruct Hinc as [Hm Hinc].
    apply Forall_cons in Hlt as [Hmlt Hlt].
    destruct (ClientSrcProofs.fill_received e st outbuf m He) as (F1 & F2 & F3);
      [lia|lia|].
    cbv zeta in F1, F2, F3.
    specialize (IH m (state (gst_srt_client_src_fill e st outbuf)) F2).
    destruct IH as (I1 & I2 & I3); [lia|done|done|].
    cbn [fills]. destruct (fills es _ outbuf) as [st2 out]. cbn [fst snd] in *.
    rewrite total_dropped_cons, F1, F3, I2, Hst.
    assert (default m0 (last (m :: ms)) = default m (last ms)) as ->.
    { destruct ms as [|x ms]; [done|]. rewrite last_cons_cons.
      destruct (last (x :: ms)) eqn:E; [done|]. by apply last_None in E. }
    split_and!; [done| |by constructor].
    rewrite length_cons.
    destruct (bool_decide_reflect (m0 ≠ 0 ∧ m - m0 > 1)); cbn [foldr]; lia.
Qed.

Lemma gap_accounting_witness :
  let r := fills [message 6; message 9; message 10; message 14]
                 (mkPriv 7 1 (-1) 5 false None 0) (mkBuffer [0; 0; 0] None None) in
  last_msg_num r.1 = 14 ∧ total_dropped r.2 = 5.
Proof.
  destruct (gap_accounting [message 6; message 9; message 10; message 14] [6; 9; 10; 14] 5
              (mkPriv 7 1 (-1) 5 false None 0) (mkBuffer [0; 0; 0] None None))
    as (H1 & H2 & _).
  - repeat constructor; done.
  - reflexivity.
  - lia.
  - cbn. lia.
  - repeat constructor; lia.
  - cbv zeta. rewrite H1, H2. split; reflexivity.
Defined.

End ClientSrcLifecycleProofs.

(** ** The client sink *)
Module ClientSinkProofs.
Import Goto ClientSink.

Local Open Scope string_scope.
Local Open Scope list_scope.

Ltac exec :=
  cbv beta iota zeta delta
    [bind ret goto_failed get modify when with_failed do_call update result
     priv calls set_sock set_poll_id sock poll_id poll_timeout default fst snd].

Lemma client_sink_failed_eq st l :
  failed (mkFrame st l) =
    (Some false,
     mkFrame (mkPriv SRT_INVALID_SOCK SRT_ERROR (poll_timeout st))
       (l ++ (if bool_decide (poll_id st = SRT_ERROR) then []
              else [srt_epoll_release (poll_id st)])
          ++ (if bool_decide (sock st = SRT_INVALID_SOCK) then []
              else [srt_close (sock st)]))).
Proof.
  unfold failed. destruct st as [s p t]. exec.
  rewrite !bool_decide_not.
  destruct (bool_decide_reflect (p = SRT_ERROR)),
           (bool_decide_reflect (s = SRT_INVALID_SOCK));
    subst; simpl; rewrite <- ?app_assoc, ?app_nil_r; reflexivity.
Qed.

Lemma client_sink_stop_eq st :
  gst_srt_client_sink_stop st =
    (true, mkPriv SRT_INVALID_SOCK SRT_ERROR (poll_timeout st),
     (if bool_decide (poll_id st = SRT_ERROR) then []
      else [srt_epoll_remove_usock (poll_id st) (sock st); srt_epoll_release (poll_id st)])
     ++ (if bool_decide (sock st = SRT_INVALID_SOCK) then [] else [srt_close (sock st)])).
Proof.
  unfold gst_srt_client_sink_stop. destruct st as [s p t]. exec.
  rewrite !bool_decide_not.
  destruct (bool_decide_reflect (p = SRT_ERROR)),
           (bool_decide_reflect (s = SRT_INVALID_SOCK));
    subst; simpl; reflexivity.
Qed.

(** [start], case by case. *)
Lemma client_sink_start_cases w uri st :
  let r := gst_srt_client_sink_start w uri st in
  match first_failure w uri with
  | None =>
      ∃ sa, g_inet_socket_address_new_from_string w
              (ClientSrcLifecycle.gst_uri_get_host uri)
              (ClientSrcLifecycle.gst_uri_get_port uri) = Some sa ∧
        r = (true, mkPriv (socket_ret w) (epoll_create_ret w) (poll_timeout st),
             success_calls w sa) ∧
        socket_ret w ≠ SRT_INVALID_SOCK ∧ epoll_create_ret w ≠ SRT_ERROR
  | Some fp =>
      r.1 = (false, mkPriv SRT_INVALID_SOCK SRT_ERROR (poll_timeout st)) ∧
      length (errors r.2) = 1%nat ∧
      created_pollers r.2 = (created_before w fp).1 ∧
      created_sockets r.2 = (created_before w fp).2 ∧
      released r.2 = (if bool_decide (poll_id_at w st fp = SRT_ERROR) then []
                      else [poll_id_at w st fp]) ∧
      closed r.2 = (if bool_decide (sock_at w st fp = SRT_INVALID_SOCK) then []
                    else [sock_at w st fp])
  end.
Proof.
  unfold gst_srt_client_sink_start, first_failure, start_body.
  destruct st as [s p t].
  destruct (g_inet_socket_address_new_from_string w _ _) as [sa|].
  2: { exec. rewrite client_sink_failed_eq. cbn -[bool_decide].
       unfold SRT_ERROR, SRT_INVALID_SOCK. repeat case_bool_decide; by cbv. }
  destruct (g_socket_address_to_native w sa); cbn [negb].
  2: { exec. rewrite client_sink_failed_eq. cbn -[bool_decide].
       unfold SRT_ERROR, SRT_INVALID_SOCK. repeat case_bool_decide; by cbv. }
  unfold SRT_ERROR, SRT_INVALID_SOCK in *.
  destruct (bool_decide_reflect (socket_ret w = -1)) as [Hs|Hs].
  { exec. rewrite client_sink_failed_eq. cbn -[bool_decide]. rewrite Hs.
    unfold SRT_ERROR, SRT_INVALID_SOCK. repeat case_bool_decide; by cbv. }
  destruct (bool_decide_reflect (epoll_create_ret w = -1)) as [He|He].
  { exec. rewrite client_sink_failed_eq. cbn -[bool_decide]. rewrite He.
    unfold SRT_ERROR, SRT_INVALID_SOCK. repeat case_bool_decide; try done; by cbv. }
  destruct (bool_decide_reflect (connect_ret w = -1)) as [Hc|Hc].
  { exec. rewrite client_sink_failed_eq. cbn -[bool_decide].
    unfold SRT_ERROR, SRT_INVALID_SOCK. repeat case_bool_decide; try done; by cbv. }
  exec. exists sa. split_and!; done.
Qed.

Lemma client_sink_first_failure_facts w uri fp :
  first_failure w uri = Some fp →
  match fp with
  | NoAddress | AddressResolution => True
  | SocketCreate => socket_ret w = -1
  | MultiplexerInit => socket_ret w ≠ -1 ∧ epoll_create_ret w = -1
  | ConnectFailure => socket_ret w ≠ -1 ∧ epoll_create_ret w ≠ -1
  end.
Proof.
  unfold first_failure, SRT_INVALID_SOCK, SRT_ERROR.
  repeat case_match; intros Heq; simplify_eq; try done;
    repeat match goal with
           | H : bool_decide _ = true |- _ => apply bool_decide_eq_true in H
           | H : bool_decide _ = false |- _ => apply bool_decide_eq_false in H
           end; done.
Qed.

(** [start] returns TRUE exactly when none of its checks fails; it has then
    created the socket, switched it to non-blocking sends, created the
    multiplexer, registered the socket with it for output, and connected, in
    this order and with no other call.  A [start]
    that fails posts exactly one element error and leaves the element
    without handles: it releases the multiplexer id and closes the socket
    the element holds at that moment, unless they are -1; these are the ones
    it has created by then, and before that the ones the fields held on
    entry.  Entered with both fields at -1, it releases and closes exactly
    what it created. *)
Theorem client_sink_start_outcome (w : world) (uri : option ServerSinkStart.GstUri)
    (st : GstSRTClientSinkPrivate) :
  let r := gst_srt_client_sink_start w uri st in
  (r.1.1 = true ↔ first_failure w uri = None) ∧
  (first_failure w uri = None →
     ∃ sa, g_inet_socket_address_new_from_string w
             (ClientSrcLifecycle.gst_uri_get_host uri)
             (ClientSrcLifecycle.gst_uri_get_port uri) = Some sa ∧
       r = (true, mkPriv (socket_ret w) (epoll_create_ret w) (poll_timeout st),
            success_calls w sa)) ∧
  (∀ fp, first_failure w uri = Some fp →
     r.1.2 = mkPriv SRT_INVALID_SOCK SRT_ERROR (poll_timeout st) ∧
     length (errors r.2) = 1%nat ∧
     released r.2 = (if bool_decide (poll_id_at w st fp = SRT_ERROR) then []
                     else [poll_id_at w st fp]) ∧
     closed r.2 = (if bool_decide (sock_at w st fp = SRT_INVALID_SOCK) then []
                   else [sock_at w st fp]) ∧
     (sock st = SRT_INVALID_SOCK → poll_id st = SRT_ERROR →
      released r.2 = created_pollers r.2 ∧ closed r.2 = created_sockets r.2)).
Proof.
  intros r. subst r. pose proof (client_sink_start_cases w uri st) as H. cbv zeta in H.
  destruct (first_failure w uri) as [fp|] eqn:Hfp.
  - destruct H as (H1 & H2 & H3 & H4 & H5 & H6).
    split; [by rewrite H1|]. split; [done|].
    intros fp' [= <-]. rewrite H1. split_and!; try done.
    intros Hs Hp. rewrite H3, H4, H5, H6.
    pose proof (client_sink_first_failure_facts w uri fp Hfp) as Hf.
    unfold SRT_ERROR, SRT_INVALID_SOCK in *.
    destruct fp; cbn [poll_id_at sock_at created_before fst snd] in *;
      rewrite ?Hs, ?Hp; destruct_and?; repeat case_bool_decide; done.
  - destruct H as (sa & Hsa & -> & _). split; [done|]. split; [|done].
    intros _. by exists sa.
Qed.

Lemma client_sink_start_outcome_witness :
  gst_srt_client_sink_start reachable_peer uri_7001 (mkPriv 0 0 (-1))
  = (true, mkPriv 7 1 (-1),
     [srt_socket 2 7;
      srt_setsockopt 7 Connect.SRTO_SNDSYN 0;
      srt_epoll_create 1;
      srt_epoll_add_usock 1 7 4;
      srt_connect 7 (Connect.mkAddr 2 "10.0.0.1" 7001) 0]).
Proof.
  destruct (client_sink_start_outcome reachable_peer uri_7001 (mkPriv 0 0 (-1)))
    as (_ & H & _).
  destruct (H eq_refl) as (sa & Hsa & ->). injection Hsa as <-. reflexivity.
Defined.

(** One round on an element that holds no handle. *)
Lemma client_sink_round_balanced w uri st :
  sock st = SRT_INVALID_SOCK → poll_id st = SRT_ERROR →
  let r1 := gst_srt_client_sink_start w uri st in
  let r2 := gst_srt_client_sink_stop r1.1.2 in
  sock r2.1.2 = SRT_INVALID_SOCK ∧ poll_id r2.1.2 = SRT_ERROR ∧
  released (r1.2 ++ r2.2) = created_pollers (r1.2 ++ r2.2) ∧
  closed (r1.2 ++ r2.2) = created_sockets (r1.2 ++ r2.2).
Proof.
  intros Hs Hp r1 r2. subst r1 r2. rewrite client_sink_stop_eq. cbn [fst snd sock poll_id].
  split; [done|]. split; [done|].
  pose proof (client_sink_start_cases w uri st) as H. cbv zeta in H.
  destruct (first_failure w uri) as [fp|] eqn:Hfp.
  - destruct H as (H1 & H2 & H3 & H4 & H5 & H6). rewrite H1. cbn [fst snd sock poll_id].
    rewrite !bool_decide_eq_true_2 by done. rewrite !app_nil_r, H3, H4, H5, H6.
    pose proof (client_sink_first_failure_facts w uri fp Hfp) as Hf.
    unfold SRT_ERROR, SRT_INVALID_SOCK in *.
    destruct fp; cbn [poll_id_at sock_at created_before fst snd] in *;
      rewrite ?Hs, ?Hp; destruct_and?; repeat case_bool_decide; done.
  - destruct H as (sa & Hsa & -> & Hsn & Hen). cbn [fst snd sock poll_id].
    rewrite !bool_decide_eq_false_2 by done.
    unfold released, closed, created_pollers, created_sockets, success_calls.
    cbn -[bool_decide]. unfold SRT_ERROR, SRT_INVALID_SOCK in *.
    rewrite !bool_decide_eq_false_2 by done. done.
Qed.

(** After a [start] and a [stop] the element holds no handle, whatever it
    held before and whatever the outcome of [start].  From an element that
    holds none, any number of rounds of [start] and [stop] releases every
    multiplexer created and closes every socket created, once each and in
    the order of creation, and a further [stop] makes no call. *)
Theorem client_sink_rounds_balanced (ws : list world)
    (uri : option ServerSinkStart.GstUri) (st : GstSRTClientSinkPrivate) :
  (∀ w, let st2 := (gst_srt_client_sink_stop (gst_srt_client_sink_start w uri st).1.2).1.2 in
        sock st2 = SRT_INVALID_SOCK ∧ poll_id st2 = SRT_ERROR) ∧
  (sock st = SRT_INVALID_SOCK → poll_id st = SRT_ERROR →
   let r := rounds ws uri st in
   sock r.1 = SRT_INVALID_SOCK ∧ poll_id r.1 = SRT_ERROR ∧
   released r.2 = created_pollers r.2 ∧
   closed r.2 = created_sockets r.2 ∧
   gst_srt_client_sink_stop r.1 = (true, r.1, [])).
Proof.
  split; [intros w; by rewrite client_sink_stop_eq|].
  revert st. induction ws as [|w ws IH]; intros st Hs Hp.
  - cbn. rewrite client_sink_stop_eq, Hs, Hp. destruct st as [s p t]. cbn in *. by subst.
  - pose proof (client_sink_round_balanced w uri st Hs Hp) as Hr. cbv zeta in Hr.
    cbn [rounds].
    destruct (gst_srt_client_sink_start w uri st) as [[b1 st1] l1].
    cbn [fst snd] in Hr.
    destruct (gst_srt_client_sink_stop st1) as [[b2 st2] l2].
    cbn [fst snd] in Hr. destruct Hr as (Hs2 & Hp2 & R1 & R2).
    specialize (IH st2 Hs2 Hp2). cbv zeta in IH.
    destruct (rounds ws uri st2) as [st3 l3]. cbn [fst snd] in *.
    destruct IH as (I1 & I2 & I3 & I4 & I5).
    split_and!; try done.
    + rewrite app_assoc. unfold released, created_pollers in *.
      rewrite !(flat_map_app _ (l1 ++ l2)). by rewrite R1, I3.
    + rewrite app_assoc. unfold closed, created_sockets in *.
      rewrite !(flat_map_app _ (l1 ++ l2)). by rewrite R2, I4.
Qed.

Lemma client_sink_rounds_balanced_witness :
  let r := rounds [reachable_peer; unreachable_peer; no_address] uri_7001
                  (mkPriv (-1) (-1) (-1)) in
  released r.2 = [1; 2] ∧ closed r.2 = [7; 8].
Proof.
  destruct (client_sink_rounds_balanced [reachable_peer; unreachable_peer; no_address]
              uri_7001 (mkPriv (-1) (-1) (-1))) as [_ H].
  destruct (H eq_refl eq_refl) as (_ & _ & H3 & H4 & _).
  cbv zeta. rewrite H3, H4. vm_compute. split; reflexivity.
Defined.

End ClientSinkProofs.

(** ** The base sink: [render] *)
Module BaseSinkProofs.
Import BaseSink.

Local Open Scope string_scope.
Local Open Scope list_scope.

(** The server sink never fails a buffer that maps: at any point of a
    session [render] returns [GST_FLOW_OK], whatever the transport answers
    for any client; the buffer is mapped and unmapped once.  Only a buffer
    that cannot be mapped gives a flow error, and the registry is then left
    as it was. *)
Theorem render_server_sink (lsock eid : Z) (acts : list ServerSink.action)
    (st : ServerSink.GstSRTServerSinkPrivate) (w : ServerSink.transport) :
  ServerSink.run acts (ServerSink.started lsock eid) = Some st →
  (∃ st', gst_srt_base_sink_render true w st
          = Some (ClientSrc.GST_FLOW_OK, st', [gst_buffer_map true; gst_buffer_unmap]) ∧
     ServerSink.gst_srt_server_sink_send_buffer w st = Some (true, st')) ∧
  gst_srt_base_sink_render false w st
    = Some (ClientSrc.GST_FLOW_ERROR, st,
            [gst_buffer_map false; element_error "Could not map the input stream"]).
Proof.
  intros Hrun. pose proof (ServerSinkProofs.reachable_inv _ _ _ _ Hrun) as I.
  destruct (ServerSinkProofs.send_buffer_spec w st I) as (st' & Hsb & _).
  split; [|done]. exists st'. split; [|done].
  unfold gst_srt_base_sink_render. cbn [negb send_buffer server_sink_class].
  by rewrite Hsb.
Qed.

Lemma render_server_sink_witness :
  ∃ st', gst_srt_base_sink_render true (ServerSink.failing_on 5) ServerSink.st_live56
         = Some (ClientSrc.GST_FLOW_OK, st', [gst_buffer_map true; gst_buffer_unmap]).
Proof.
  destruct (render_server_sink 3 1
              [ServerSink.accepts 5; ServerSink.accepts 6; ServerSink.deliver ServerSink.clear]
              ServerSink.st_live56 (ServerSink.failing_on 5)) as [(st' & H & _) _].
  - vm_compute. reflexivity.
  - by exists st'.
Defined.

(** The client sink fails a buffer exactly when it cannot be mapped or
    [srt_sendmsg2] returns [SRT_ERROR]; one element error is posted in
    either case and none otherwise.  A buffer that maps is sent once, on
    the socket the element holds, and unmapped again whether or not the send
    succeeds; a buffer that does not map is not sent.  The element's fields
    are left as they were. *)
Theorem render_client_sink (map_ok : bool) (e : ClientSink.send_env)
    (st : ClientSink.GstSRTClientSinkPrivate) :
  ∃ flow calls rc,
    gst_srt_base_sink_render map_ok e (st, []) = Some (flow, (st, calls), rc) ∧
    (flow = ClientSrc.GST_FLOW_ERROR ↔
     map_ok = false ∨ ClientSink.sendmsg2_ret e = SRT_ERROR) ∧
    (flow = ClientSrc.GST_FLOW_OK ∨ flow = ClientSrc.GST_FLOW_ERROR) ∧
    length (ClientSink.errors calls ++ render_errors rc)
      = (if map_ok && bool_decide (ClientSink.sendmsg2_ret e ≠ SRT_ERROR)
         then 0 else 1)%nat ∧
    rc = (if map_ok then [gst_buffer_map true; gst_buffer_unmap]
          else [gst_buffer_map false; element_error "Could not map the input stream"]) ∧
    sends calls = (if map_ok then [(ClientSink.sock st, ClientSink.sendmsg2_ret e)]
                   else []).
Proof.
  unfold gst_srt_base_sink_render. destruct map_ok; cbn [negb].
  - cbn [send_buffer client_sink_class]. unfold ClientSink.gst_srt_client_sink_send_buffer.
    ClientSinkProofs.exec.
    destruct (bool_decide_reflect (ClientSink.sendmsg2_ret e = SRT_ERROR)) as [He|He].
    + ClientSinkProofs.exec. destruct st as [s p t]. eexists _, _, _.
      split; [reflexivity|]. rewrite bool_decide_eq_false_2 by (intros H; by apply H).
      split_and!; try done; [by split; [right|] | by right].
    + ClientSinkProofs.exec. destruct st as [s p t]. eexists _, _, _.
      split; [reflexivity|]. rewrite bool_decide_eq_true_2 by done.
      split_and!; try done; [|by left]. split; [done|]. by intros [? | ?].
  - eexists _, _, _. split; [reflexivity|].
    split_and!; try done; [by split; [left|] | by right].
Qed.

End BaseSinkProofs.

(** ** The base source: properties *)
Module BaseSrcPropsProofs.
Import BaseSrc BaseSrcProps.

Local Open Scope string_scope.
Local Open Scope list_scope.

Section Proofs.

Context {GstUri GstCaps : Type}.
Context (gst_uri_from_string : option string → option GstUri).
Context (gst_uri_get_scheme : option GstUri → option string).
Context (gst_uri_to_string : option GstUri → option string).

Lemma set_property_keeps (self : GstSRTBaseSrc GstUri GstCaps) prop_id value :
  let self' := (gst_srt_base_src_set_property gst_uri_from_string gst_uri_get_scheme
                  self prop_id value).1 in
  latency self' = latency self ∧
  (valid_key_length (key_length self) → valid_key_length (key_length self')) ∧
  (gst_uri_get_scheme (uri self) = Some SRT_URI_SCHEME →
   gst_uri_get_scheme (uri self') = Some SRT_URI_SCHEME).
Proof.
  unfold gst_srt_base_src_set_property, gst_srt_base_src_uri_set_uri, valid_key_length.
  repeat case_bool_decide; cbn [fst snd latency key_length uri orb]; split_and!;
    try done; intros; simplify_eq; auto.
  all: repeat match goal with
       | H : context [bool_decide ?P] |- _ => destruct (bool_decide_reflect P)
       | |- context [bool_decide ?P] => destruct (bool_decide_reflect P)
       end; cbn [fst snd latency key_length uri orb] in *; auto.
Qed.

(** Whatever properties are written, in whatever order and with whatever
    values: the latency of the element does not change, since the setter has
    no case for it and reports the id as invalid; a key length of 16, 24 or
    32 stays one of these; and a URI with the scheme "srt" stays one with
    that scheme.  Reading the latency back after writing it gives the old
    value. *)
Theorem base_src_write_invariants (self : GstSRTBaseSrc GstUri GstCaps)
    (writes : list (Z * GValue GstCaps)) :
  let set_property :=
    gst_srt_base_src_set_property gst_uri_from_string gst_uri_get_scheme in
  let get_property :=
    gst_srt_base_src_get_property (GstCaps := GstCaps) gst_uri_to_string in
  let self' := set_properties gst_uri_from_string gst_uri_get_scheme self writes in
  latency self' = latency self ∧
  (valid_key_length (key_length self) → valid_key_length (key_length self')) ∧
  (gst_uri_get_scheme (uri self) = Some SRT_URI_SCHEME →
   gst_uri_get_scheme (uri self') = Some SRT_URI_SCHEME) ∧
  (∀ n, set_property self PROP_LATENCY (VInt n)
        = (self, [warn_invalid_property_id PROP_LATENCY]) ∧
        (get_property (set_property self PROP_LATENCY (VInt n)).1 PROP_LATENCY).1
        = Some (VInt (latency self))).
Proof.
  cbv zeta. split_and!.
  1-3: revert self; induction writes as [|[id v] writes IH]; intros self; [done..|];
       cbn [set_properties foldl fst snd];
       pose proof (set_property_keeps self id v) as (K1 & K2 & K3);
       pose proof (IH (gst_srt_base_src_set_property gst_uri_from_string
                         gst_uri_get_scheme self id v).1) as IH';
       unfold set_properties in IH'.
  - by rewrite IH', K1.
  - intros Hk. by apply IH', K2.
  - intros Hu. by apply IH', K3.
  - intros n. done.
Qed.

(** Reading a property back after writing it: the capabilities, the
    passphrase and a key length of 16, 24 or 32 read back as written; any
    other key length reads back as the old one; a URI whose scheme is "srt"
    reads back as the text of the parsed URI, and a URI with another scheme,
    or none, leaves the old URI to be read. *)
Theorem base_src_property_readback (self : GstSRTBaseSrc GstUri GstCaps) :
  let set_property :=
    gst_srt_base_src_set_property gst_uri_from_string gst_uri_get_scheme in
  let get_property :=
    gst_srt_base_src_get_property (GstCaps := GstCaps) gst_uri_to_string in
  (∀ c, (get_property (set_property self PROP_CAPS (VCaps c)).1 PROP_CAPS).1
        = Some (VCaps c)) ∧
  (∀ s, (get_property (set_property self PROP_PASSPHRASE (VString s)).1 PROP_PASSPHRASE).1
        = Some (VString s)) ∧
  (∀ n, (get_property (set_property self PROP_KEY_LENGTH (VInt n)).1 PROP_KEY_LENGTH).1
        = Some (VInt (if bool_decide (valid_key_length n) then n else key_length self))) ∧
  (∀ s u, gst_uri_from_string s = Some u →
        (get_property (set_property self PROP_URI (VString s)).1 PROP_URI).1
        = if bool_decide (gst_uri_get_scheme (Some u) = Some SRT_URI_SCHEME)
          then Some (VString (gst_uri_to_string (Some u)))
          else (get_property self PROP_URI).1) ∧
  (∀ s, gst_uri_get_scheme (gst_uri_from_string s) ≠ Some SRT_URI_SCHEME →
        set_property self PROP_URI (VString s) = (self, [])).
Proof.
  cbv zeta. split_and!.
  - done.
  - done.
  - intros n. unfold gst_srt_base_src_set_property, valid_key_length.
    assert (Hprop : bool_decide (PROP_KEY_LENGTH = PROP_URI) = false
                  ∧ bool_decide (PROP_KEY_LENGTH = PROP_CAPS) = false
                  ∧ bool_decide (PROP_KEY_LENGTH = PROP_PASSPHRASE) = false
                  ∧ bool_decide (PROP_KEY_LENGTH = PROP_KEY_LENGTH) = true) by done.
    destruct Hprop as (-> & -> & -> & ->). cbn [g_value_get_int].
    destruct (bool_decide_reflect (n = 16)), (bool_decide_reflect (n = 24)),
             (bool_decide_reflect (n = 32)); cbn [orb fst];
      case_bool_decide; try done; tauto.
  - intros s u Hu. unfold gst_srt_base_src_set_property, gst_srt_base_src_uri_set_uri.
    cbn [g_value_get_string]. rewrite Hu.
    assert (bool_decide (PROP_URI = PROP_URI) = true) as -> by done.
    case_bool_decide; done.
  - intros s Hs. unfold gst_srt_base_src_set_property, gst_srt_base_src_uri_set_uri.
    cbn [g_value_get_string].
    assert (bool_decide (PROP_URI = PROP_URI) = true) as -> by done.
    by rewrite bool_decide_eq_false_2.
Qed.

End Proofs.

Lemma base_src_write_invariants_witness :
  let self' :=
    set_properties parse_text scheme_of_text
      (mkBaseSrc (GstCaps := unit) (Some "srt://127.0.0.1:7001") None 125 None 16)
      [(PROP_LATENCY, VInt 20); (PROP_KEY_LENGTH, VInt 20);
       (PROP_URI, VString (Some "udp://127.0.0.1:7001")); (PROP_KEY_LENGTH, VInt 32)] in
  latency self' = 125 ∧ valid_key_length (key_length self') ∧
  scheme_of_text (uri self') = Some "srt".
Proof.
  destruct (base_src_write_invariants parse_text scheme_of_text (λ u, u)
      (mkBaseSrc (GstCaps := unit) (Some "srt://127.0.0.1:7001") None 125 None 16)
      [(PROP_LATENCY, VInt 20); (PROP_KEY_LENGTH, VInt 20);
       (PROP_URI, VString (Some "udp://127.0.0.1:7001")); (PROP_KEY_LENGTH, VInt 32)])
    as (H1 & H2 & H3 & _).
  split_and!; [exact H1 | apply H2; by left | apply H3; reflexivity].
Defined.

Lemma base_src_property_readback_witness :
  (gst_srt_base_src_get_property (λ u, u)
     (gst_srt_base_src_set_property parse_text scheme_of_text
        (mkBaseSrc (GstCaps := unit) (Some "srt://127.0.0.1:7001") None 125 None 16)
        PROP_URI (VString (Some "udp://127.0.0.1:7001"))).1 PROP_URI).1
  = Some (VString (Some "srt://127.0.0.1:7001")).
Proof.
  destruct (base_src_property_readback parse_text scheme_of_text (λ u, u)
      (mkBaseSrc (GstCaps := unit) (Some "srt://127.0.0.1:7001") None 125 None 16))
    as (_ & _ & _ & H & _).
  rewrite (H (Some "udp://127.0.0.1:7001") "udp://127.0.0.1:7001" eq_refl).
  reflexivity.
Defined.

End BaseSrcPropsProofs.

(** ** Statistics *)
Module StatsProofs.
Import Stats.

Local Open Scope string_scope.
Local Open Scope list_scope.

(** The statistics of a sender.  Without a valid socket or without an
    address the structure has no field; when [srt_bstats] fails it has the
    address and its text only.  Otherwise it has fifteen fields with
    distinct names: the second assignment of "send-duration-us" replaces the
    first, so that the field is unsigned; and the field "send-rate-mbps"
    holds the round-trip time, as "rtt-ms" does, not the sending rate. *)
Theorem sink_stats_fields {gdouble : Type}
    (srt_bstats : Z → option (SRT_TRACEBSTATS gdouble))
    (to_string : ServerSink.GSocketAddress → string)
    (sockaddr : option ServerSink.GSocketAddress) (sock : Z) :
  let s := gst_srt_base_sink_get_stats srt_bstats to_string sockaddr sock in
  structure_name s = "application/x-srt-statistics" ∧
  (sock = SRT_INVALID_SOCK ∨ sockaddr = None → fields s = []) ∧
  (∀ a, sockaddr = Some a → sock ≠ SRT_INVALID_SOCK → srt_bstats sock = None →
     fields s = [("sockaddr", G_TYPE_SOCKET_ADDRESS a);
                 ("sockaddr-str", G_TYPE_STRING (to_string a))]) ∧
  (∀ a stats, sockaddr = Some a → sock ≠ SRT_INVALID_SOCK →
     srt_bstats sock = Some stats →
     (fields s).*1 =
       ["sockaddr"; "packets-sent"; "packets-sent-lost"; "packets-retransmitted";
        "packet-ack-received"; "packet-nack-received"; "send-duration-us";
        "bytes-sent"; "bytes-retransmitted"; "bytes-sent-dropped";
        "packets-sent-dropped"; "send-rate-mbps"; "bandwidth-mbps"; "rtt-ms";
        "sockaddr-str"] ∧
     NoDup (fields s).*1 ∧
     gst_structure_get s "send-duration-us"
       = Some (G_TYPE_UINT64 (usSndDuration stats mod 2 ^ 64)) ∧
     gst_structure_get s "send-rate-mbps" = Some (G_TYPE_DOUBLE (msRTT stats)) ∧
     gst_structure_get s "rtt-ms" = Some (G_TYPE_DOUBLE (msRTT stats))).
Proof.
  cbv zeta. unfold gst_srt_base_sink_get_stats. split_and!.
  - destruct sockaddr; [|done]. case_bool_decide; [done|]. by destruct (srt_bstats sock).
  - intros [-> | ->]; [|done]. by destruct sockaddr.
  - intros a -> Hs ->. by rewrite bool_decide_eq_false_2.
  - intros a stats -> Hs ->. rewrite bool_decide_eq_false_2 by done.
    split_and!; try reflexivity.
    apply (bool_decide_unpack _). by vm_compute.
Qed.

Lemma sink_stats_fields_witness :
  fields (gst_srt_base_sink_get_stats (gdouble := Z) (λ _, None) (λ _, "10.0.0.1:7001")
            (Some 42) 5)
  = [("sockaddr", G_TYPE_SOCKET_ADDRESS 42); ("sockaddr-str", G_TYPE_STRING "10.0.0.1:7001")].
Proof.
  by apply (sink_stats_fields (gdouble := Z) (λ _, None) (λ _, "10.0.0.1:7001")
              (Some 42) 5).
Defined.

(** The statistics of a receiver.  Without a valid socket, or when
    [srt_bstats] fails, the structure has no field.  Otherwise it has twelve
    fields with distinct names, and the field "bytes-recv-dropped" holds the
    count of lost bytes. *)
Theorem src_stats_fields {gdouble : Type}
    (srt_bstats : Z → option (SRT_TRACEBSTATS gdouble)) (sock : Z) :
  let s := gst_srt_base_src_get_stats srt_bstats sock in
  structure_name s = "application/x-srt-statistics" ∧
  (sock = SRT_INVALID_SOCK ∨ srt_bstats sock = None → fields s = []) ∧
  (∀ stats, sock ≠ SRT_INVALID_SOCK → srt_bstats sock = Some stats →
     (fields s).*1 =
       ["packets-recv"; "packets-recv-lost"; "packets-retransmitted";
        "packet-ack-received"; "packet-nack-received"; "bytes-received";
        "bytes-retransmitted"; "bytes-recv-dropped"; "packets-recv-dropped";
        "recv-rate-mbps"; "bandwidth-mbps"; "rtt-ms"] ∧
     NoDup (fields s).*1 ∧
     gst_structure_get s "bytes-recv-dropped" = Some (G_TYPE_UINT64 (byteRcvLoss stats)) ∧
     gst_structure_get s "recv-rate-mbps" = Some (G_TYPE_DOUBLE (mbpsRecvRate stats))).
Proof.
  cbv zeta. unfold gst_srt_base_src_get_stats. split_and!.
  - case_bool_decide; [done|]. by destruct (srt_bstats sock).
  - intros [-> | ->]; [done|]. by case_bool_decide.
  - intros stats Hs ->. rewrite bool_decide_eq_false_2 by done.
    split_and!; try reflexivity.
    apply (bool_decide_unpack _). by vm_compute.
Qed.

Lemma src_stats_fields_witness :
  fields (gst_srt_base_src_get_stats (gdouble := Z) (λ _, None) 5) = [].
Proof.
  apply (src_stats_fields (gdouble := Z) (λ _, None) 5). by right.
Defined.

End StatsProofs.
